(** * ZenithSocket: the incremental tree-synchronisation engine

    A shallow embedding of the producer-side change detector and batch
    dispatcher (the Lua HTTP clients), of the consumer-side ingestion store
    (server/routes.ts, server/storage.ts) and of the tree reconciler of the
    explorer (the TreeView component), with the properties the specification
    states about them. *)

From Stdlib Require Import ZArith QArith Qround Lqa String Ascii List Lia.
From stdpp Require Import base option list gmap strings sorting.

Set Warnings "-clear-no-such-hyp".
Local Open Scope Z_scope.

(** ** Shared data model (shared/schema.ts) *)

(** A property value.  The code never computes with property values; it
    only prints them ([tostring] in Lua, [JSON.stringify] in TypeScript), so
    a number is kept as the text it prints as. *)
Inductive PropValue :=
  | PBool (b : bool)
  | PNum (shown : string)
  | PStr (s : string).

#[global] Instance PropValue_eq_dec : EqDecision PropValue.
Proof. solve_decision. Defined.

Module Schema.

(** [GameInstanceSchema]: one node of the synchronised hierarchy.  [parent]
    is nullable; [properties] is an open record, kept as the list of its
    entries in enumeration order. *)
Record GameInstance := mkGameInstance {
  id : string;
  name : string;
  className : string;
  path : string;
  parent : option string;
  properties : list (string * PropValue);
  children : list string
}.

#[global] Instance GameInstance_eq_dec : EqDecision GameInstance.
Proof. solve_decision. Defined.

End Schema.

Import Schema.

(** ** JavaScript [Map]s whose iteration order matters

    A [Map] enumerates its entries in the order the keys were first set;
    setting an existing key replaces the value where it stands. *)

Module JsMap.
Section Ops.
Context {V : Type}.

Fixpoint set (m : list (string * V)) (k : string) (v : V) : list (string * V) :=
  match m with
  | [] => [(k, v)]
  | (k', v') :: rest =>
      if decide (k' = k) then (k', v) :: rest
      else (k', v') :: set rest k v
  end.

Fixpoint get (m : list (string * V)) (k : string) : option V :=
  match m with
  | [] => None
  | (k', v') :: rest => if decide (k' = k) then Some v' else get rest k
  end.

Definition has (m : list (string * V)) (k : string) : bool :=
  bool_decide (is_Some (get m k)).

(** The entry under [k] is an object; [update] mutates it in place. *)
Fixpoint update (m : list (string * V)) (k : string) (f : V → V)
    : list (string * V) :=
  match m with
  | [] => []
  | (k', v') :: rest =>
      if decide (k' = k) then (k', f v') :: rest
      else (k', v') :: update rest k f
  end.

Definition keys (m : list (string * V)) : list string := fst <$> m.
Definition values (m : list (string * V)) : list V := snd <$> m.

End Ops.
End JsMap.

(** ** The ingestion store (server/routes.ts) *)

Module Server.

(** [fastConnection]; dates are milliseconds since the epoch. *)
Record ConnectionStatus := mkConnectionStatus {
  isConnected : bool;
  connectedAt : option Z;
  lastPing : option Z;
  gameName : option string;
  placeId : option string
}.

#[global] Instance ConnectionStatus_eq_dec : EqDecision ConnectionStatus.
Proof. solve_decision. Defined.

(** Calls made on the [storage] object (the Postgres-backed
    [DatabaseStorage]).  The handlers never read the database back, so the
    model records the calls in the order they are issued. *)
Inductive StorageCall :=
  | ClearAllInstances
  | AddInstancesBatch (instances : list GameInstance)
  | RemoveInstance (p : string)
  | SetConnectionStatus (status : ConnectionStatus).

(** The module-level variables of routes.ts.  [cachedResponse] and
    [cachedConnectionResponse] hold pre-stringified JSON; they are modelled
    by the values that were stringified. *)
Record ServerState := mkServerState {
  fastInstances : list GameInstance;
  instancesMap : gmap string GameInstance;
  fastConnection : ConnectionStatus;
  lastDataUpdate : Z;
  cachedResponse : list GameInstance;
  cachedConnectionResponse : ConnectionStatus;
  storageCalls : list StorageCall
}.

Definition disconnectedStatus : ConnectionStatus :=
  mkConnectionStatus false None None None None.

Definition initial : ServerState :=
  mkServerState [] ∅ disconnectedStatus 0 [] disconnectedStatus [].

(** [storage.ts], [addInstancesBatch], lines 79-85: a [Map] keyed by path
    removes duplicates within one batch.  A JavaScript [Map] keeps the
    position of the first insertion of a key and the value of the last. *)
Definition uniqueInstancesList (instances : list GameInstance)
    : list GameInstance :=
  JsMap.values (foldl (λ m inst, JsMap.set m (path inst) inst) [] instances).

(** [storage.ts], [addInstancesBatch], lines 88-93: the list is cut into
    chunks of [CHUNK_SIZE] by a loop whose index advances by [CHUNK_SIZE]
    while it is below the length; [slice] stops at the end of the list.
    [fuel] bounds the number of rounds. *)
Definition CHUNK_SIZE : nat := 100.

Fixpoint chunkLoop {A} (fuel i : nat) (l : list A) : list (list A) :=
  match fuel with
  | O => []
  | S fuel' =>
      if decide (i < length l)%nat
      then take CHUNK_SIZE (drop i l) :: chunkLoop fuel' (i + CHUNK_SIZE) l
      else []
  end.

Definition chunks {A} (l : list A) : list (list A) := chunkLoop (length l) 0 l.

(** The instances [addInstancesBatch] hands to [addInstance], in call
    order.  A failing [addInstance] is caught per instance, so the calls do
    not depend on earlier outcomes. *)
Definition addInstanceCalls (instances : list GameInstance)
    : list GameInstance :=
  if decide (length instances = 0%nat) then []
  else
    let uniqueList := uniqueInstancesList instances in
    if decide (length uniqueList = 0%nat) then []
    else concat (chunks uniqueList).

(** *** GET /api/instances ([listNodes]) *)

Inductive InstancesResponse :=
  | NotModified
  | Body (instances : list GameInstance).

(** The client's [If-None-Match] header is compared with the quoted
    [lastDataUpdate]; a header that does not quote a number never matches
    and is modelled as [None]. *)
Definition getInstances (ifNoneMatch : option Z) (st : ServerState)
    : InstancesResponse :=
  if decide (ifNoneMatch = Some (lastDataUpdate st)) then NotModified
  else Body (cachedResponse st).

(** *** GET /api/connection *)

Inductive ConnectionResponse :=
  | ConnectionNotModified
  | ConnectionBody (status : ConnectionStatus).

(** The tag is built from [fastConnection.lastPing], or 0 without one; the
    body is the cached response. *)
Definition connectionTag (st : ServerState) : Z :=
  match lastPing (fastConnection st) with
  | Some t => t
  | None => 0
  end.

Definition getConnection (ifNoneMatch : option Z) (st : ServerState)
    : ConnectionResponse :=
  if decide (ifNoneMatch = Some (connectionTag st)) then ConnectionNotModified
  else ConnectionBody (cachedConnectionResponse st).

(** *** POST /api/clear-instances *)

Definition clearInstances (st : ServerState) : ServerState :=
  mkServerState [] ∅ (fastConnection st) (lastDataUpdate st) []
    (cachedConnectionResponse st)
    (storageCalls st ++ [ClearAllInstances]).

(** *** POST /api/game-tree ([applySnapshot]) *)

(** The handler talks to [storage] only: none of the in-memory variables is
    assigned. *)
Definition gameTree (instances : list GameInstance) (now : Z)
    (st : ServerState) : ServerState :=
  let connectionStatus := mkConnectionStatus true (Some now) (Some now) None None in
  mkServerState (fastInstances st) (instancesMap st) (fastConnection st)
    (lastDataUpdate st) (cachedResponse st) (cachedConnectionResponse st)
    (storageCalls st ++
       [SetConnectionStatus connectionStatus; ClearAllInstances;
        AddInstancesBatch instances]).

(** *** POST /api/game-tree-batch ([applyBatch]) *)

Definition setAll (m : gmap string GameInstance) (l : list GameInstance)
    : gmap string GameInstance :=
  foldl (λ acc instance, <[path instance := instance]> acc) m l.

Definition batchNewInstances (fast instances : list GameInstance)
    : list GameInstance :=
  let pathSet : gset string := list_to_set (path <$> fast) in
  filter (λ inst, path inst ∉ pathSet) instances.

Definition gameTreeBatch (instances : list GameInstance) (now : Z)
    (st : ServerState) : ServerState :=
  let newInstances := batchNewInstances (fastInstances st) instances in
  let changed := bool_decide (0 < length newInstances)%nat in
  let fast' := if changed then fastInstances st ++ newInstances
               else fastInstances st in
  let map' := if changed then setAll (instancesMap st) newInstances
              else instancesMap st in
  let cached' := if changed then fast' else cachedResponse st in
  let conn' :=
    mkConnectionStatus true (connectedAt (fastConnection st)) (Some now)
      (gameName (fastConnection st)) (placeId (fastConnection st)) in
  mkServerState fast' map' conn' now cached' conn'
    (storageCalls st ++ [AddInstancesBatch instances]).

(** *** POST /api/incremental-update ([applyDelta]) *)

Definition Store : Type := list GameInstance * gmap string GameInstance.

(** Lines 182-187: the added nodes are pushed onto the array and set in the
    map. *)
Definition applyAdded (added : list GameInstance) (s : Store) : Store :=
  if bool_decide (0 < length added)%nat
  then (s.1 ++ added, setAll s.2 added)
  else s.

(** Lines 191-202, the body of the loop over [modified]. *)
Definition applyModifiedOne (s : Store) (modifiedInstance : GameInstance)
    : Store :=
  if bool_decide (is_Some (s.2 !! path modifiedInstance)) then
    let fast' :=
      match list_find (λ inst, path inst = path modifiedInstance) s.1 with
      | Some (index, _) => <[index := modifiedInstance]> s.1
      | None => s.1
      end in
    (fast', <[path modifiedInstance := modifiedInstance]> s.2)
  else
    (s.1 ++ [modifiedInstance],
     <[path modifiedInstance := modifiedInstance]> s.2).

Definition applyModified (modified : list GameInstance) (s : Store) : Store :=
  foldl applyModifiedOne s modified.

(** Lines 205-215: the array is filtered; the callback deletes the path of
    every element it drops from the map. *)
Definition applyRemoved (removed : list string) (s : Store) : Store :=
  if bool_decide (0 < length removed)%nat then
    let removedSet : gset string := list_to_set removed in
    (filter (λ inst, path inst ∉ removedSet) s.1,
     foldl (λ m inst, if decide (path inst ∈ removedSet)
                      then delete (path inst) m else m) s.2 s.1)
  else s.

Definition applyDelta (added modified : list GameInstance)
    (removed : list string) (s : Store) : Store :=
  applyRemoved removed (applyModified modified (applyAdded added s)).

Definition backgroundDelta (added modified : list GameInstance)
    (removed : list string) : list StorageCall :=
  (if bool_decide (0 < length added)%nat then [AddInstancesBatch added] else [])
  ++ (if bool_decide (0 < length modified)%nat
      then [AddInstancesBatch modified] else [])
  ++ (RemoveInstance <$> removed).

(** [cachedConnectionResponse] is stringified before [fastConnection] is
    refreshed (lines 218-223). *)
Definition incrementalUpdate (added modified : list GameInstance)
    (removed : list string) (now : Z) (st : ServerState) : ServerState :=
  let s := applyDelta added modified removed (fastInstances st, instancesMap st) in
  let conn' :=
    mkConnectionStatus true (connectedAt (fastConnection st)) (Some now)
      (gameName (fastConnection st)) (placeId (fastConnection st)) in
  mkServerState s.1 s.2 conn' now s.1 (fastConnection st)
    (storageCalls st ++ backgroundDelta added modified removed).

(** A body in which one of the three lists is missing (or [null]): the
    handler does not validate the body, [x.length] throws at the first
    missing list, the [catch] answers 500, and what was assigned until then
    stays.  [added] is read first, then [modified], then [removed]; with
    both [added] and [modified] given, the missing list is [removed].
    Neither the cached responses nor the connection record nor
    [lastDataUpdate] is reached, and no storage call is scheduled. *)
Definition incrementalUpdateThrown (added modified : option (list GameInstance))
    (st : ServerState) : ServerState :=
  match added with
  | None => st
  | Some added =>
      let s := applyAdded added (fastInstances st, instancesMap st) in
      let s := match modified with
               | Some modified => applyModified modified s
               | None => s
               end in
      mkServerState s.1 s.2 (fastConnection st) (lastDataUpdate st)
        (cachedResponse st) (cachedConnectionResponse st) (storageCalls st)
  end.

(** [POST /api/game-tree] with a body that has no [instances]: the
    connection status is stored and the table cleared before
    [addInstancesBatch] throws on [instances.length]. *)
Definition gameTreeThrown (now : Z) (st : ServerState) : ServerState :=
  let connectionStatus := mkConnectionStatus true (Some now) (Some now) None None in
  mkServerState (fastInstances st) (instancesMap st) (fastConnection st)
    (lastDataUpdate st) (cachedResponse st) (cachedConnectionResponse st)
    (storageCalls st ++
       [SetConnectionStatus connectionStatus; ClearAllInstances]).

(** *** POST /api/ping (heartbeat) *)

Definition ping (now : Z) (st : ServerState) : ServerState :=
  let conn' :=
    mkConnectionStatus true (connectedAt (fastConnection st)) (Some now)
      (gameName (fastConnection st)) (placeId (fastConnection st)) in
  mkServerState (fastInstances st) (instancesMap st) conn'
    (lastDataUpdate st) (cachedResponse st) (cachedConnectionResponse st)
    (storageCalls st ++ [SetConnectionStatus conn']).

(** *** POST /api/disconnect *)

Definition disconnect (st : ServerState) : ServerState :=
  mkServerState (fastInstances st) (instancesMap st) (fastConnection st)
    (lastDataUpdate st) (cachedResponse st) (cachedConnectionResponse st)
    (storageCalls st ++ [ClearAllInstances; SetConnectionStatus disconnectedStatus]).

(** *** The timeout checker (lines 324-350) *)

Definition timeoutMs : Z := 30000.

Definition timeoutChecker (now : Z) (st : ServerState) : ServerState :=
  match lastPing (fastConnection st) with
  | Some last =>
      if bool_decide (now - last > timeoutMs) && isConnected (fastConnection st)
      then
        let conn' :=
          mkConnectionStatus false None None
            (gameName (fastConnection st)) (placeId (fastConnection st)) in
        mkServerState [] ∅ conn' (lastDataUpdate st) [] conn'
          (storageCalls st ++ [ClearAllInstances; SetConnectionStatus conn'])
      else st
  | None => st
  end.

(** *** Reachable states *)

(** The requests and the timer tick.  The first group carries complete
    bodies.  The second group is the bodies the handlers do not reject
    although a list is missing: [PostGameTreeWithoutInstances], and
    [PostIncrementalUpdateWithout added modified] for an incremental
    update that lacks a list ([removed] when both arguments are given).  A
    batch without [instances] throws before anything is assigned and
    leaves every state as it is. *)
Inductive Event :=
  | PostClearInstances
  | PostGameTree (instances : list GameInstance)
  | PostGameTreeBatch (instances : list GameInstance)
      (batchIndex totalBatches : Z) (isLastBatch : bool)
  | PostIncrementalUpdate (added modified : list GameInstance)
      (removed : list string)
  | PostPing
  | PostDisconnect
  | TimeoutTick
  | PostGameTreeWithoutInstances
  | PostIncrementalUpdateWithout (added modified : option (list GameInstance)).

(** Requests are handled one at a time; [now] is the clock reading. *)
Definition handle (now : Z) (e : Event) (st : ServerState) : ServerState :=
  match e with
  | PostClearInstances => clearInstances st
  | PostGameTree instances => gameTree instances now st
  | PostGameTreeBatch instances _ _ _ => gameTreeBatch instances now st
  | PostIncrementalUpdate added modified removed =>
      incrementalUpdate added modified removed now st
  | PostPing => ping now st
  | PostDisconnect => disconnect st
  | TimeoutTick => timeoutChecker now st
  | PostGameTreeWithoutInstances => gameTreeThrown now st
  | PostIncrementalUpdateWithout added modified =>
      incrementalUpdateThrown added modified st
  end.

(** A run of the server: the events in the order they are handled, each
    with the clock reading when it is handled. *)
Definition run (events : list (Z * Event)) (st : ServerState) : ServerState :=
  foldl (λ st timed, handle timed.1 timed.2 st) st events.

(** An event whose body carries every list the handler reads. *)
Definition completeBody (e : Event) : Prop :=
  match e with
  | PostIncrementalUpdateWithout _ _ | PostGameTreeWithoutInstances => False
  | _ => True
  end.

(** The events that refresh [fastConnection.lastPing]. *)
Definition refreshesLastPing (e : Event) : bool :=
  match e with
  | PostGameTreeBatch _ _ _ _ | PostIncrementalUpdate _ _ _ | PostPing => true
  | _ => false
  end.

(** [spared last events]: every timer tick of the run comes at most
    [timeoutMs] after the contact before it, where [last] is the time of
    the latest contact before the run, if there was one. *)
Fixpoint spared (last : option Z) (events : list (Z * Event)) : Prop :=
  match events with
  | [] => True
  | (now, TimeoutTick) :: rest =>
      match last with
      | Some t => now - t ≤ timeoutMs
      | None => True
      end
      ∧ spared last rest
  | (now, e) :: rest =>
      spared (if refreshesLastPing e then Some now else last) rest
  end.

Definition isTick (e : Event) : bool :=
  match e with TimeoutTick => true | _ => false end.

Inductive reachable : ServerState → Prop :=
  | reachable_initial : reachable initial
  | reachable_handle st now e :
      reachable st → reachable (handle now e st).

(** The node stored for a path in the served array: the first element that
    carries the path. *)
Definition nodeAt (p : string) (l : list GameInstance) : option GameInstance :=
  snd <$> list_find (λ inst, path inst = p) l.

(** The two stores name the same paths. *)
Definition consistent (fast : list GameInstance)
    (m : gmap string GameInstance) : Prop :=
  ∀ p, is_Some (m !! p) ↔ ∃ inst, inst ∈ fast ∧ path inst = p.

(** A collection keyed by path: one node per path, and the lookup map
    holding exactly the served node of each path. *)
Definition keyedByPath (fast : list GameInstance)
    (m : gmap string GameInstance) : Prop :=
  NoDup (path <$> fast) ∧ ∀ p, m !! p = nodeAt p fast.

(** A sequence of batches, each with the clock reading at its arrival. *)
Definition applyBatches (batches : list (list GameInstance * Z))
    (st : ServerState) : ServerState :=
  foldl (λ acc b, gameTreeBatch b.1 b.2 acc) st batches.

(** The entry a last-writer-wins store would keep for a path: the last one
    in arrival order. *)
Definition lastEntry (p : string) (entries : list GameInstance)
    : option GameInstance :=
  nodeAt p (reverse entries).

End Server.

(** ** The producer (the Lua HTTP clients) *)

Module Producer.

(** The table [createInstanceData] builds.  [parent] is the parent's name,
    or the text 'nil'.  [properties] lists the entries in the order [pairs]
    enumerates them. *)
Record InstanceData := mkInstanceData {
  id : string;
  name : string;
  className : string;
  path : string;
  parent : string;
  properties : list (string * PropValue);
  children : list string
}.

#[global] Instance InstanceData_eq_dec : EqDecision InstanceData.
Proof. solve_decision. Defined.

Definition tostring (v : PropValue) : string :=
  match v with
  | PBool true => "true"
  | PBool false => "false"
  | PNum shown => shown
  | PStr s => s
  end.

(** [createHash] of the simple client: the concatenated fields. *)
Definition createHash (inst : InstanceData) : string :=
  foldl (λ h kv, h +:+ "|" +:+ kv.1 +:+ ":" +:+ tostring kv.2)
    (name inst +:+ "|" +:+ className inst +:+ "|" +:+ parent inst)
    (properties inst).

(** The first loop of [detectChanges]: later entries of the snapshot
    overwrite earlier ones with the same path. *)
Definition currByPath (current : list InstanceData) : gmap string InstanceData :=
  foldl (λ t inst, <[path inst := inst]> t) ∅ current.

Definition currHashes (current : list InstanceData) : gmap string string :=
  foldl (λ t inst, <[path inst := createHash inst]> t) ∅ current.

Record Changes := mkChanges {
  added : list InstanceData;
  modified : list InstanceData;
  removed : list string
}.

(** The body of the loop over [pairs(currByPath)]. *)
Definition classify (previousInstances hashes : gmap string string)
    (acc : list InstanceData * list InstanceData)
    (entry : string * InstanceData) : list InstanceData * list InstanceData :=
  match previousInstances !! entry.1 with
  | None => (acc.1 ++ [entry.2], acc.2)
  | Some prevHash =>
      if decide (hashes !! entry.1 ≠ Some prevHash)
      then (acc.1, acc.2 ++ [entry.2])
      else acc
  end.

(** The body of the loop over [pairs(previousInstances)]. *)
Definition classifyRemoved {V} (byPath : gmap string InstanceData)
    (acc : list string) (entry : string * V) : list string :=
  match byPath !! entry.1 with
  | None => acc ++ [entry.1]
  | Some _ => acc
  end.

(** [pairs] enumerates a table in an unspecified order; [map_to_list] fixes
    one.  The properties below do not depend on the order. *)
Definition detectChanges (previousInstances : gmap string string)
    (current : list InstanceData) : Changes :=
  let byPath := currByPath current in
  let hashes := currHashes current in
  let am := foldl (classify previousInstances hashes) ([], [])
              (map_to_list byPath) in
  mkChanges am.1 am.2
    (foldl (classifyRemoved byPath) [] (map_to_list previousInstances)).

(** The two tests of [classify], as predicates on an entry. *)
Definition isAdded (prev : gmap string string)
    (entry : string * InstanceData) : bool :=
  bool_decide (prev !! entry.1 = None).

Definition isModified (prev hashes : gmap string string)
    (entry : string * InstanceData) : bool :=
  match prev !! entry.1 with
  | None => false
  | Some prevHash => bool_decide (hashes !! entry.1 ≠ Some prevHash)
  end.

(** [math.ceil(n / B)] for a positive [B]. *)
Definition ceilDiv (n B : Z) : Z := - ((- n) / B).

(** [t[i]] for a Lua array: indices start at 1. *)
Definition luaIndex {A} (t : list A) (i : Z) : option A :=
  if decide (1 ≤ i) then t !! Z.to_nat (i - 1) else None.

(** The elements [t[startIdx], ..., t[endIdx]] collected in order, as the
    inner loop of the batch dispatcher (and [table.unpack]) does. *)
Definition luaSlice {A} (t : list A) (startIdx endIdx : Z) : list A :=
  omap (luaIndex t) (seqZ startIdx (endIdx - startIdx + 1)).

Inductive Request :=
  | Ping
  | GameTreeBatch (instances : list InstanceData)
      (batchIndex totalBatches : Z) (isLastBatch : bool)
  | IncrementalUpdate (added modified : list InstanceData)
      (removed : list string).

(** [sendBatch] / [sendGameTreeBatch]: the envelope of one batch. *)
Definition sendBatch (instances : list InstanceData)
    (batchIndex totalBatches : Z) : Request :=
  GameTreeBatch instances batchIndex totalBatches
    (bool_decide (batchIndex = totalBatches - 1)).

(** The initial-sync loop, for a positive [BATCH_SIZE]. *)
Definition initialSyncBatches (BATCH_SIZE : Z) (current : list InstanceData)
    : list Request :=
  let n := Z.of_nat (length current) in
  let totalBatches := ceilDiv n BATCH_SIZE in
  (λ i,
     let startIdx := i * BATCH_SIZE + 1 in
     let endIdx := Z.min ((i + 1) * BATCH_SIZE) n in
     sendBatch (luaSlice current startIdx endIdx) i totalBatches)
  <$> seqZ 0 totalBatches.

(** The fields of a batch request, as the receiver reads them. *)
Definition batchInstances (r : Request) : list InstanceData :=
  match r with GameTreeBatch instances _ _ _ => instances | _ => [] end.

Definition batchIndexOf (r : Request) : option Z :=
  match r with GameTreeBatch _ batchIndex _ _ => Some batchIndex | _ => None end.

Definition totalBatchesOf (r : Request) : option Z :=
  match r with GameTreeBatch _ _ totalBatches _ => Some totalBatches | _ => None end.

Definition isLastBatchOf (r : Request) : option bool :=
  match r with GameTreeBatch _ _ _ isLastBatch => Some isLastBatch | _ => None end.

Definition BATCH_SIZE : Z := 1000.

Record ClientState := mkClientState {
  isSending : bool;
  isFirstSync : bool;
  previousInstances : gmap string string
}.

Definition startState : ClientState := mkClientState false true ∅.

(** [sendUpdates].  [collected] is what [collectCurrentGameData] returns,
    or [None] when it raises: the [pcall] then abandons the cycle.  A failed
    request does not raise ([sendHttpRequest] catches it).  The result is
    the next state and the requests sent, in order. *)
Definition sendUpdates (collected : option (list InstanceData))
    (st : ClientState) : ClientState * list Request :=
  if isSending st then (st, [])
  else
    match collected with
    | None => (mkClientState false (isFirstSync st) (previousInstances st), [])
    | Some current =>
        let requests :=
          if isFirstSync st then
            Ping :: initialSyncBatches BATCH_SIZE current
          else
            let changes := detectChanges (previousInstances st) current in
            if bool_decide
                 (0 < length (added changes) + length (modified changes)
                      + length (removed changes))%nat
            then [IncrementalUpdate (added changes) (modified changes)
                    (removed changes)]
            else [] in
        (mkClientState false false (currHashes current), requests)
    end.

(** Successive ticks of the update loop: each tick runs [sendUpdates] on
    what the collector returned; the result is the final state and, per
    tick, the requests sent. *)
Definition runCycles (cycles : list (option (list InstanceData)))
    (st : ClientState) : ClientState * list (list Request) :=
  foldl (λ acc collected,
           let r := sendUpdates collected acc.1 in (r.1, acc.2 ++ [r.2]))
    (st, []) cycles.

(** A request list of an incremental cycle: nothing, or one update. *)
Definition incrementalOnly (requests : list Request) : Prop :=
  requests = []
  ∨ ∃ a m r, requests = [IncrementalUpdate a m r].

(** Two observations of a node that differ at most in [id] and
    [children]. *)
Definition sameContent (a b : InstanceData) : Prop :=
  name a = name b ∧ className a = className b ∧ path a = path b
  ∧ parent a = parent b ∧ properties a = properties b.

End Producer.

(** ** The incremental client (roblox-incremental-http-client.lua)

    It keeps the previous nodes themselves and compares numeric hashes;
    its batch loop is [Producer.initialSyncBatches] with a batch size of
    2000. *)

Module Incremental.
Import Producer.

Definition BATCH_SIZE : Z := 2000.

(** The text [createHash] digests: administrative properties are left
    out. *)
Definition hashString (instanceData : InstanceData) : string :=
  foldl (λ h kv,
           if bool_decide (kv.1 ≠ "Name" ∧ kv.1 ≠ "ClassName" ∧ kv.1 ≠ "Parent")
           then h +:+ "|" +:+ kv.1 +:+ ":" +:+ tostring kv.2
           else h)
    (name instanceData +:+ "|" +:+ className instanceData +:+ "|"
     +:+ parent instanceData)
    (properties instanceData).

Definition createHash (instanceData : InstanceData) : Z :=
  foldl (λ hash c, (hash * 31 + Z.of_nat (nat_of_ascii c)) `mod` 2147483647)
    0 (list_ascii_of_string (hashString instanceData)).

(** The same digest over the characters of a text. *)
Definition hashChars (chars : list ascii) : Z :=
  foldl (λ hash c, (hash * 31 + Z.of_nat (nat_of_ascii c)) `mod` 2147483647)
    0 chars.

(** [instancesAreEqual] on two present nodes. *)
Definition instancesAreEqual (inst1 inst2 : InstanceData) : bool :=
  bool_decide (createHash inst1 = createHash inst2).

Definition currentByPath (currentInstances : list InstanceData)
    : gmap string InstanceData :=
  foldl (λ t inst, <[path inst := inst]> t) ∅ currentInstances.

Definition classify (previousInstances : gmap string InstanceData)
    (acc : list InstanceData * list InstanceData)
    (entry : string * InstanceData) : list InstanceData * list InstanceData :=
  match previousInstances !! entry.1 with
  | None => (acc.1 ++ [entry.2], acc.2)
  | Some previousInst =>
      if negb (instancesAreEqual entry.2 previousInst)
      then (acc.1, acc.2 ++ [entry.2])
      else acc
  end.

Definition detectChanges (previousInstances : gmap string InstanceData)
    (currentInstances : list InstanceData) : Changes :=
  let byPath := currentByPath currentInstances in
  let am := foldl (classify previousInstances) ([], []) (map_to_list byPath) in
  mkChanges am.1 am.2
    (foldl (classifyRemoved byPath) [] (map_to_list previousInstances)).

(** The two tests of [classify], as predicates on an entry. *)
Definition isAdded (prev : gmap string InstanceData)
    (entry : string * InstanceData) : bool :=
  bool_decide (prev !! entry.1 = None).

Definition isModified (prev : gmap string InstanceData)
    (entry : string * InstanceData) : bool :=
  match prev !! entry.1 with
  | None => false
  | Some previousInst => negb (instancesAreEqual entry.2 previousInst)
  end.

End Incremental.

(** ** The tree reconciler (the [treeData] memo of the TreeView component) *)

Module TreeView.

(** [path.split('.')]: never empty; the empty string splits into one empty
    segment. *)
Fixpoint split (s : string) : list string :=
  match s with
  | EmptyString => [EmptyString]
  | String c rest =>
      if decide (c = "."%char) then EmptyString :: split rest
      else match split rest with
           | seg :: segs => String c seg :: segs
           | [] => [String c EmptyString]
           end
  end.

(** [segments.join('.')] *)
Definition join (segments : list string) : string := String.concat "." segments.

(** A string or [null] used as a condition: [null] and the empty string
    are false. *)
Definition truthy (s : option string) : bool :=
  match s with
  | Some s => bool_decide (s ≠ EmptyString)
  | None => false
  end.

(** The [TreeNode] interface.  [children] holds references to node
    objects; every node object lives in [nodeMap] under its own path, so a
    reference is kept as that path. *)
Record TreeNode := mkTreeNode {
  id : string;
  name : string;
  className : string;
  path : string;
  parent : option string;
  properties : list (string * PropValue);
  children : list string;
  depth : Z;
  hasChildren : bool;
  isVisible : bool
}.

#[global] Instance TreeNode_eq_dec : EqDecision TreeNode.
Proof. solve_decision. Defined.

Definition NodeMap : Type := list (string * TreeNode).

(** [pathSegments.length > 1 ? pathSegments.slice(0, -1).join('.') : null] *)
Definition parentPathOf (pathSegments : list string) : option string :=
  if decide (1 < length pathSegments)%nat
  then Some (join (take (length pathSegments - 1) pathSegments))
  else None.

(** The body of [instances.forEach] (lines 117-134). *)
Definition addInstanceNode (acc : NodeMap * gmap string string)
    (instance : GameInstance) : NodeMap * gmap string string :=
  let pathSegments := split (Schema.path instance) in
  let parentPath := parentPathOf pathSegments in
  let pathToParentMap :=
    match parentPath with
    | Some pp => if truthy parentPath
                 then <[Schema.path instance := pp]> acc.2 else acc.2
    | None => acc.2
    end in
  (JsMap.set acc.1 (Schema.path instance)
     (mkTreeNode (Schema.id instance) (Schema.name instance)
        (Schema.className instance) (Schema.path instance) parentPath
        (Schema.properties instance) []
        (Z.of_nat (length pathSegments) - 1) false true),
   pathToParentMap).

Definition gameRoot : TreeNode :=
  mkTreeNode "game_root" "game" "DataModel" "game" None [] [] 0 true true.

(** Lines 141-159. *)
Definition ensureGame (acc : NodeMap * gmap string string)
    : NodeMap * gmap string string :=
  if JsMap.has acc.1 "game" then acc
  else (JsMap.set acc.1 "game" gameRoot, delete "game" acc.2).

Definition essentialServices : list string :=
  ["Workspace"; "Players"; "Lighting"; "ReplicatedStorage"; "ServerStorage";
   "StarterGui"; "StarterPlayer"; "StarterPack"].

(** The body of [essentialServices.forEach] (lines 163-182). *)
Definition ensureService (instances : list GameInstance)
    (acc : NodeMap * gmap string string) (serviceName : string)
    : NodeMap * gmap string string :=
  let servicePath := "game." +:+ serviceName in
  let hasChildrenForService :=
    existsb (λ inst, String.prefix (servicePath +:+ ".") (Schema.path inst)
                     || bool_decide (Schema.path inst = servicePath))
      instances in
  if hasChildrenForService && negb (JsMap.has acc.1 servicePath) then
    (JsMap.set acc.1 servicePath
       (mkTreeNode ("service_" +:+ serviceName) serviceName serviceName
          servicePath (Some "game") [] [] 1 false true),
     <[servicePath := "game"]> acc.2)
  else acc.

(** [parentNode.children.push(node); parentNode.hasChildren = true] on the
    node object, and on the object stored under [parentKey]. *)
Definition addChild (childKey : string) (n : TreeNode) : TreeNode :=
  mkTreeNode (id n) (name n) (className n) (path n) (parent n)
    (properties n) (children n ++ [childKey]) (depth n) true (isVisible n).

Definition pushChild (nodeMap : NodeMap) (parentKey childKey : string)
    : NodeMap :=
  JsMap.update nodeMap parentKey (addChild childKey).

Record Placement := mkPlacement {
  nodeMap : NodeMap;
  rootNodes : list string;
  orphanNodes : list string
}.

(** The body of the first pass (lines 186-205) for the entry stored under
    [key]. *)
Definition placeFirst (pathToParentMap : gmap string string)
    (st : Placement) (key : string) : Placement :=
  let parentPath := pathToParentMap !! key in
  if truthy parentPath then
    let pp := default EmptyString parentPath in
    match JsMap.get (nodeMap st) pp with
    | Some _ =>
        mkPlacement (pushChild (nodeMap st) pp key) (rootNodes st)
          (orphanNodes st)
    | None =>
        mkPlacement (nodeMap st) (rootNodes st) (orphanNodes st ++ [key])
    end
  else if decide (key = "game") then
    mkPlacement (nodeMap st) (rootNodes st ++ [key]) (orphanNodes st)
  else
    mkPlacement (nodeMap st) (rootNodes st) (orphanNodes st ++ [key]).

(** The search [for (let i = pathSegments.length - 2; i >= 0; i--)] for the
    closest existing ancestor; [findAncestor m segs n] tries
    [i = n - 1, ..., 0]. *)
Fixpoint findAncestor (m : NodeMap) (pathSegments : list string) (n : nat)
    : option nat :=
  match n with
  | O => None
  | S i =>
      if JsMap.has m (join (take (S i) pathSegments)) then Some i
      else findAncestor m pathSegments i
  end.

Definition placeholderClass (nodeName : string) : string :=
  if decide (nodeName = "Workspace") then "Workspace"
  else if decide (nodeName = "Players") then "Players"
  else if decide (nodeName = "Lighting") then "Lighting"
  else if decide (nodeName = "ReplicatedStorage") then "ReplicatedStorage"
  else if decide (nodeName = "ServerStorage") then "ServerStorage"
  else if decide (nodeName = "StarterGui") then "StarterGui"
  else if decide (nodeName = "StarterPlayer") then "StarterPlayer"
  else if decide (nodeName = "StarterPack") then "StarterPack"
  else "Folder".

(** The body of the inner loop (lines 221-259); [acc.2] is the path of
    [currentParent]. *)
Definition addIntermediate (pathSegments : list string)
    (acc : NodeMap * string) (j : nat) : NodeMap * string :=
  let intermediatePath := join (take (S j) pathSegments) in
  match JsMap.get acc.1 intermediatePath with
  | Some _ => (acc.1, intermediatePath)
  | None =>
      let nodeName := nth j pathSegments EmptyString in
      let intermediateNode :=
        mkTreeNode ("placeholder_" +:+ intermediatePath) nodeName
          (placeholderClass nodeName) intermediatePath (Some acc.2) [] []
          (Z.of_nat j) false true in
      (pushChild (JsMap.set acc.1 intermediatePath intermediateNode)
         acc.2 intermediatePath,
       intermediatePath)
  end.

(** The body of [orphanNodes.forEach] (lines 208-273). *)
Definition placeOrphan (st : NodeMap * list string) (orphan : string)
    : NodeMap * list string :=
  let pathSegments := split orphan in
  match findAncestor st.1 pathSegments (length pathSegments - 1) with
  | Some i =>
      let ancestorPath := join (take (S i) pathSegments) in
      let r := foldl (addIntermediate pathSegments) (st.1, ancestorPath)
                 (seq (S i) (length pathSegments - 1 - S i)) in
      (pushChild r.1 r.2 orphan, st.2)
  | None => (st.1, st.2 ++ [orphan])
  end.

(** The node map and the parent table before the first pass. *)
Definition prepare (instances : list GameInstance)
    : NodeMap * gmap string string :=
  foldl (ensureService instances)
    (ensureGame (foldl addInstanceNode ([], ∅) instances))
    essentialServices.

(** The first pass runs over the entries the map has when it starts. *)
Definition firstPass (instances : list GameInstance) : Placement :=
  let prepared := prepare instances in
  foldl (placeFirst prepared.2) (mkPlacement prepared.1 [] [])
    (JsMap.keys prepared.1).

(** The node objects and the top-level array when both passes are done. *)
Definition reconcile (instances : list GameInstance) : NodeMap * list string :=
  let first := firstPass instances in
  foldl placeOrphan (nodeMap first, rootNodes first) (orphanNodes first).

(** The path one segment up: where an attached node hangs. *)
Definition parentKey (key : string) : string :=
  join (take (length (split key) - 1) (split key)).

(** [attached m parent child]: the node stored under [parent] lists
    [child] among its children. *)
Definition attached (m : NodeMap) (parent child : string) : Prop :=
  ∃ n, JsMap.get m parent = Some n ∧ child ∈ children n.

(** *** Notions used to state the reconciler's properties *)

(** A segment holds no dot. *)
Fixpoint dotfree (s : string) : Prop :=
  match s with
  | EmptyString => True
  | String c rest => c ≠ "."%char ∧ dotfree rest
  end.

(** What a later node object shares with an earlier state of itself: the
    passes only ever append to [children] and raise [hasChildren]. *)
Definition sameNode (n n' : TreeNode) : Prop :=
  id n = id n' ∧ name n = name n' ∧ className n = className n'
  ∧ path n = path n' ∧ parent n = parent n'
  ∧ properties n = properties n' ∧ depth n = depth n'
  ∧ children n `prefix_of` children n'.

Definition extends (m m' : NodeMap) : Prop :=
  ∀ k n, JsMap.get m k = Some n →
         ∃ n', JsMap.get m' k = Some n' ∧ sameNode n n'.

(** The placeholder the inner loop creates for segment [j] of [segs], and
    the map after it is stored and pushed onto its parent. *)
Definition placeholderNode (segs : list string) (j : nat) (pk : string)
    : TreeNode :=
  mkTreeNode ("placeholder_" +:+ join (take (S j) segs))
    (nth j segs EmptyString) (placeholderClass (nth j segs EmptyString))
    (join (take (S j) segs)) (Some pk) [] [] (Z.of_nat j) false true.

Definition addPlaceholder (m : NodeMap) (segs : list string) (j : nat)
    (pk : string) : NodeMap :=
  pushChild (JsMap.set m (join (take (S j) segs)) (placeholderNode segs j pk))
    pk (join (take (S j) segs)).

(** What the first loop records as the parent of a path. *)
Definition computedParent (p : string) : option string :=
  if truthy (parentPathOf (split p)) then parentPathOf (split p) else None.

Definition servicePaths : list string :=
  (λ s, "game." +:+ s) <$> essentialServices.

(** [target] is either absent or a placeholder named [nm] hanging under
    [parentTarget]. *)
Definition placeholderAt (m : NodeMap) (target parentTarget nm : string)
    : Prop :=
  ∀ n, JsMap.get m target = Some n →
       id n = "placeholder_" +:+ target ∧ name n = nm
       ∧ className n = placeholderClass nm ∧ properties n = []
       ∧ attached m parentTarget target.

(** With the root present, ["game.a"] and ["game.a.b"] are absent or
    placeholders chained under the root. *)
Definition chainInv (m : NodeMap) : Prop :=
  is_Some (JsMap.get m "game")
  ∧ placeholderAt m "game.a" "game" "a"
  ∧ placeholderAt m "game.a.b" "game.a" "b".

(** Without ["a"], neither ["a"] nor ["a.b"] ever enters the map. *)
Definition bareInv (m : NodeMap) : Prop :=
  JsMap.get m "a" = None ∧ JsMap.get m "a.b" = None.

(** Every node object is stored under its own path: this is what lets a
    reference to a node object be kept as a path. *)
Definition keyIsPath (m : NodeMap) : Prop :=
  ∀ k n, JsMap.get m k = Some n → path n = k.

(** The node objects the passes create: for an instance (lines 126-133),
    for a missing service (lines 168-179). *)
Definition instanceNode (instance : GameInstance) : TreeNode :=
  mkTreeNode (Schema.id instance) (Schema.name instance)
    (Schema.className instance) (Schema.path instance)
    (parentPathOf (split (Schema.path instance)))
    (Schema.properties instance) []
    (Z.of_nat (length (split (Schema.path instance))) - 1) false true.

Definition serviceNode (serviceName : string) : TreeNode :=
  mkTreeNode ("service_" +:+ serviceName) serviceName serviceName
    ("game." +:+ serviceName) (Some "game") [] [] 1 false true.

(** A property of the stored node objects, given with their keys. *)
Definition allNodes (P : string → TreeNode → Prop) (m : NodeMap) : Prop :=
  ∀ k n, JsMap.get m k = Some n → P k n.

(** Every entry of the parent table points one segment up. *)
Definition parentsAreOneUp (pathToParentMap : gmap string string) : Prop :=
  ∀ k pp, pathToParentMap !! k = Some pp →
          pp = parentKey k ∧ (2 ≤ length (split k))%nat.

(** Children hang only under the node at their parent path, and have a
    parent path to hang under. *)
Definition childrenAreOneDown (m : NodeMap) : Prop :=
  ∀ pk n ck, JsMap.get m pk = Some n → ck ∈ children n →
             pk = parentKey ck ∧ (2 ≤ length (split ck))%nat.

(** Against the map [m0] the second pass starts from: every node of [m]
    was in [m0] or hangs under its parent path. *)
Definition addedAreAttached (m0 m : NodeMap) : Prop :=
  ∀ k, is_Some (JsMap.get m k) →
       is_Some (JsMap.get m0 k) ∨ attached m (parentKey k) k.

(** A collection in which every node other than the root comes with its
    parent. *)
Definition parentClosed (instances : list GameInstance) : Prop :=
  ∀ inst, inst ∈ instances →
    Schema.path inst = "game"
    ∨ ∃ pp, computedParent (Schema.path inst) = Some pp
            ∧ (pp = "game" ∨ pp ∈ Schema.path <$> instances).

(** *** Sorting *)

(** The own properties of the [priorities] object literal (lines 279-289). *)
Definition priorities : list (string * Z) :=
  [("game", 0); ("Workspace", 1); ("Players", 2); ("Lighting", 3);
   ("ReplicatedStorage", 4); ("ServerStorage", 5); ("StarterGui", 6);
   ("StarterPlayer", 7); ("StarterPack", 8)].

(** The property names an object literal inherits from
    [Object.prototype] (ECMAScript, with its Annex B). *)
Definition objectPrototypeMembers : list string :=
  ["constructor"; "hasOwnProperty"; "isPrototypeOf"; "propertyIsEnumerable";
   "toLocaleString"; "toString"; "valueOf"; "__proto__";
   "__defineGetter__"; "__defineSetter__"; "__lookupGetter__";
   "__lookupSetter__"].

(** What [priorities[name] ?? 999] evaluates to.  The lookup on the object
    literal also finds what the literal inherits: for such a name the value
    is the inherited member (a function, or the prototype object for
    [__proto__]), which is neither [null] nor [undefined], so [??] keeps
    it. *)
Inductive Priority :=
  | PriorityNumber (p : Z)
  | InheritedMember (member : string).

#[global] Instance Priority_eq_dec : EqDecision Priority.
Proof. solve_decision. Defined.

Definition getServicePriority (name : string) : Priority :=
  match JsMap.get priorities name with
  | Some p => PriorityNumber p
  | None =>
      if decide (name ∈ objectPrototypeMembers) then InheritedMember name
      else PriorityNumber 999
  end.

(** A name [priorities] has no inherited member for. *)
Definition plainName (name : string) : Prop := name ∉ objectPrototypeMembers.

#[global] Instance plainName_dec name : Decision (plainName name).
Proof. unfold plainName. apply _. Defined.

(** The number [getServicePriority] returns for a plain name. *)
Definition priorityOf (name : string) : Z :=
  default 999 (JsMap.get priorities name).

(** The tree handed to the presentation layer: node objects with their
    child objects. *)
#[local] Unset Elimination Schemes.
Inductive Tree := TNode (node : TreeNode) (kids : list Tree).
#[local] Set Elimination Schemes.

Definition rootOf (t : Tree) : TreeNode := match t with TNode n _ => n end.
Definition kidsOf (t : Tree) : list Tree := match t with TNode _ k => k end.

(** Follows the references of [nodeMap] from [key]; children paths extend
    their parent's, so the walk ends, and [fuel] bounds it. *)
Fixpoint materialize (fuel : nat) (m : NodeMap) (key : string) : option Tree :=
  match fuel with
  | O => None
  | S fuel' =>
      match JsMap.get m key with
      | Some n => Some (TNode n (omap (materialize fuel' m) (children n)))
      | None => None
      end
  end.

Section Sorting.

(** [a.localeCompare(b, undefined, { numeric: true, sensitivity: 'base' })],
    supplied by the JavaScript runtime. *)
Variable localeCompare : string → string → Z.

(** The comparator of [sortTree] (lines 294-303).  [!==] on two inherited
    members compares the objects, which are the same for the same name
    only; a difference that involves an inherited member is [NaN], given
    as [None]. *)
Definition compareNodes (a b : TreeNode) : option Z :=
  let priorityA := getServicePriority (name a) in
  let priorityB := getServicePriority (name b) in
  if decide (priorityA ≠ priorityB) then
    match priorityA, priorityB with
    | PriorityNumber x, PriorityNumber y => Some (x - y)
    | _, _ => None
    end
  else Some (localeCompare (name a) (name b)).

(** [Array.prototype.sort] reads a comparator result of [NaN] as [+0]
    (ECMAScript, SortCompare). *)
Definition sortCompare (a b : TreeNode) : Z := default 0 (compareNodes a b).

(** [Array.prototype.sort] is stable; for a consistent comparator every
    stable sort yields the same array.  Modelled by insertion.  Where
    [compareNodes] is [NaN] the comparator is not consistent, and the
    standard leaves the order of the result to the implementation: on such
    arrays the model shows that the result is a permutation, and nothing
    about its order. *)
Fixpoint insertSorted (x : Tree) (l : list Tree) : list Tree :=
  match l with
  | [] => [x]
  | y :: rest =>
      if decide (sortCompare (rootOf x) (rootOf y) ≤ 0) then x :: y :: rest
      else y :: insertSorted x rest
  end.

Definition jsSort (l : list Tree) : list Tree := foldr insertSorted [] l.

(** [sortTree] sorts an array and then the children of each element; the
    comparator reads the nodes' names only, so sorting the children first
    gives the same arrays. *)
Fixpoint sortNode (t : Tree) : Tree :=
  match t with
  | TNode n kids => TNode n (jsSort (map sortNode kids))
  end.

Definition sortTree (nodes : list Tree) : list Tree :=
  jsSort (map sortNode nodes).

Definition treeData (instances : list GameInstance) : list Tree :=
  if decide (length instances = 0%nat) then []
  else
    let r := reconcile instances in
    sortTree (omap (materialize (S (length r.1)) r.1) r.2).

End Sorting.

(** A comparator of the kind [localeCompare] computes on ASCII names:
    letters compare without regard to case, other characters by code.  It
    stands in for the runtime's collation when examples are run. *)
Definition foldCase (c : ascii) : nat :=
  let n := nat_of_ascii c in
  if (65 <=? n)%nat && (n <=? 90)%nat then (n + 32)%nat else n.

Fixpoint asciiCompare (a b : string) : Z :=
  match a, b with
  | EmptyString, EmptyString => 0
  | EmptyString, String _ _ => -1
  | String _ _, EmptyString => 1
  | String c a', String d b' =>
      if (foldCase c <? foldCase d)%nat then -1
      else if (foldCase d <? foldCase c)%nat then 1
      else asciiCompare a' b'
  end.

(** [ordered a b]: the comparator lets [a] stand before [b]. *)
Definition ordered (localeCompare : string → string → Z) (a b : Tree) : Prop :=
  sortCompare localeCompare (rootOf a) (rootOf b) ≤ 0.

(** [everyNode P t]: [P] holds of every node of [t]. *)
Fixpoint everyNode (P : TreeNode → Prop) (t : Tree) : Prop :=
  match t with
  | TNode n kids => P n ∧ foldr (λ k acc, everyNode P k ∧ acc) True kids
  end.

(** The node's name is not one [priorities] inherits a member for. *)
Definition plainNode (n : TreeNode) : Prop := plainName (name n).

(** The instances whose names and path segments are all plain; the names
    of the nodes the reconciler makes up are path segments. *)
Definition plainInstances (instances : list GameInstance) : Prop :=
  Forall (λ inst, plainName (Schema.name inst)
                  ∧ Forall plainName (split (Schema.path inst))) instances.

#[global] Instance plainInstances_dec instances :
  Decision (plainInstances instances).
Proof. unfold plainInstances. apply _. Defined.

(** [allGroups P t]: the children array of every node of [t], at every
    depth, satisfies [P]. *)
Fixpoint allGroups (P : list Tree → Prop) (t : Tree) : Prop :=
  match t with
  | TNode _ kids => P kids ∧ foldr (λ k acc, allGroups P k ∧ acc) True kids
  end.

(** The sibling names under the node stored at [key], in display order. *)
Fixpoint findNode (fuel : nat) (key : string) (nodes : list Tree) : option Tree :=
  match fuel with
  | O => None
  | S fuel' =>
      match list_find (λ t, path (rootOf t) = key) nodes with
      | Some (_, t) => Some t
      | None => findNode fuel' key (concat (kidsOf <$> nodes))
      end
  end.

Definition childNames (key : string) (nodes : list Tree) : list string :=
  match findNode 32 key nodes with
  | Some t => (λ k, name (rootOf k)) <$> kidsOf t
  | None => []
  end.

(** The children references of all node objects, and the statement that
    every key of the map is referenced exactly once, by a node or from the
    list [elsewhere]. *)
Definition allChildren (m : NodeMap) : list string :=
  concat ((λ e, children e.2) <$> m).

Definition onePlaceEach (m : NodeMap) (elsewhere : list string) : Prop :=
  allChildren m ++ elsewhere ≡ₚ JsMap.keys m.

(** No top-level node has a node of the map at a leading part of its
    path. *)
Definition rootsAreTops (m : NodeMap) (roots : list string) : Prop :=
  ∀ r (c : nat), r ∈ roots → (1 ≤ c < length (split r))%nat →
                 JsMap.get m (join (take c (split r))) = None.

(** [above a x]: the segments of [a] are leading segments of [x]. *)
Definition above (a x : string) : Prop := split a `prefix_of` split x.

(** [allEdges R t]: every node of [t] is in relation [R] with each of its
    children. *)
Fixpoint allEdges (R : TreeNode → TreeNode → Prop) (t : Tree) : Prop :=
  match t with
  | TNode n kids =>
      foldr (λ k acc, (R n (rootOf k) ∧ allEdges R k) ∧ acc) True kids
  end.

(** A child's path is its parent's path and one more segment. *)
Definition oneSegmentDown (parentNode childNode : TreeNode) : Prop :=
  path parentNode = parentKey (path childNode)
  ∧ (2 ≤ length (split (path childNode)))%nat.

(** *** The search filter (lines 317-372) *)

(** [hay.includes(needle)] *)
Fixpoint includes (hay needle : string) : bool :=
  String.prefix needle hay
  || match hay with
     | EmptyString => false
     | String _ rest => includes rest needle
     end.

(** The ancestor paths the loop
    [for (let i = pathSegments.length - 2; i >= 0; i--)] adds, in the order
    it adds them. *)
Definition ancestorPathsOf (p : string) : list string :=
  let pathSegments := split p in
  (λ i, join (take (S i) pathSegments))
    <$> reverse (seq 0 (length pathSegments - 1)).

Definition setVisible (n : TreeNode) : TreeNode :=
  mkTreeNode (id n) (name n) (className n) (path n) (parent n)
    (properties n) (children n) (depth n) (hasChildren n) true.

(** [filterTree]: a node outside the visible set is left out with all
    below it; a kept node keeps its flags, [hasChildren] included. *)
Fixpoint filterNode (allVisiblePaths : gset string) (t : Tree) : option Tree :=
  match t with
  | TNode n kids =>
      if decide (path n ∈ allVisiblePaths)
      then Some (TNode (setVisible n) (omap (filterNode allVisiblePaths) kids))
      else None
  end.

Definition filterTree (allVisiblePaths : gset string) (nodes : list Tree)
    : list Tree :=
  omap (filterNode allVisiblePaths) nodes.

Section Search.

(** [s.toLowerCase()], supplied by the JavaScript runtime. *)
Variable toLowerCase : string → string.

Definition matchesSearch (searchLower : string) (instance : GameInstance)
    : bool :=
  includes (toLowerCase (Schema.name instance)) searchLower
  || includes (toLowerCase (Schema.className instance)) searchLower.

Definition matching (searchTerm : string) (instances : list GameInstance)
    : list GameInstance :=
  List.filter (matchesSearch (toLowerCase searchTerm)) instances.

Definition matchingPaths (searchTerm : string)
    (instances : list GameInstance) : gset string :=
  list_to_set (Schema.path <$> matching searchTerm instances).

Definition ancestorPaths (searchTerm : string)
    (instances : list GameInstance) : gset string :=
  list_to_set
    (concat ((λ i, ancestorPathsOf (Schema.path i))
               <$> matching searchTerm instances)).

Definition allVisiblePaths (searchTerm : string)
    (instances : list GameInstance) : gset string :=
  matchingPaths searchTerm instances ∪ ancestorPaths searchTerm instances.

(** [filteredNodes]; an empty search term is falsy and leaves the tree as
    it is. *)
Definition filteredNodes (searchTerm : string)
    (instances : list GameInstance) (treeData : list Tree) : list Tree :=
  if decide (searchTerm = EmptyString) then treeData
  else filterTree (allVisiblePaths searchTerm instances) treeData.

End Search.

(** The test of the row loop (lines 701-704): a row is left out when no
    instance has the node's path and that path does not start with
    [placeholder_]. *)
Definition rendered (instances : list GameInstance) (n : TreeNode) : bool :=
  let instance :=
    List.find (λ i, bool_decide (Schema.path i = path n)) instances in
  negb (negb (bool_decide (is_Some instance))
        && negb (String.prefix "placeholder_" (path n))).

(** The paths of the nodes of a tree, parents before children, in display
    order. *)
Fixpoint treePaths (t : Tree) : list string :=
  match t with
  | TNode n kids => path n :: concat (map treePaths kids)
  end.

Definition forestPaths (nodes : list Tree) : list string :=
  concat (map treePaths nodes).

(** The walk from [key] with [fuel] comes across the node of path [x]. *)
Definition shows (fuel : nat) (m : NodeMap) (key x : string) : Prop :=
  ∃ t, materialize fuel m key = Some t ∧ x ∈ treePaths t.

End TreeView.

(** ** Sample data used by the concrete checks *)

(** ** String escaping of the JSON encoder ([escapeString]) *)

Module Json.

(** [s:gsub(c, repl)] for a pattern that is one plain character: every
    occurrence of [c] is replaced, left to right. *)
Fixpoint gsubChar (c : ascii) (repl : string) (s : string) : string :=
  match s with
  | EmptyString => EmptyString
  | String d rest =>
      if decide (d = c) then repl +:+ gsubChar c repl rest
      else String d (gsubChar c repl rest)
  end.

Definition backslash : ascii := "092"%char.
Definition quote : ascii := "034"%char.
Definition newline : ascii := "010"%char.
Definition carriageReturn : ascii := "013"%char.
Definition tab : ascii := "009"%char.

(** The five passes, in the order the script runs them. *)
Definition escapeString (s : string) : string :=
  let s := gsubChar backslash (String backslash (String backslash "")) s in
  let s := gsubChar quote (String backslash (String quote "")) s in
  let s := gsubChar newline (String backslash "n") s in
  let s := gsubChar carriageReturn (String backslash "r") s in
  gsubChar tab (String backslash "t") s.

(** What the passes amount to for one character. *)
Definition escapeChar (c : ascii) : string :=
  if decide (c = backslash) then String backslash (String backslash "")
  else if decide (c = quote) then String backslash (String quote "")
  else if decide (c = newline) then String backslash "n"
  else if decide (c = carriageReturn) then String backslash "r"
  else if decide (c = tab) then String backslash "t"
  else String c "".

Fixpoint eachChar (f : ascii → string) (s : string) : string :=
  match s with
  | EmptyString => EmptyString
  | String c rest => f c +:+ eachChar f rest
  end.

(** Reading the escapes back, as a JSON parser does for these five. *)
Definition unescapeChar (c : ascii) : ascii :=
  if decide (c = "n"%char) then newline
  else if decide (c = "r"%char) then carriageReturn
  else if decide (c = "t"%char) then tab
  else c.

Fixpoint unescape (s : string) : string :=
  match s with
  | EmptyString => EmptyString
  | String c rest =>
      if decide (c = backslash) then
        match rest with
        | EmptyString => EmptyString
        | String e rest' => String (unescapeChar e) (unescape rest')
        end
      else String c (unescape rest)
  end.

End Json.

(** ** The collector of the simple client ([collectCurrentGameData]) *)

Module Collector.
Import Producer.

(** A Roblox instance as the script reads it: its name and class, the name
    of its parent ([instance.Parent and instance.Parent.Name]), the
    assignments the [IsA] cascade makes to [properties], and
    [GetChildren()]. *)
#[local] Unset Elimination Schemes.
Inductive Instance := mkInstance {
  Name : string;
  ClassName : string;
  ParentName : option string;
  typeProperties : list (string * PropValue);
  GetChildren : list Instance
}.
#[local] Set Elimination Schemes.

(** [everyName P i]: the name of [i] and of everything below it
    satisfies [P]. *)
Fixpoint everyName (P : string → Prop) (i : Instance) : Prop :=
  match i with
  | mkInstance nm _ _ _ kids =>
      P nm ∧ foldr (λ k acc, everyName P k ∧ acc) True kids
  end.

Section Collect.

(** The text ['inst_' .. math.random(1000, 9999) .. '_' ..
    math.floor(tick())] of the n-th call of [createInstanceData]. *)
Variable draw : nat → string.

(** [game:GetService(name)] under [pcall], and the assignments made to
    the properties of the root and of a service, by name. *)
Variable GetService : string → option Instance.
Variable rootProperties : list (string * PropValue).
Variable serviceProperties : string → Instance → list (string * PropValue).

(** [properties.key = value], one assignment after the other. *)
Definition assign (properties assignments : list (string * PropValue))
    : list (string * PropValue) :=
  foldl (λ acc kv, JsMap.set acc kv.1 kv.2) properties assignments.

Definition createInstanceData (instance : Instance)
    (parentPath : option string) (idText : string) : InstanceData :=
  let path :=
    match parentPath with
    | Some pp => pp +:+ "." +:+ Name instance
    | None => "game." +:+ Name instance
    end in
  mkInstanceData idText (Name instance) (ClassName instance) path
    (default "nil" (ParentName instance))
    (assign
       [("Name", PStr (Name instance));
        ("ClassName", PStr (ClassName instance))]
       (typeProperties instance))
    [].

(** [collectChildren]; the state is the array [out] and the number of
    [createInstanceData] calls made.  The occasional
    [RunService.Heartbeat:Wait()] does not touch either. *)
Fixpoint collectChildren (depth : nat) (parent : Instance)
    (parentPath : string) (st : list InstanceData * nat)
    : list InstanceData * nat :=
  if decide (15 < depth)%nat then st
  else
    match parent with
    | mkInstance _ _ _ _ children =>
        foldl
          (λ st child,
             let data := createInstanceData child (Some parentPath) (draw st.2) in
             collectChildren (S depth) child (path data)
               (st.1 ++ [data], S st.2))
          st children
    end.

Definition gameRootData : InstanceData :=
  mkInstanceData "game_root" "game" "DataModel" "game" "nil"
    (assign [("Name", PStr "game"); ("ClassName", PStr "DataModel")]
       rootProperties)
    [].

Definition services : list string :=
  ["Workspace"; "Players"; "ReplicatedStorage"; "ServerStorage";
   "Lighting"; "StarterGui"; "StarterPack"; "StarterPlayer"].

(** The body of the loop over [services]. *)
Definition collectService (st : list InstanceData * nat) (name : string)
    : list InstanceData * nat :=
  match GetService name with
  | Some service =>
      let sdata := createInstanceData service (Some "game") (draw st.2) in
      let sdata :=
        mkInstanceData (id sdata) (Producer.name sdata) (className sdata)
          (path sdata) (parent sdata)
          (assign (properties sdata) (serviceProperties name service))
          (children sdata) in
      collectChildren 0 service ("game." +:+ name)
        (st.1 ++ [sdata], S st.2)
  | None => st
  end.

Definition collectCurrentGameData : list InstanceData :=
  (foldl collectService ([gameRootData], 0%nat) services).1.

End Collect.

(** Every collected entry other than the root has the entry of its parent
    path in the array. *)
Definition withParents (out : list InstanceData) : Prop :=
  ∀ d, d ∈ out →
    path d = "game"
    ∨ ∃ pp, TreeView.computedParent (path d) = Some pp
            ∧ (pp = "game" ∨ pp ∈ path <$> out).

Definition atMostSegments (limit : nat) (out : list InstanceData) : Prop :=
  ∀ d, d ∈ out → (length (TreeView.split (path d)) ≤ limit)%nat.

(** The instance the server parses from the request body: [parent] is
    always a string, the text 'nil' included. *)
Definition toGameInstance (d : InstanceData) : GameInstance :=
  mkGameInstance (id d) (name d) (className d) (path d) (Some (parent d))
    (properties d) (children d).

End Collector.

(** ** The flattened rows of the TreeView (lines 374-428) *)

Module Rows.
Import TreeView.

(** The [FlatNode] interface. *)
Record FlatNode := mkFlatNode {
  node : Tree;
  index : nat;
  depth : nat;
  isExpanded : bool;
  hasChildren : bool
}.

(** [toggleExpanded] (lines 374-384), on the set of expanded paths. *)
Definition toggleExpanded (path : string) (prev : gset string) : gset string :=
  if decide (path ∈ prev) then prev ∖ {[path]} else prev ∪ {[path]}.

(** [collectPaths] of [expandAll] (lines 388-395), for one node. *)
Fixpoint collectPathsNode (t : Tree) (allPaths : gset string) : gset string :=
  match t with
  | TNode n kids =>
      let allPaths :=
        if TreeView.hasChildren n then allPaths ∪ {[TreeView.path n]}
        else allPaths in
      foldl (λ acc k, collectPathsNode k acc) allPaths kids
  end.

Definition collectPaths (nodes : list Tree) (allPaths : gset string)
    : gset string :=
  foldl (λ acc k, collectPathsNode k acc) allPaths nodes.

Definition expandAll (filteredNodes : list Tree) : gset string :=
  collectPaths filteredNodes ∅.

Definition collapseAll : gset string := {["game"; "game.Workspace"]}.

(** [flatten] (lines 409-425) for one node; the state is the [flattened]
    array and the counter [index]. *)
Fixpoint flattenNode (expandedNodes : gset string) (depth : nat) (t : Tree)
    (st : list FlatNode * nat) : list FlatNode * nat :=
  match t with
  | TNode n kids =>
      let isExpanded := bool_decide (TreeView.path n ∈ expandedNodes) in
      let st :=
        (st.1 ++ [mkFlatNode t st.2 depth isExpanded (TreeView.hasChildren n)],
         S st.2) in
      if TreeView.hasChildren n && isExpanded
      then foldl (λ acc k, flattenNode expandedNodes (S depth) k acc) st kids
      else st
  end.

Definition flatten (expandedNodes : gset string) (nodes : list Tree)
    (depth : nat) (st : list FlatNode * nat) : list FlatNode * nat :=
  foldl (λ acc k, flattenNode expandedNodes depth k acc) st nodes.

Definition flattenedNodes (expandedNodes : gset string)
    (filteredNodes : list Tree) : list FlatNode :=
  (flatten expandedNodes filteredNodes 0 ([], 0%nat)).1.

(** *** The window of rows that is drawn (lines 430-502) *)

Definition ITEM_HEIGHT : Z := 24.
Definition OVERSCAN : Z := 5.

(** [array.slice(start, end)] *)
Definition jsSlice {A} (l : list A) (start final : Z) : list A :=
  let len := Z.of_nat (length l) in
  let k := if decide (start < 0) then Z.max (len + start) 0
           else Z.min start len in
  let final := if decide (final < 0) then Z.max (len + final) 0
               else Z.min final len in
  take (Z.to_nat (final - k)) (drop (Z.to_nat k) l).

(** [Math.max(virtualState.scrollTop, 0)]: the browser reports [scrollTop]
    in pixels, possibly with a fraction. *)
Definition effectiveScrollTop (scrollTop : Q) : Q :=
  if Qlt_le_dec 0 scrollTop then scrollTop else 0%Q.

(** [Math.max(virtualState.containerHeight, 400)]; [clientHeight] is a
    whole number of pixels. *)
Definition effectiveHeight (containerHeight : Z) : Z :=
  Z.max containerHeight 400.

Definition startIndex (scrollTop : Q) : Z :=
  Z.max 0
    (Qfloor (effectiveScrollTop scrollTop / inject_Z ITEM_HEIGHT) - OVERSCAN).

Definition visibleCount (containerHeight : Z) : Z :=
  Producer.ceilDiv (effectiveHeight containerHeight) ITEM_HEIGHT
  + OVERSCAN * 2.

Definition endIndex (scrollTop : Q) (containerHeight : Z) (rows : nat) : Z :=
  Z.min (Z.of_nat rows - 1) (startIndex scrollTop + visibleCount containerHeight).

Definition visibleNodes {A} (flattenedNodes : list A) (scrollTop : Q)
    (containerHeight : Z) : list A :=
  jsSlice flattenedNodes (startIndex scrollTop)
    (endIndex scrollTop containerHeight (length flattenedNodes) + 1).

(** Row [i] occupies the pixels from [i * ITEM_HEIGHT] up to
    [(i + 1) * ITEM_HEIGHT]; it is in view when that range meets the
    viewport. *)
Definition inView (scrollTop : Q) (containerHeight : Z) (i : nat) : Prop :=
  (inject_Z (Z.of_nat i * ITEM_HEIGHT)
   < effectiveScrollTop scrollTop + inject_Z (effectiveHeight containerHeight))%Q
  ∧ (effectiveScrollTop scrollTop
     < inject_Z ((Z.of_nat i + 1) * ITEM_HEIGHT))%Q.

(** The paths of the nodes of [t] that have [hasChildren] set. *)
Fixpoint expandablePaths (t : Tree) : list string :=
  match t with
  | TNode n kids =>
      (if TreeView.hasChildren n then [TreeView.path n] else [])
      ++ concat (map expandablePaths kids)
  end.

(** The counter [index] is the length of [flattened]. *)
Definition numbered (st : list FlatNode * nat) : Prop :=
  index <$> st.1 = seq 0 st.2.

(** The path shown in a row. *)
Definition rowPath (row : FlatNode) : string := TreeView.path (rootOf (node row)).

(** [flagged t]: every node of [t] with a child has [hasChildren] set. *)
Fixpoint flagged (t : Tree) : Prop :=
  match t with
  | TNode n kids =>
      (kids ≠ [] → TreeView.hasChildren n = true)
      ∧ foldr (λ k acc, flagged k ∧ acc) True kids
  end.

End Rows.

Module Samples.

Definition partV1 : GameInstance :=
  mkGameInstance "inst_1001_1" "Part" "Part" "game.Workspace.Part"
    (Some "Workspace") [("Anchored", PBool true)] [].

(** Another observation of the same path, with different content. *)
Definition partV2 : GameInstance :=
  mkGameInstance "inst_1002_2" "Part" "Part" "game.Workspace.Part"
    (Some "Workspace") [("Anchored", PBool false)] [].

Definition partV3 : GameInstance :=
  mkGameInstance "inst_1003_3" "Part" "Part" "game.Workspace.Part"
    (Some "Workspace") [("Anchored", PBool false); ("Transparency", PNum "0.5")] [].

Definition partPath : string := "game.Workspace.Part".

Definition lampV1 : GameInstance :=
  mkGameInstance "inst_1004_4" "Lamp" "Part" "game.Workspace.Lamp"
    (Some "Workspace") [("Anchored", PBool true)] [].

(** A snapshot in which [Workspace] holds two folders, one of them named
    like a well-known service. *)
Definition folderSnapshot : list GameInstance :=
  [mkGameInstance "game_root" "game" "DataModel" "game" None [] [];
   mkGameInstance "inst_3001_9" "Workspace" "Workspace" "game.Workspace"
     (Some "game") [] [];
   mkGameInstance "inst_3002_9" "Apple" "Folder" "game.Workspace.Apple"
     (Some "Workspace") [] [];
   mkGameInstance "inst_3003_9" "Players" "Folder" "game.Workspace.Players"
     (Some "Workspace") [] []].

(** A node three levels down whose path does not start at the root. *)
Definition strayLeaf : GameInstance :=
  mkGameInstance "inst_2001_7" "c" "Part" "a.b.c" (Some "b") [] [].

(** The same node below the root [game]. *)
Definition deepLeaf : GameInstance :=
  mkGameInstance "inst_2002_7" "c" "Part" "game.a.b.c" (Some "b") [] [].

(** A place in which only [Workspace] is reachable, holding one part. *)
Definition workspaceTree : Collector.Instance :=
  Collector.mkInstance "Workspace" "Workspace" (Some "Game") []
    [Collector.mkInstance "Part" "Part" (Some "Workspace")
       [("Anchored", PBool true)] []].

Definition onlyWorkspace (name : string) : option Collector.Instance :=
  if decide (name = "Workspace") then Some workspaceTree else None.

(** The store after one batch carrying [partV1]. *)
Definition afterFirstBatch : Server.ServerState :=
  Server.handle 1000 (Server.PostGameTreeBatch [partV1] 0 1 true) Server.initial.

End Samples.

(* ================================================================== *)
(** * Properties *)
(* ================================================================== *)

(** ** Insertion-ordered maps *)

Section JsMapFacts.
Context {V : Type}.
Implicit Types (m : list (string * V)) (k : string) (v : V).

Lemma JsMap_get_set m k v k' :
  JsMap.get (JsMap.set m k v) k'
  = if decide (k = k') then Some v else JsMap.get m k'.
Proof.
  induction m as [|[k0 v0] m IH]; simpl.
  - repeat case_decide; congruence.
  - destruct (decide (k0 = k)) as [->|Hne]; simpl.
    + repeat case_decide; congruence.
    + rewrite IH. repeat case_decide; congruence.
Qed.

Lemma JsMap_get_update m k f k' :
  JsMap.get (JsMap.update m k f) k'
  = if decide (k = k') then f <$> JsMap.get m k' else JsMap.get m k'.
Proof.
  induction m as [|[k0 v0] m IH]; simpl.
  - by case_decide.
  - destruct (decide (k0 = k)) as [->|Hne]; simpl.
    + repeat case_decide; simpl; congruence.
    + rewrite IH. repeat case_decide; simpl; congruence.
Qed.

Lemma JsMap_has_true m k : JsMap.has m k = true ↔ is_Some (JsMap.get m k).
Proof. unfold JsMap.has. apply bool_decide_eq_true. Qed.

Lemma JsMap_has_false m k : JsMap.has m k = false ↔ JsMap.get m k = None.
Proof.
  unfold JsMap.has. rewrite bool_decide_eq_false, eq_None_not_Some. done.
Qed.

Lemma JsMap_get_keys m k : is_Some (JsMap.get m k) ↔ k ∈ JsMap.keys m.
Proof.
  unfold JsMap.keys. induction m as [|[k0 v0] m IH]; simpl.
  - split; [by intros [? ?]|by intros ?%elem_of_nil].
  - rewrite elem_of_cons, <- IH. case_decide; naive_solver.
Qed.

Lemma JsMap_keys_update m k f : JsMap.keys (JsMap.update m k f) = JsMap.keys m.
Proof.
  unfold JsMap.keys. induction m as [|[k0 v0] m IH]; simpl; [done|].
  case_decide; simpl; [done|]. by f_equal.
Qed.

End JsMapFacts.

(** ** The ingestion store *)

Section ServerProperties.
Import Server.

Implicit Types (fast l : list GameInstance) (m : gmap string GameInstance).
Implicit Types (p : string) (st : ServerState).

Lemma consistent_paths fast m :
  consistent fast m ↔ ∀ p, is_Some (m !! p) ↔ p ∈ path <$> fast.
Proof.
  unfold consistent. split; intros H p; rewrite H, list_elem_of_fmap;
    naive_solver.
Qed.

Lemma setAll_lookup_is_Some l m p :
  is_Some (setAll m l !! p) ↔ is_Some (m !! p) ∨ p ∈ path <$> l.
Proof.
  unfold setAll. revert m. induction l as [|x l IH]; intros m; simpl.
  - rewrite elem_of_nil. tauto.
  - rewrite IH, elem_of_cons, lookup_insert_is_Some. 
    destruct (decide (path x = p)); naive_solver.
Qed.

Lemma setAll_lookup_notin l m p :
  p ∉ path <$> l → setAll m l !! p = m !! p.
Proof.
  unfold setAll. revert m. induction l as [|x l IH]; intros m Hp; simpl in *.
  - done.
  - apply not_elem_of_cons in Hp as [Hne Hp].
    rewrite IH by done. by rewrite lookup_insert_ne.
Qed.

Lemma consistent_push fast m l :
  consistent fast m → consistent (fast ++ l) (setAll m l).
Proof.
  rewrite !consistent_paths. intros H p.
  rewrite setAll_lookup_is_Some, fmap_app, elem_of_app, H. tauto.
Qed.

Lemma applyAdded_consistent added s :
  consistent s.1 s.2 → consistent (applyAdded added s).1 (applyAdded added s).2.
Proof.
  intros H. unfold applyAdded. case_bool_decide; simpl; [|done].
  by apply consistent_push.
Qed.

Lemma fmap_path_insert_same fast i x y :
  fast !! i = Some x → path x = path y →
  path <$> <[i := y]> fast = path <$> fast.
Proof.
  intros Hi Hxy. rewrite list_fmap_insert, <- Hxy.
  apply list_insert_id. by rewrite list_lookup_fmap, Hi.
Qed.

Lemma applyModifiedOne_consistent s x :
  consistent s.1 s.2 →
  consistent (applyModifiedOne s x).1 (applyModifiedOne s x).2.
Proof.
  destruct s as [fast m]. simpl. rewrite !consistent_paths. intros H p.
  unfold applyModifiedOne. simpl. case_bool_decide as Hin; simpl.
  - rewrite lookup_insert_is_Some.
    destruct (list_find _ fast) as [[i y]|] eqn:Hf.
    + apply list_find_Some in Hf as (Hi & Hy & _).
      rewrite (fmap_path_insert_same _ _ y) by done.
      rewrite H. apply H in Hin. destruct (decide (path x = p)); naive_solver.
    + rewrite H. apply H in Hin. destruct (decide (path x = p)); naive_solver.
  - rewrite lookup_insert_is_Some, fmap_app, elem_of_app, H. simpl.
    rewrite list_elem_of_singleton.
    destruct (decide (path x = p)); naive_solver.
Qed.

Lemma applyModified_consistent modified s :
  consistent s.1 s.2 →
  consistent (applyModified modified s).1 (applyModified modified s).2.
Proof.
  unfold applyModified. revert s.
  induction modified as [|x l IH]; intros s H; simpl; [done|].
  apply IH. by apply applyModifiedOne_consistent.
Qed.

Lemma foldl_delete_lookup (R : gset string) l m p :
  foldl (λ acc inst, if decide (path inst ∈ R)
                     then delete (path inst) acc else acc) m l !! p
  = if decide (p ∈ R ∧ p ∈ path <$> l) then None else m !! p.
Proof.
  revert m. induction l as [|x l IH]; intros m; simpl.
  - case_decide as H; [|done]. destruct H as [_ H]. by apply elem_of_nil in H.
  - rewrite IH.
    assert (Hc : p ∈ path x :: (path <$> l) ↔ p = path x ∨ p ∈ path <$> l)
      by apply elem_of_cons.
    destruct (decide (path x ∈ R)) as [Hx|Hx].
    + destruct (decide (p = path x)) as [->|Hne].
      * rewrite lookup_delete_eq. repeat case_decide; naive_solver.
      * rewrite lookup_delete_ne by done. repeat case_decide; naive_solver.
    + repeat case_decide; naive_solver.
Qed.

Lemma applyRemoved_consistent removed s :
  consistent s.1 s.2 →
  consistent (applyRemoved removed s).1 (applyRemoved removed s).2.
Proof.
  destruct s as [fast m]. simpl. unfold applyRemoved.
  case_bool_decide as Hlen; simpl; [|done]. clear Hlen.
  rewrite !consistent_paths. intros H p.
  rewrite foldl_delete_lookup.
  case_decide as Hd.
  - split; [by intros [? ?]|].
    intros (y & -> & [Hy _]%list_elem_of_filter)%list_elem_of_fmap.
    naive_solver.
  - rewrite H. split.
    + intros Hp. pose proof Hp as (y & -> & Hy)%list_elem_of_fmap.
      apply list_elem_of_fmap. exists y. split; [done|].
      apply list_elem_of_filter. naive_solver.
    + intros (y & -> & [_ Hy]%list_elem_of_filter)%list_elem_of_fmap.
      apply list_elem_of_fmap. eauto.
Qed.

Lemma applyDelta_consistent added modified removed s :
  consistent s.1 s.2 →
  consistent (applyDelta added modified removed s).1
             (applyDelta added modified removed s).2.
Proof.
  intros H. unfold applyDelta.
  by apply applyRemoved_consistent, applyModified_consistent,
    applyAdded_consistent.
Qed.

Lemma consistent_empty : consistent [] ∅.
Proof.
  intros p. rewrite lookup_empty. split; [by intros [? ?]|].
  intros (x & Hx & _). by apply elem_of_nil in Hx.
Qed.

Lemma handle_consistent now e st :
  consistent (fastInstances st) (instancesMap st) →
  consistent (fastInstances (handle now e st)) (instancesMap (handle now e st)).
Proof.
  intros H. destruct e; simpl; try done.
  - apply consistent_empty.
  - case_bool_decide; [|done]. by apply consistent_push.
  - by apply (applyDelta_consistent _ _ _ (_, _)).
  - unfold timeoutChecker. destruct (lastPing _); [|done].
    destruct (_ && _); [|done]. apply consistent_empty.
  - unfold incrementalUpdateThrown. destruct added as [added|]; [|done].
    cbn [fastInstances instancesMap].
    destruct modified as [modified|].
    + by apply applyModified_consistent, (applyAdded_consistent _ (_, _)).
    + by apply (applyAdded_consistent _ (_, _)).
Qed.

(** C10.  In every reachable state of the ingestion store a path is a key
    of [instancesMap] exactly when some element of [fastInstances] carries
    it: the invariant holds initially and every handler ([applyBatch],
    [applyDelta], the clear, the timeout-triggered clear, and the handlers
    that leave both stores alone) preserves it. *)
Theorem stores_name_same_paths st :
  reachable st →
  ∀ p, is_Some (instancesMap st !! p)
       ↔ ∃ inst, inst ∈ fastInstances st ∧ path inst = p.
Proof.
  intros Hr. change (consistent (fastInstances st) (instancesMap st)).
  induction Hr as [|st now e _ IH].
  - apply consistent_empty.
  - by apply handle_consistent.
Qed.

Lemma stores_name_same_paths_witness :
  reachable (handle 1000 (PostGameTreeBatch [Samples.partV1] 0 1 true) initial)
  ∧ (is_Some (instancesMap
               (handle 1000 (PostGameTreeBatch [Samples.partV1] 0 1 true) initial)
             !! Samples.partPath)
     ↔ ∃ inst,
         inst ∈ fastInstances
                  (handle 1000 (PostGameTreeBatch [Samples.partV1] 0 1 true) initial)
         ∧ path inst = Samples.partPath).
Proof.
  split; [apply reachable_handle, reachable_initial|].
  apply (stores_name_same_paths
           (handle 1000 (PostGameTreeBatch [Samples.partV1] 0 1 true) initial)).
  apply reachable_handle, reachable_initial.
Defined.

(** C9.  Handling a heartbeat refreshes [lastPing] and the connected flag
    and leaves the node collection as it was: the array, the lookup map and
    the cached listing are unchanged, and no storage call touches the
    instances. *)
Theorem ping_keeps_nodes now st :
  fastInstances (ping now st) = fastInstances st
  ∧ instancesMap (ping now st) = instancesMap st
  ∧ cachedResponse (ping now st) = cachedResponse st
  ∧ (∀ ifNoneMatch,
       getInstances ifNoneMatch (ping now st) = getInstances ifNoneMatch st)
  ∧ lastPing (fastConnection (ping now st)) = Some now
  ∧ isConnected (fastConnection (ping now st)) = true
  ∧ ∃ status, storageCalls (ping now st)
              = storageCalls st ++ [SetConnectionStatus status].
Proof. repeat split. by eexists. Qed.

End ServerProperties.

(** *** Batches: first writer wins *)

Section BatchProperties.
Import Server.

Implicit Types (fast l b : list GameInstance) (m : gmap string GameInstance).
Implicit Types (p : string) (st : ServerState).

Lemma nodeAt_nil p : nodeAt p [] = None.
Proof. done. Qed.

Lemma nodeAt_cons p x l :
  nodeAt p (x :: l) = if decide (path x = p) then Some x else nodeAt p l.
Proof.
  unfold nodeAt. simpl. case_decide; [done|].
  by destruct (list_find _ l) as [[? ?]|].
Qed.

Lemma nodeAt_app p l1 l2 :
  nodeAt p (l1 ++ l2)
  = match nodeAt p l1 with Some x => Some x | None => nodeAt p l2 end.
Proof.
  induction l1 as [|x l1 IH]; simpl; [done|].
  rewrite !nodeAt_cons. by case_decide.
Qed.

Lemma nodeAt_None p l : nodeAt p l = None ↔ p ∉ path <$> l.
Proof.
  induction l as [|x l IH]; simpl.
  - split; [intros _; apply not_elem_of_nil|done].
  - rewrite nodeAt_cons, not_elem_of_cons. case_decide; naive_solver.
Qed.

Lemma nodeAt_Some p l x : nodeAt p l = Some x → x ∈ l ∧ path x = p.
Proof.
  induction l as [|y l IH]; simpl; [done|].
  rewrite nodeAt_cons, elem_of_cons. case_decide; naive_solver.
Qed.

Lemma nodeAt_NoDup l x :
  NoDup (path <$> l) → x ∈ l → nodeAt (path x) l = Some x.
Proof.
  induction l as [|y l IH]; simpl; intros Hnd Hx.
  - by apply elem_of_nil in Hx.
  - apply NoDup_cons in Hnd as [Hy Hnd]. rewrite nodeAt_cons.
    apply elem_of_cons in Hx as [->|Hx]; [by rewrite decide_True|].
    rewrite decide_False; [by apply IH|].
    intros Heq. apply Hy. rewrite Heq. apply list_elem_of_fmap. eauto.
Qed.

Lemma nodeAt_filter (Q : GameInstance → Prop) `{!∀ x, Decision (Q x)} p l :
  (∀ x, x ∈ l → path x = p → Q x) → nodeAt p (filter Q l) = nodeAt p l.
Proof.
  induction l as [|y l IH]; intros HQ; [done|].
  rewrite filter_cons, nodeAt_cons.
  assert (IH' : nodeAt p (filter Q l) = nodeAt p l).
  { apply IH. intros x Hx. apply HQ. by right. }
  destruct (decide (Q y)) as [Hy|Hy].
  - rewrite nodeAt_cons. by case_decide.
  - case_decide as Hp; [|done]. destruct Hy. apply HQ; [by left|done].
Qed.

Lemma setAll_lookup_in l m x :
  NoDup (path <$> l) → x ∈ l → setAll m l !! path x = Some x.
Proof.
  unfold setAll. revert m. induction l as [|y l IH]; simpl; intros m Hnd Hx.
  - by apply elem_of_nil in Hx.
  - apply NoDup_cons in Hnd as [Hy Hnd].
    apply elem_of_cons in Hx as [->|Hx]; [|by apply IH].
    fold (setAll (<[path y := y]> m) l).
    rewrite setAll_lookup_notin by done. apply lookup_insert_eq.
Qed.

Lemma gameTreeBatch_fastInstances b now st :
  fastInstances (gameTreeBatch b now st)
  = fastInstances st ++ batchNewInstances (fastInstances st) b.
Proof.
  unfold gameTreeBatch. simpl. case_bool_decide as Hlen; [done|].
  destruct (batchNewInstances _ _); simpl in *; [by rewrite app_nil_r|lia].
Qed.

Lemma gameTreeBatch_instancesMap b now st :
  instancesMap (gameTreeBatch b now st)
  = setAll (instancesMap st) (batchNewInstances (fastInstances st) b).
Proof.
  unfold gameTreeBatch. simpl. case_bool_decide as Hlen; [done|].
  destruct (batchNewInstances _ _); simpl in *; [done|lia].
Qed.

Lemma batchNewInstances_spec fast b x :
  x ∈ batchNewInstances fast b ↔ (path x ∉ path <$> fast) ∧ x ∈ b.
Proof.
  unfold batchNewInstances. rewrite list_elem_of_filter, elem_of_list_to_set.
  done.
Qed.

Lemma gameTreeBatch_step b now st :
  keyedByPath (fastInstances st) (instancesMap st) →
  NoDup (path <$> b) →
  let st' := gameTreeBatch b now st in
  keyedByPath (fastInstances st') (instancesMap st')
  ∧ ∀ p, nodeAt p (fastInstances st') = nodeAt p (fastInstances st ++ b).
Proof.
  intros [Hnd Hm] Hb. cbv zeta.
  rewrite gameTreeBatch_fastInstances, gameTreeBatch_instancesMap.
  set (new := batchNewInstances (fastInstances st) b).
  assert (Hnew : NoDup (path <$> new)).
  { unfold new, batchNewInstances.
    assert (Hs : path <$> new `sublist_of` path <$> b)
      by apply fmap_sublist, sublist_filter.
    by eapply sublist_NoDup. }
  assert (Hnode : ∀ p, nodeAt p (fastInstances st ++ new)
                       = nodeAt p (fastInstances st ++ b)).
  { intros p. rewrite !nodeAt_app.
    destruct (nodeAt p (fastInstances st)) eqn:Hp; [done|].
    apply nodeAt_None in Hp. unfold new, batchNewInstances.
    apply nodeAt_filter. intros x _ <-. by rewrite elem_of_list_to_set. }
  split; [split|done].
  - rewrite fmap_app. apply NoDup_app. split; [done|]. split; [|done].
    intros p Hp (x & -> & Hx)%list_elem_of_fmap.
    apply batchNewInstances_spec in Hx as [Hx _]. done.
  - intros p. rewrite nodeAt_app.
    destruct (nodeAt p (fastInstances st)) as [y|] eqn:Hp.
    + rewrite setAll_lookup_notin; [by rewrite Hm|].
      intros (x & -> & Hx)%list_elem_of_fmap.
      apply batchNewInstances_spec in Hx as [Hx _].
      by apply nodeAt_None in Hx; rewrite Hx in Hp.
    + destruct (nodeAt p new) as [x|] eqn:Hx.
      * apply nodeAt_Some in Hx as [Hx <-]. by apply setAll_lookup_in.
      * apply nodeAt_None in Hx. rewrite setAll_lookup_notin by done.
        by rewrite Hm.
Qed.

(** C2, as the code has it.  Batches accumulate without clearing, and the
    deduplication against the stored collection keeps the earlier entry: for
    a collection keyed by path and batches that each carry a path at most
    once, the collection before the batches is a prefix of the one after
    them, the result is again keyed by path, and the node stored for a path
    is the first entry that carried it, in arrival order. *)
Theorem batches_first_writer_wins st (batches : list (list GameInstance * Z)) :
  keyedByPath (fastInstances st) (instancesMap st) →
  Forall (λ entry, NoDup (path <$> entry.1)) batches →
  let st' := applyBatches batches st in
  fastInstances st `prefix_of` fastInstances st'
  ∧ keyedByPath (fastInstances st') (instancesMap st')
  ∧ ∀ p, instancesMap st' !! p
         = nodeAt p (fastInstances st ++ concat (fst <$> batches))
         ∧ nodeAt p (fastInstances st')
           = nodeAt p (fastInstances st ++ concat (fst <$> batches)).
Proof.
  intros Hk Hb. cbv zeta. revert st Hk.
  induction Hb as [|[b now] batches Hb _ IH]; intros st Hk; simpl.
  - rewrite app_nil_r. split; [done|]. split; [done|]. intros p.
    split; [apply Hk|done].
  - destruct (gameTreeBatch_step b now st Hk Hb) as [Hk' Hn].
    destruct (IH _ Hk') as (Hpre & Hk'' & Hlook).
    fold (applyBatches batches (gameTreeBatch b now st)) in *.
    split; [|split; [done|]].
    + etrans; [|exact Hpre]. rewrite gameTreeBatch_fastInstances.
      by apply prefix_app_r.
    + intros p. destruct (Hlook p) as [H1 H2]. rewrite H1, H2.
      rewrite app_assoc, (nodeAt_app _ (fastInstances (gameTreeBatch b now st))),
        (nodeAt_app _ (fastInstances st ++ b)), Hn. done.
Qed.

End BatchProperties.

(** *** Duplicates within one batch, on the storage path *)

Section StorageBatch.
Import Server.

Implicit Types (l : list GameInstance) (p : string).

Lemma uniqueMap_get l p :
  JsMap.get (foldl (λ m inst, JsMap.set m (path inst) inst) [] l) p
  = lastEntry p l.
Proof.
  unfold lastEntry. induction l as [|x l IH] using rev_ind; [done|].
  rewrite foldl_app, reverse_app. simpl.
  rewrite JsMap_get_set, nodeAt_cons, IH. done.
Qed.

Lemma uniqueMap_keys l :
  Forall (λ e : string * GameInstance, path e.2 = e.1)
    (foldl (λ m inst, JsMap.set m (path inst) inst) [] l).
Proof.
  induction l as [|x l IH] using rev_ind; [constructor|].
  rewrite foldl_app. simpl.
  induction IH as [|[k v] m Hk Hm IHm]; simpl.
  - by repeat constructor.
  - case_decide; constructor; simpl in *; done.
Qed.

Lemma nodeAt_values (m : list (string * GameInstance)) p :
  Forall (λ e : string * GameInstance, path e.2 = e.1) m →
  nodeAt p (JsMap.values m) = JsMap.get m p.
Proof.
  unfold JsMap.values. induction 1 as [|[k v] m Hk Hm IH]; [done|].
  rewrite fmap_cons, nodeAt_cons, IH. simpl in *. by rewrite Hk.
Qed.

(** [addInstancesBatch] of storage.ts removes duplicates within the batch
    it is given, keeping the last instance of each path. *)
Lemma uniqueInstancesList_last_wins l p :
  nodeAt p (uniqueInstancesList l) = lastEntry p l.
Proof.
  unfold uniqueInstancesList.
  rewrite nodeAt_values by apply uniqueMap_keys. apply uniqueMap_get.
Qed.

End StorageBatch.

(** *** Deltas on a collection keyed by path *)

Section DeltaProperties.
Import Server.

Implicit Types (fast l : list GameInstance) (m : gmap string GameInstance).
Implicit Types (p : string) (s : Store) (x : GameInstance).

Lemma keyedByPath_consistent fast m : keyedByPath fast m → consistent fast m.
Proof.
  intros [_ Hm]. apply consistent_paths. intros p. rewrite Hm.
  destruct (nodeAt p fast) as [y|] eqn:Hy.
  - apply nodeAt_Some in Hy as [Hy <-]. split; [|by eauto].
    intros _. apply list_elem_of_fmap. eauto.
  - apply nodeAt_None in Hy. split; [by intros [? ?]|done].
Qed.

Lemma nodeAt_insert fast (i : nat) x y p :
  NoDup (path <$> fast) → fast !! i = Some y → path y = path x →
  nodeAt p (<[i := x]> fast)
  = if decide (p = path x) then Some x else nodeAt p fast.
Proof.
  revert i. induction fast as [|z fast IH]; intros i Hnd Hi Hxy; [done|].
  apply NoDup_cons in Hnd as [Hz Hnd]. destruct i as [|i]; simpl in *.
  - injection Hi as ->. rewrite !nodeAt_cons, Hxy.
    repeat case_decide; congruence.
  - rewrite !nodeAt_cons, (IH i) by done.
    destruct (decide (p = path x)) as [->|Hne]; [|done].
    rewrite decide_False; [done|]. intros Heq. apply Hz.
    rewrite Heq, <- Hxy. apply list_elem_of_fmap. exists y.
    split; [done|]. by eapply list_elem_of_lookup_2.
Qed.

(** One [modified] entry is an upsert: the entry becomes the node of its
    path, every other path keeps its node. *)
Lemma applyModifiedOne_upsert s x :
  keyedByPath s.1 s.2 →
  keyedByPath (applyModifiedOne s x).1 (applyModifiedOne s x).2
  ∧ ∀ p, nodeAt p (applyModifiedOne s x).1
         = if decide (p = path x) then Some x else nodeAt p s.1.
Proof.
  destruct s as [fast m]. cbn [fst snd]. intros [Hnd Hm].
  unfold applyModifiedOne. cbn [fst snd].
  case_bool_decide as Hin; cbn [fst snd].
  - destruct (list_find _ fast) as [[i y]|] eqn:Hf.
    + apply list_find_Some in Hf as (Hi & Hy & _).
      pose proof (nodeAt_insert fast i x y) as Hins.
      split; [split|].
      * by rewrite (fmap_path_insert_same _ _ y).
      * intros p. rewrite Hins by done. rewrite lookup_insert.
        repeat case_decide; congruence || by rewrite Hm.
      * intros p. by apply Hins.
    + exfalso. rewrite Hm in Hin. destruct Hin as [y Hy].
      apply nodeAt_Some in Hy as [Hy1 Hy2].
      eapply list_find_None in Hf. eapply Forall_forall in Hf; [|exact Hy1].
      done.
  - assert (Hfresh : path x ∉ path <$> fast).
    { apply nodeAt_None. rewrite <- Hm. by apply eq_None_not_Some. }
    assert (Hn : ∀ p, nodeAt p (fast ++ [x])
                      = if decide (p = path x) then Some x else nodeAt p fast).
    { intros p. rewrite nodeAt_app, nodeAt_cons, nodeAt_nil.
      destruct (decide (p = path x)) as [->|Hne].
      - apply nodeAt_None in Hfresh. rewrite Hfresh. by rewrite decide_True.
      - rewrite decide_False by done. by destruct (nodeAt p fast). }
    split; [split|done].
    + rewrite fmap_app. apply NoDup_app. split; [done|]. split.
      * intros p Hp [->|H]%elem_of_cons; [done|by apply elem_of_nil in H].
      * apply NoDup_singleton.
    + intros p. rewrite Hn, lookup_insert.
      repeat case_decide; congruence || by rewrite Hm.
Qed.

Lemma applyModified_upserts (modified : list GameInstance) : ∀ s,
  keyedByPath s.1 s.2 → NoDup (path <$> modified) →
  keyedByPath (applyModified modified s).1 (applyModified modified s).2
  ∧ (∀ x, x ∈ modified → nodeAt (path x) (applyModified modified s).1 = Some x)
  ∧ (∀ p, p ∉ path <$> modified →
          nodeAt p (applyModified modified s).1 = nodeAt p s.1).
Proof.
  unfold applyModified.
  induction modified as [|y l IH]; intros s Hk Hnd; simpl.
  - split; [done|]. split; [by intros x ?%elem_of_nil|done].
  - apply NoDup_cons in Hnd as [Hy Hnd].
    destruct (applyModifiedOne_upsert s y Hk) as [Hk' Hn].
    destruct (IH _ Hk' Hnd) as (H1 & H2 & H3).
    split; [done|]. split.
    + intros x [->|Hx]%elem_of_cons; [|by apply H2].
      rewrite H3 by done. rewrite Hn. by rewrite decide_True.
    + intros p [Hp1 Hp2]%not_elem_of_cons. rewrite H3 by done.
      rewrite Hn. by rewrite decide_False.
Qed.

Lemma nodeAt_filter_removed (R : gset string) p l :
  nodeAt p (filter (λ inst, path inst ∉ R) l)
  = if decide (p ∈ R) then None else nodeAt p l.
Proof.
  induction l as [|y l IH]; [by case_decide|].
  rewrite filter_cons, nodeAt_cons.
  destruct (decide (path y ∉ R)) as [Hy|Hy].
  - rewrite nodeAt_cons, IH. repeat case_decide; congruence.
  - rewrite IH. apply dec_stable in Hy. repeat case_decide; congruence.
Qed.

Lemma applyRemoved_deletes (removed : list string) s :
  keyedByPath s.1 s.2 →
  keyedByPath (applyRemoved removed s).1 (applyRemoved removed s).2
  ∧ ∀ p, nodeAt p (applyRemoved removed s).1
         = if decide (p ∈ removed) then None else nodeAt p s.1.
Proof.
  destruct s as [fast m]. cbn [fst snd]. intros [Hnd Hm].
  unfold applyRemoved. case_bool_decide as Hlen; cbn [fst snd].
  - assert (Hn : ∀ p, nodeAt p (filter (λ inst, path inst ∉ (list_to_set removed : gset string)) fast)
                      = if decide (p ∈ removed) then None else nodeAt p fast).
    { intros p. rewrite nodeAt_filter_removed.
      repeat case_decide; try done; set_solver. }
    split; [split|done].
    + assert (Hs : path <$> filter (λ inst, path inst ∉ (list_to_set removed : gset string)) fast
                   `sublist_of` path <$> fast)
        by apply fmap_sublist, sublist_filter.
      by eapply sublist_NoDup.
    + intros p. rewrite Hn, foldl_delete_lookup, Hm.
      destruct (decide (p ∈ removed)) as [Hp|Hp].
      * case_decide as Hd; [done|]. apply nodeAt_None. intros Hin.
        apply Hd. split; [set_solver|done].
      * rewrite decide_False; [done|]. set_solver.
  - destruct removed; simpl in *; [|lia]. done.
Qed.

(** On a collection keyed by path, a delta is applied as an upsert by
    path when no path occurs twice among [added] nor twice among
    [modified], no [added] path is in the collection yet, no [added] path
    is also modified or removed, and no [modified] path is also removed:
    it leaves a collection keyed by path in which the removed paths are
    absent, every added or modified node is the node of its path, and every
    path the delta does not mention keeps its node (or stays absent). *)
Lemma applyDelta_on_fresh_added added modified removed s :
  keyedByPath s.1 s.2 →
  NoDup (path <$> added) → NoDup (path <$> modified) →
  (∀ p, p ∈ path <$> added → p ∉ path <$> s.1) →
  (∀ p, p ∈ path <$> added → (p ∉ path <$> modified) ∧ p ∉ removed) →
  (∀ p, p ∈ path <$> modified → p ∉ removed) →
  let s' := applyDelta added modified removed s in
  keyedByPath s'.1 s'.2
  ∧ (∀ p, p ∈ removed → nodeAt p s'.1 = None ∧ s'.2 !! p = None)
  ∧ (∀ x, x ∈ added ∨ x ∈ modified →
          nodeAt (path x) s'.1 = Some x ∧ s'.2 !! path x = Some x)
  ∧ (∀ p, p ∉ path <$> added → p ∉ path <$> modified → p ∉ removed →
          nodeAt p s'.1 = nodeAt p s.1 ∧ s'.2 !! p = s.2 !! p).
Proof.
  intros Hk Ha Hm Hfresh Had Hmd. cbv zeta. unfold applyDelta.
  assert (Hk1 : keyedByPath (applyAdded added s).1 (applyAdded added s).2
                ∧ ∀ p, nodeAt p (applyAdded added s).1
                       = match nodeAt p s.1 with
                         | Some y => Some y | None => nodeAt p added end).
  { destruct Hk as [Hnd Hmap]. unfold applyAdded.
    case_bool_decide as Hlen; cbn [fst snd].
    - split; [split|].
      + rewrite fmap_app. apply NoDup_app. split; [done|]. split; [|done].
        intros p Hp1 Hp2. by apply (Hfresh p).
      + intros p. rewrite nodeAt_app.
        destruct (nodeAt p s.1) as [y|] eqn:Hy.
        * rewrite setAll_lookup_notin; [by rewrite Hmap|].
          intros Hp. apply (Hfresh p Hp). apply nodeAt_Some in Hy as [? <-].
          apply list_elem_of_fmap. eauto.
        * destruct (nodeAt p added) as [x|] eqn:Hx.
          -- apply nodeAt_Some in Hx as [Hx <-]. by apply setAll_lookup_in.
          -- apply nodeAt_None in Hx. rewrite setAll_lookup_notin by done.
             by rewrite Hmap.
      + intros p. by rewrite nodeAt_app.
    - destruct added; simpl in *; [|lia]. split; [done|]. intros p.
      by destruct (nodeAt p s.1). }
  destruct Hk1 as [Hk1 Hn1].
  destruct (applyModified_upserts modified _ Hk1 Hm) as (Hk2 & Hn2 & Hn2').
  destruct (applyRemoved_deletes removed _ Hk2) as [Hk3 Hn3].
  set (s' := applyRemoved removed (applyModified modified (applyAdded added s))) in *.
  assert (Hmap : ∀ p, s'.2 !! p = nodeAt p s'.1) by apply Hk3.
  split; [done|]. split; [|split].
  - intros p Hp. rewrite Hmap, Hn3. by rewrite decide_True.
  - intros x Hx. rewrite Hmap, Hn3. destruct Hx as [Hx|Hx].
    + assert (Hp : path x ∈ path <$> added) by (apply list_elem_of_fmap; eauto).
      destruct (Had _ Hp) as [H1 H2]. rewrite decide_False by done.
      rewrite Hn2' by done. rewrite Hn1.
      apply Hfresh, nodeAt_None in Hp. rewrite Hp.
      split; by apply nodeAt_NoDup.
    + assert (Hp : path x ∈ path <$> modified) by (apply list_elem_of_fmap; eauto).
      rewrite decide_False by by apply Hmd. by rewrite Hn2.
  - intros p H1 H2 H3. rewrite Hmap, Hn3, decide_False by done.
    rewrite Hn2' by done. rewrite Hn1. apply nodeAt_None in H1. rewrite H1.
    destruct Hk as [_ Hmap0]. rewrite Hmap0. by destruct (nodeAt p s.1).
Qed.

End DeltaProperties.

Section ServerScenarios.
Import Server Samples.

Lemma batches_first_writer_wins_witness :
  keyedByPath (fastInstances initial) (instancesMap initial)
  ∧ Forall (λ b : list GameInstance * Z, NoDup (path <$> b.1))
      [([partV1], 1000); ([partV2], 2000)]
  ∧ nodeAt partPath
      (fastInstances (applyBatches [([partV1], 1000); ([partV2], 2000)] initial))
    = Some partV1.
Proof.
  assert (Hk : keyedByPath (fastInstances initial) (instancesMap initial)).
  { split; [apply NoDup_nil_2|done]. }
  assert (Hb : Forall (λ b : list GameInstance * Z, NoDup (path <$> b.1))
                 [([partV1], 1000); ([partV2], 2000)]).
  { repeat constructor; simpl; solve [apply not_elem_of_nil | apply NoDup_nil_2]. }
  split; [exact Hk|]. split; [exact Hb|].
  destruct (batches_first_writer_wins initial _ Hk Hb) as (_ & _ & H).
  destruct (H partPath) as [_ ->]. reflexivity.
Defined.

(** C2, as the specification words it, fails: two batches carry the same
    path, and the node served afterwards is the one from the batch applied
    first, although the later batch is the last entry for that path. *)
Lemma batch_last_writer_loses :
  let batches := [([partV1], 1000); ([partV2], 2000)] in
  let st' := applyBatches batches initial in
  lastEntry partPath (concat (fst <$> batches)) = Some partV2
  ∧ fastInstances st' = [partV1]
  ∧ instancesMap st' !! partPath = Some partV1
  ∧ getInstances None st' = Body [partV1]
  ∧ partV1 ≠ partV2
  ∧ ¬ (nodeAt partPath (fastInstances st')
       = lastEntry partPath (concat (fst <$> batches))).
Proof. vm_compute. repeat split; done. Qed.

(** C1 at the failing input: the store holds [partV1]; a delta then lists
    the same path under [added].  The array ends with both observations, the
    older one first, while the map holds the newer one. *)
Theorem applyDelta_added_appends_duplicate :
  let st := handle 2000 (PostIncrementalUpdate [partV2] [] []) afterFirstBatch in
  reachable afterFirstBatch
  ∧ fastInstances afterFirstBatch = [partV1]
  ∧ fastInstances st = [partV1; partV2]
  ∧ getInstances None st = Body [partV1; partV2]
  ∧ instancesMap st !! partPath = Some partV2
  ∧ nodeAt partPath (fastInstances st) = Some partV1
  ∧ partV1 ≠ partV2.
Proof.
  split; [apply reachable_handle, reachable_initial|].
  vm_compute. repeat split; done.
Qed.

(** The same path listed under [modified] instead is replaced in place. *)
Lemma applyDelta_modified_replaces :
  let st := handle 2000 (PostIncrementalUpdate [] [partV2] []) afterFirstBatch in
  fastInstances st = [partV2] ∧ instancesMap st !! partPath = Some partV2.
Proof. vm_compute. done. Qed.

(** Once the array holds a path twice, a later [modified] entry rewrites
    the first occurrence only, and the listing keeps serving the stale
    second one after it. *)
Lemma applyDelta_duplicate_survives_modify :
  let st1 := handle 2000 (PostIncrementalUpdate [partV2] [] []) afterFirstBatch in
  let st2 := handle 3000 (PostIncrementalUpdate [] [partV3] []) st1 in
  fastInstances st2 = [partV3; partV2].
Proof. vm_compute. done. Qed.

(** C7 at the failing input: a snapshot posted to /api/game-tree reaches
    [storage] only; the listing served by /api/instances is still empty. *)
Theorem applySnapshot_not_listed :
  let st := handle 1000 (PostGameTree [partV1]) initial in
  getInstances None st = Body []
  ∧ fastInstances st = []
  ∧ instancesMap st = ∅
  ∧ storageCalls st
    = [SetConnectionStatus (mkConnectionStatus true (Some 1000) (Some 1000) None None);
       ClearAllInstances; AddInstancesBatch [partV1]].
Proof. vm_compute. done. Qed.

(** In general the snapshot handler leaves the served listing as it was. *)
Lemma gameTree_listing_unchanged instances now st ifNoneMatch :
  getInstances ifNoneMatch (gameTree instances now st)
  = getInstances ifNoneMatch st.
Proof. done. Qed.

End ServerScenarios.

(** ** The change detector *)

Section DetectorProperties.
Import Producer.

Implicit Types (current : list InstanceData) (prev hashes : gmap string string).
Implicit Types (p : string) (x inst : InstanceData).

Lemma currByPath_snoc current inst :
  currByPath (current ++ [inst]) = <[path inst := inst]> (currByPath current).
Proof. unfold currByPath. by rewrite foldl_app. Qed.

Lemma currHashes_snoc current inst :
  currHashes (current ++ [inst])
  = <[path inst := createHash inst]> (currHashes current).
Proof. unfold currHashes. by rewrite foldl_app. Qed.

(** The hash table holds, for every path, the hash of the node the path
    table holds. *)
Lemma currHashes_currByPath current p :
  currHashes current !! p = createHash <$> currByPath current !! p.
Proof.
  induction current as [|inst current IH] using rev_ind; [done|].
  rewrite currByPath_snoc, currHashes_snoc.
  destruct (decide (path inst = p)) as [<-|Hne].
  - by rewrite !lookup_insert_eq.
  - by rewrite !lookup_insert_ne.
Qed.

Lemma currByPath_Some current p x :
  currByPath current !! p = Some x → x ∈ current ∧ path x = p.
Proof.
  induction current as [|inst current IH] using rev_ind; [done|].
  rewrite currByPath_snoc, elem_of_app, list_elem_of_singleton.
  destruct (decide (path inst = p)) as [<-|Hne].
  - rewrite lookup_insert_eq. naive_solver.
  - rewrite lookup_insert_ne by done. naive_solver.
Qed.

Lemma currByPath_is_Some current p :
  is_Some (currByPath current !! p) ↔ p ∈ path <$> current.
Proof.
  induction current as [|inst current IH] using rev_ind.
  - split; [by intros [? ?]|by intros ?%elem_of_nil].
  - rewrite currByPath_snoc, fmap_app, elem_of_app, lookup_insert_is_Some.
    simpl. rewrite list_elem_of_singleton, <- IH.
    destruct (decide (path inst = p)); naive_solver.
Qed.

Lemma currByPath_None current p :
  currByPath current !! p = None ↔ p ∉ path <$> current.
Proof. rewrite <- currByPath_is_Some, eq_None_not_Some. done. Qed.

Lemma classify_fold prev hashes entries acc :
  foldl (classify prev hashes) acc entries
  = (acc.1 ++ (snd <$> filter (λ e, isAdded prev e = true) entries),
     acc.2 ++ (snd <$> filter (λ e, isModified prev hashes e = true) entries)).
Proof.
  revert acc. induction entries as [|e entries IH]; intros [a m]; simpl.
  - by rewrite !app_nil_r.
  - rewrite IH, !filter_cons. unfold classify, isAdded, isModified.
    destruct (prev !! e.1) as [h|] eqn:Hp; simpl.
    + destruct (decide (hashes !! e.1 ≠ Some h)) as [Hh|Hh]; simpl.
      * rewrite decide_True by (by apply bool_decide_eq_true).
        simpl. by rewrite <- app_assoc.
      * by rewrite decide_False by (by rewrite bool_decide_eq_true).
    + by rewrite <- app_assoc.
Qed.

Lemma classifyRemoved_fold {V} (byPath : gmap string InstanceData)
    (entries : list (string * V)) acc :
  foldl (classifyRemoved byPath) acc entries
  = acc ++ (fst <$> filter (λ e, byPath !! e.1 = None) entries).
Proof.
  revert acc. induction entries as [|e entries IH]; intros acc; simpl.
  - by rewrite app_nil_r.
  - rewrite IH, filter_cons. unfold classifyRemoved.
    destruct (byPath !! e.1) eqn:Hb.
    + by rewrite decide_False.
    + rewrite decide_True by done. simpl. by rewrite <- app_assoc.
Qed.

Lemma detectChanges_added prev current :
  added (detectChanges prev current)
  = snd <$> filter (λ e, isAdded prev e = true)
              (map_to_list (currByPath current)).
Proof. unfold detectChanges. simpl. by rewrite classify_fold. Qed.

Lemma detectChanges_modified prev current :
  modified (detectChanges prev current)
  = snd <$> filter (λ e, isModified prev (currHashes current) e = true)
              (map_to_list (currByPath current)).
Proof. unfold detectChanges. simpl. by rewrite classify_fold. Qed.

Lemma detectChanges_removed prev current :
  removed (detectChanges prev current)
  = fst <$> filter (λ e, currByPath current !! e.1 = None) (map_to_list prev).
Proof. unfold detectChanges. simpl. by rewrite classifyRemoved_fold. Qed.



Lemma added_spec prev current x :
  x ∈ added (detectChanges prev current)
  ↔ currByPath current !! path x = Some x ∧ prev !! path x = None.
Proof.
  rewrite detectChanges_added, list_elem_of_fmap. split.
  - intros ([p y] & -> & [Hq Hy]%list_elem_of_filter). simpl in *.
    apply elem_of_map_to_list in Hy. pose proof (currByPath_Some _ _ _ Hy) as [_ <-].
    split; [done|]. unfold isAdded in Hq. by apply bool_decide_eq_true in Hq.
  - intros [Hx Hp]. exists (path x, x). split; [done|].
    apply list_elem_of_filter. split; [|by apply elem_of_map_to_list].
    unfold isAdded. by apply bool_decide_eq_true.
Qed.

Lemma modified_spec prev current x :
  x ∈ modified (detectChanges prev current)
  ↔ currByPath current !! path x = Some x
    ∧ ∃ prevHash, prev !! path x = Some prevHash
                  ∧ createHash x ≠ prevHash.
Proof.
  rewrite detectChanges_modified, list_elem_of_fmap. split.
  - intros ([p y] & -> & [Hq Hy]%list_elem_of_filter). simpl in *.
    apply elem_of_map_to_list in Hy. pose proof (currByPath_Some _ _ _ Hy) as [_ <-].
    split; [done|]. unfold isModified in Hq. simpl in Hq.
    destruct (prev !! path y) as [h|]; [|done]. exists h. split; [done|].
    apply bool_decide_eq_true in Hq.
    rewrite currHashes_currByPath, Hy in Hq. simpl in Hq. congruence.
  - intros [Hx (h & Hp & Hh)]. exists (path x, x). split; [done|].
    apply list_elem_of_filter. split; [|by apply elem_of_map_to_list].
    unfold isModified. simpl. rewrite Hp. apply bool_decide_eq_true.
    rewrite currHashes_currByPath, Hx. simpl. congruence.
Qed.

Lemma removed_spec prev current p :
  p ∈ removed (detectChanges prev current)
  ↔ is_Some (prev !! p) ∧ p ∉ path <$> current.
Proof.
  rewrite detectChanges_removed, list_elem_of_fmap, <- currByPath_None. split.
  - intros ([q h] & -> & [Hq Hy]%list_elem_of_filter). simpl in *.
    apply elem_of_map_to_list in Hy. eauto.
  - intros [[h Hp] Hn]. exists (p, h). split; [done|].
    apply list_elem_of_filter. split; [done|]. by apply elem_of_map_to_list.
Qed.


End DetectorProperties.

Section IncrementalDetector.
Import Producer.

Implicit Types (current : list InstanceData) (prev : gmap string InstanceData).
Implicit Types (p : string) (x inst : InstanceData).

Lemma incremental_classify_fold prev entries acc :
  foldl (Incremental.classify prev) acc entries
  = (acc.1 ++ (snd <$> filter (λ e, Incremental.isAdded prev e = true) entries),
     acc.2 ++ (snd <$> filter (λ e, Incremental.isModified prev e = true) entries)).
Proof.
  revert acc. induction entries as [|e entries IH]; intros [a m]; simpl.
  - by rewrite !app_nil_r.
  - rewrite IH, !filter_cons. unfold Incremental.classify, Incremental.isAdded, Incremental.isModified.
    destruct (prev !! e.1) as [v|] eqn:Hp; simpl.
    + destruct (Incremental.instancesAreEqual e.2 v); simpl; [done|].
      by rewrite <- app_assoc.
    + by rewrite <- app_assoc.
Qed.

Lemma incremental_added_spec prev current x :
  x ∈ added (Incremental.detectChanges prev current)
  ↔ currByPath current !! path x = Some x ∧ prev !! path x = None.
Proof.
  unfold Incremental.detectChanges. cbn [added].
  rewrite incremental_classify_fold. cbn [fst app].
  change (Incremental.currentByPath current) with (currByPath current).
  rewrite list_elem_of_fmap. split.
  - intros ([p y] & -> & [Hq Hy]%list_elem_of_filter). simpl in *.
    apply elem_of_map_to_list in Hy.
    pose proof (currByPath_Some _ _ _ Hy) as [_ <-].
    split; [done|]. unfold Incremental.isAdded in Hq. by apply bool_decide_eq_true in Hq.
  - intros [Hx Hp]. exists (path x, x). split; [done|].
    apply list_elem_of_filter. split; [|by apply elem_of_map_to_list].
    unfold Incremental.isAdded. by apply bool_decide_eq_true.
Qed.

Lemma incremental_modified_spec prev current x :
  x ∈ modified (Incremental.detectChanges prev current)
  ↔ currByPath current !! path x = Some x
    ∧ ∃ previousInst, prev !! path x = Some previousInst
        ∧ Incremental.createHash x ≠ Incremental.createHash previousInst.
Proof.
  unfold Incremental.detectChanges. cbn [modified].
  rewrite incremental_classify_fold. cbn [snd app].
  change (Incremental.currentByPath current) with (currByPath current).
  rewrite list_elem_of_fmap. split.
  - intros ([p y] & -> & [Hq Hy]%list_elem_of_filter). simpl in *.
    apply elem_of_map_to_list in Hy.
    pose proof (currByPath_Some _ _ _ Hy) as [_ <-].
    split; [done|]. unfold Incremental.isModified in Hq. simpl in Hq.
    destruct (prev !! path y) as [v|]; [|done]. exists v. split; [done|].
    apply negb_true_iff in Hq. unfold Incremental.instancesAreEqual in Hq.
    by apply bool_decide_eq_false in Hq.
  - intros [Hx (v & Hp & Hh)]. exists (path x, x). split; [done|].
    apply list_elem_of_filter. split; [|by apply elem_of_map_to_list].
    unfold Incremental.isModified. simpl. rewrite Hp. apply negb_true_iff.
    unfold Incremental.instancesAreEqual. by apply bool_decide_eq_false.
Qed.

Lemma incremental_removed_spec prev current p :
  p ∈ removed (Incremental.detectChanges prev current)
  ↔ is_Some (prev !! p) ∧ p ∉ path <$> current.
Proof.
  unfold Incremental.detectChanges. cbn [removed].
  change (Incremental.currentByPath current) with (currByPath current).
  rewrite classifyRemoved_fold. cbn [app].
  rewrite list_elem_of_fmap, <- currByPath_None. split.
  - intros ([q h] & -> & [Hq Hy]%list_elem_of_filter). simpl in *.
    apply elem_of_map_to_list in Hy. eauto.
  - intros [[h Hp] Hn]. exists (p, h). split; [done|].
    apply list_elem_of_filter. split; [done|]. by apply elem_of_map_to_list.
Qed.

(** The incremental client's detector classifies the same way; the stored
    hash of a path is the hash of the node kept for it. *)
Lemma incremental_detectChanges_classifies prev current :
  let changes := Incremental.detectChanges prev current in
  (∀ p, p ∈ path <$> added changes
        ↔ p ∈ path <$> current ∧ prev !! p = None)
  ∧ (∀ p, p ∈ path <$> modified changes
          ↔ p ∈ path <$> current
            ∧ ∃ previousInst, prev !! p = Some previousInst
                ∧ Incremental.createHash <$> currByPath current !! p
                  ≠ Some (Incremental.createHash previousInst))
  ∧ (∀ p, p ∈ removed changes
          ↔ is_Some (prev !! p) ∧ p ∉ path <$> current).
Proof.
  cbv zeta. split; [|split].
  - intros p. rewrite list_elem_of_fmap. split.
    + intros (x & -> & [Hx Hp]%incremental_added_spec). split; [|done].
      apply currByPath_is_Some. eauto.
    + intros [[x Hx]%currByPath_is_Some Hp]. exists x.
      pose proof (currByPath_Some _ _ _ Hx) as [_ <-].
      split; [done|]. by apply incremental_added_spec.
  - intros p. rewrite list_elem_of_fmap. split.
    + intros (x & -> & [Hx (v & Hp & Hh)]%incremental_modified_spec).
      split; [apply currByPath_is_Some; eauto|]. exists v. split; [done|].
      rewrite Hx. simpl. congruence.
    + intros [[x Hx]%currByPath_is_Some (v & Hp & Hh)]. exists x.
      pose proof (currByPath_Some _ _ _ Hx) as [_ <-].
      split; [done|]. apply incremental_modified_spec. split; [done|].
      exists v. split; [done|]. rewrite Hx in Hh. simpl in Hh. congruence.
  - apply incremental_removed_spec.
Qed.

End IncrementalDetector.

Section DetectorCycle.
Import Producer.

Implicit Types (current S : list InstanceData) (st : ClientState).

(** Against its own hash table a snapshot shows no change. *)
Lemma detectChanges_same_snapshot S :
  detectChanges (currHashes S) S = mkChanges [] [] [].
Proof.
  destruct (detectChanges (currHashes S) S) as [a m r] eqn:Hd.
  assert (Ha : a = []).
  { apply elem_of_nil_inv. intros x Hx.
    assert (Hx' : x ∈ added (detectChanges (currHashes S) S)) by by rewrite Hd.
    apply added_spec in Hx' as [H1 H2].
    rewrite currHashes_currByPath, H1 in H2. done. }
  assert (Hm : m = []).
  { apply elem_of_nil_inv. intros x Hx.
    assert (Hx' : x ∈ modified (detectChanges (currHashes S) S)) by by rewrite Hd.
    apply modified_spec in Hx' as [H1 (h & H2 & H3)].
    rewrite currHashes_currByPath, H1 in H2. simpl in H2. congruence. }
  assert (Hr : r = []).
  { apply elem_of_nil_inv. intros p Hp.
    assert (Hp' : p ∈ removed (detectChanges (currHashes S) S)) by by rewrite Hd.
    apply removed_spec in Hp' as [H1 H2]. apply H2, currByPath_is_Some.
    rewrite currHashes_currByPath in H1. by apply fmap_is_Some in H1. }
  by subst.
Qed.

(** C5.  A completed cycle of [sendUpdates] replaces the previous-state
    table by the hashes of the snapshot it collected, whatever the Delta was
    (first sync, changes sent, or nothing to send).  Hence, from a table
    that reflects snapshot [S], two cycles in a row on [S] both compute the
    empty Delta, send nothing, and leave the table at the hashes of [S]. *)
Theorem detector_cycle_idempotent st current S :
  isSending st = false →
  previousInstances (sendUpdates (Some current) st).1 = currHashes current
  ∧ (isFirstSync st = false →
     previousInstances st = currHashes S →
     let first := sendUpdates (Some S) st in
     let second := sendUpdates (Some S) first.1 in
     detectChanges (previousInstances st) S = mkChanges [] [] []
     ∧ first.2 = []
     ∧ previousInstances first.1 = currHashes S
     ∧ detectChanges (previousInstances first.1) S = mkChanges [] [] []
     ∧ second.2 = []
     ∧ previousInstances second.1 = currHashes S).
Proof.
  intros Hs.
  assert (Hstep : ∀ st', isSending st' = false → isFirstSync st' = false →
            previousInstances st' = currHashes S →
            sendUpdates (Some S) st' = (mkClientState false false (currHashes S), [])).
  { intros st' H1 H2 H3. unfold sendUpdates.
    rewrite H1, H2, H3, detectChanges_same_snapshot. done. }
  split; [unfold sendUpdates; by rewrite Hs|].
  intros Hf Hp. cbv zeta. rewrite (Hstep st Hs Hf Hp). cbn [fst snd].
  rewrite (Hstep (mkClientState false false (currHashes S))
             eq_refl eq_refl eq_refl).
  cbn [fst snd previousInstances].
  rewrite Hp, detectChanges_same_snapshot. done.
Qed.

End DetectorCycle.

(** ** The batch dispatcher *)

Section BatchDispatcher.
Import Producer.

Context {A : Type}.
Implicit Types (t : list A).

Lemma luaSlice_nat t (s : Z) (len : nat) :
  1 ≤ s →
  omap (luaIndex t) (seqZ s (Z.of_nat len))
  = take len (drop (Z.to_nat (s - 1)) t).
Proof.
  revert s. induction len as [|len IH]; intros s Hs.
  - by rewrite take_0.
  - rewrite seqZ_cons by lia. simpl.
    replace (Z.pred (Z.of_nat (S len))) with (Z.of_nat len) by lia.
    rewrite IH by lia.
    replace (Z.to_nat (Z.succ s - 1)) with (S (Z.to_nat (s - 1))) by lia.
    unfold luaIndex. rewrite decide_True by done.
    destruct (t !! Z.to_nat (s - 1)) as [x|] eqn:Hx.
    + by rewrite (drop_S _ _ _ Hx).
    + apply lookup_ge_None in Hx. rewrite !drop_ge by lia. by rewrite take_nil.
Qed.

Lemma concat_chunks t (B k : nat) :
  concat ((λ i, take B (drop (i * B) t)) <$> seq 0 k) = take (k * B) t.
Proof.
  induction k as [|k IH]; [by rewrite take_0|].
  rewrite seq_S, fmap_app, concat_app, IH. simpl. rewrite app_nil_r.
  replace (B + k * B)%nat with (k * B + B)%nat by lia.
  by rewrite take_take_drop.
Qed.

End BatchDispatcher.

Section BatchDispatcherCover.
Import Producer.

Implicit Types (current : list InstanceData) (B n i : Z).

Lemma ceilDiv_bounds n B :
  0 < B → (ceilDiv n B - 1) * B < n ≤ ceilDiv n B * B.
Proof.
  intros HB. unfold ceilDiv.
  pose proof (Z.div_mod (- n) B). pose proof (Z.mod_pos_bound (- n) B). nia.
Qed.

(** Batch [i] is the [i]-th chunk of [B] consecutive nodes. *)
Lemma luaSlice_chunk current B i :
  0 < B → 0 ≤ i → i * B < Z.of_nat (length current) →
  luaSlice current (i * B + 1) (Z.min ((i + 1) * B) (Z.of_nat (length current)))
  = take (Z.to_nat B) (drop (Z.to_nat i * Z.to_nat B) current).
Proof.
  intros HB Hi Hlt. unfold luaSlice.
  set (n := Z.of_nat (length current)) in *.
  set (len := Z.min ((i + 1) * B) n - (i * B + 1) + 1).
  assert (Hlen : 0 < len) by (unfold len; lia).
  rewrite <- (Z2Nat.id len) by lia. rewrite luaSlice_nat by lia.
  replace (Z.to_nat (i * B + 1 - 1)) with (Z.to_nat i * Z.to_nat B)%nat by nia.
  set (rest := drop (Z.to_nat i * Z.to_nat B) current).
  assert (Hrest : Z.of_nat (length rest) = n - i * B).
  { unfold rest. rewrite length_drop. unfold n. nia. }
  destruct (decide ((i + 1) * B ≤ n)) as [Hfull|Hlast].
  - f_equal. unfold len. lia.
  - rewrite !take_ge; [done| |]; unfold len; lia.
Qed.

Lemma seqZ_nat (k : nat) : seqZ 0 (Z.of_nat k) = Z.of_nat <$> seq 0 k.
Proof.
  unfold seqZ. rewrite Nat2Z.id. apply list_fmap_ext. intros; lia.
Qed.

(** C6.  For a snapshot of [n ≥ 1] nodes and a batch size [B > 0] the
    initial sync emits exactly [ceil (n / B)] batches; the batch sent in
    position [i] carries index [i] (so indices run 0, 1, ... in delivery
    order), announces the total, is non-empty and at most [B] long, and is
    flagged last exactly when its index is the highest; the batches'
    node lists, concatenated in order, are the snapshot. *)
Theorem initialSync_batches_cover B current :
  0 < B → (1 ≤ length current)%nat →
  let n := Z.of_nat (length current) in
  let total := ceilDiv n B in
  let batches := initialSyncBatches B current in
  (total - 1) * B < n ≤ total * B
  ∧ Z.of_nat (length batches) = total
  ∧ batchIndexOf <$> batches = Some <$> seqZ 0 total
  ∧ concat (batchInstances <$> batches) = current
  ∧ ∀ (i : nat) r, batches !! i = Some r →
      batchIndexOf r = Some (Z.of_nat i)
      ∧ totalBatchesOf r = Some total
      ∧ isLastBatchOf r = Some (bool_decide (Z.of_nat i = total - 1))
      ∧ (1 ≤ length (batchInstances r) ≤ Z.to_nat B)%nat.
Proof.
  intros HB Hn. cbv zeta.
  set (n := Z.of_nat (length current)).
  pose proof (ceilDiv_bounds n B HB) as Hc.
  set (total := ceilDiv n B) in *.
  assert (Htot : 1 ≤ total) by (unfold n in *; nia).
  unfold initialSyncBatches. fold n. fold total.
  split; [done|]. split; [rewrite length_fmap, length_seqZ; lia|].
  split.
  { rewrite <- list_fmap_compose. by apply list_fmap_ext. }
  split.
  { rewrite <- list_fmap_compose.
    rewrite <- (Z2Nat.id total) by lia. rewrite seqZ_nat.
    rewrite <- list_fmap_compose.
    transitivity (take (Z.to_nat total * Z.to_nat B) current);
      [|apply take_ge; unfold n in *; nia].
    rewrite <- concat_chunks. f_equal. apply list_fmap_ext.
    intros j k Hk. simpl. apply lookup_seq in Hk as [-> Hk]. simpl.
    rewrite luaSlice_chunk; [by rewrite Nat2Z.id|lia|lia|fold n; nia]. }
  intros i r Hr. rewrite list_lookup_fmap in Hr.
  destruct (seqZ 0 total !! i) as [z|] eqn:Hz; [|done].
  apply lookup_seqZ in Hz as [-> Hi]. simpl in Hr. injection Hr as <-.
  simpl. replace (0 + Z.of_nat i) with (Z.of_nat i) by lia.
  split; [done|]. split; [done|]. split; [done|].
  rewrite luaSlice_chunk; [|lia|lia|fold n; nia].
  rewrite length_take, length_drop. rewrite Nat2Z.id. unfold n in *. nia.
Qed.

End BatchDispatcherCover.

Section ProducerWitnesses.
Import Producer.

Lemma detector_cycle_idempotent_witness :
  let lamp := mkInstanceData "inst_1" "Lamp" "Part" "game.Workspace.Lamp"
                "Workspace" [("Anchored", PBool true)] [] in
  let st := mkClientState false false (currHashes [lamp]) in
  (sendUpdates (Some [lamp]) st).2 = []
  ∧ (sendUpdates (Some [lamp]) (sendUpdates (Some [lamp]) st).1).2 = [].
Proof.
  cbv zeta.
  pose proof (detector_cycle_idempotent
    (mkClientState false false (currHashes
       [mkInstanceData "inst_1" "Lamp" "Part" "game.Workspace.Lamp"
          "Workspace" [("Anchored", PBool true)] []]))
    [] [mkInstanceData "inst_1" "Lamp" "Part" "game.Workspace.Lamp"
          "Workspace" [("Anchored", PBool true)] []] eq_refl) as [_ H].
  destruct (H eq_refl eq_refl) as (_ & H1 & _ & _ & H2 & _).
  split; [exact H1|exact H2].
Defined.

Lemma initialSync_batches_cover_witness :
  let a := mkInstanceData "i1" "A" "Part" "game.A" "game" [] [] in
  let b := mkInstanceData "i2" "B" "Part" "game.B" "game" [] [] in
  let c := mkInstanceData "i3" "C" "Part" "game.C" "game" [] [] in
  concat (batchInstances <$> initialSyncBatches 2 [a; b; c]) = [a; b; c]
  ∧ length (initialSyncBatches 2 [a; b; c]) = 2%nat.
Proof.
  cbv zeta.
  destruct (initialSync_batches_cover 2
    [mkInstanceData "i1" "A" "Part" "game.A" "game" [] [];
     mkInstanceData "i2" "B" "Part" "game.B" "game" [] [];
     mkInstanceData "i3" "C" "Part" "game.C" "game" [] []])
    as (_ & Hlen & _ & Hcat & _); [lia|simpl; lia|].
  split; [exact Hcat|]. apply Nat2Z.inj. rewrite Hlen. reflexivity.
Defined.

End ProducerWitnesses.

(** ** The tree reconciler *)

Section PathFacts.
Import TreeView.

Lemma split_nonempty s : split s ≠ [].
Proof.
  induction s as [|c s IH]; simpl; [done|].
  case_decide; [done|]. by destruct (split s).
Qed.

Lemma split_length s : (1 ≤ length (split s))%nat.
Proof. pose proof (split_nonempty s). destruct (split s); simpl; [done|lia]. Qed.

Lemma split_dotfree s : Forall dotfree (split s).
Proof.
  induction s as [|c s IH]; simpl.
  - by repeat constructor.
  - case_decide as Hc.
    + by constructor.
    + destruct (split s) as [|seg segs]; [by repeat constructor|].
      apply Forall_cons in IH as [H1 H2]. by repeat constructor.
Qed.

Lemma split_single x : dotfree x → split x = [x].
Proof.
  induction x as [|c x IH]; simpl; [done|]. intros [Hc Hx].
  rewrite decide_False by done. by rewrite IH.
Qed.

Lemma split_app_dot x rest :
  dotfree x → split (x +:+ "." +:+ rest) = x :: split rest.
Proof.
  induction x as [|c x IH]; simpl; [done|]. intros [Hc Hx].
  rewrite decide_False by done. by rewrite IH.
Qed.

Lemma split_join segments :
  segments ≠ [] → Forall dotfree segments → split (join segments) = segments.
Proof.
  unfold join. induction segments as [|x [|y l] IH]; intros Hne Hd; [done| |].
  - simpl. apply Forall_cons in Hd as [Hx _]. by apply split_single.
  - apply Forall_cons in Hd as [Hx Hd].
    change (String.concat "." (x :: y :: l))
      with (x +:+ "." +:+ String.concat "." (y :: l)).
    rewrite split_app_dot by done. by rewrite IH.
Qed.

(** An ancestor path of [p] that equals [target] has the segments of
    [target]. *)
Lemma ancestor_segments p (k : nat) target :
  (1 ≤ k)%nat → join (take k (split p)) = target →
  take k (split p) = split target.
Proof.
  intros Hk <-. symmetry. apply split_join.
  - pose proof (split_nonempty p). destruct (split p), k; simpl; done || lia.
  - apply Forall_take, split_dotfree.
Qed.

End PathFacts.

Section ReconcilerFacts.
Import TreeView.

Implicit Types (m : NodeMap) (k pk ck o p : string) (segs : list string).
Implicit Types (n : TreeNode).

Lemma sameNode_refl n : sameNode n n.
Proof. by repeat split. Qed.

Lemma sameNode_trans n1 n2 n3 : sameNode n1 n2 → sameNode n2 n3 → sameNode n1 n3.
Proof.
  intros (?&?&?&?&?&?&?&?) (?&?&?&?&?&?&?&?).
  repeat split; try congruence. by etrans.
Qed.

Lemma extends_refl m : extends m m.
Proof. intros k n Hk. eauto using sameNode_refl. Qed.

Lemma extends_trans m1 m2 m3 : extends m1 m2 → extends m2 m3 → extends m1 m3.
Proof.
  intros H12 H23 k n Hk. destruct (H12 _ _ Hk) as (n2 & Hk2 & Hs2).
  destruct (H23 _ _ Hk2) as (n3 & Hk3 & Hs3). eauto using sameNode_trans.
Qed.

Lemma extends_is_Some m m' k :
  extends m m' → is_Some (JsMap.get m k) → is_Some (JsMap.get m' k).
Proof. intros He [n Hn]. destruct (He _ _ Hn) as (n' & -> & _). eauto. Qed.

Lemma extends_None m m' k :
  extends m m' → JsMap.get m' k = None → JsMap.get m k = None.
Proof.
  intros He Hn. destruct (JsMap.get m k) as [n|] eqn:Hk; [|done].
  destruct (He _ _ Hk) as (n' & Hk' & _). congruence.
Qed.

Lemma extends_child m m' k n ck :
  extends m m' → JsMap.get m k = Some n → ck ∈ children n →
  ∃ n', JsMap.get m' k = Some n' ∧ ck ∈ children n'.
Proof.
  intros He Hk Hc. destruct (He _ _ Hk) as (n' & Hk' & Hs).
  exists n'. split; [done|].
  destruct Hs as (_&_&_&_&_&_&_&Hp). by eapply elem_of_prefix.
Qed.

Lemma pushChild_get m pk ck k :
  JsMap.get (pushChild m pk ck) k
  = if decide (pk = k) then addChild ck <$> JsMap.get m k else JsMap.get m k.
Proof. unfold pushChild. by rewrite JsMap_get_update. Qed.

Lemma pushChild_extends m pk ck : extends m (pushChild m pk ck).
Proof.
  intros k n Hk. rewrite pushChild_get, Hk. case_decide; simpl.
  - eexists. split; [done|]. repeat split. by apply prefix_app_r.
  - eauto using sameNode_refl.
Qed.

Lemma pushChild_attached m pk ck :
  is_Some (JsMap.get m pk) →
  ∃ n, JsMap.get (pushChild m pk ck) pk = Some n ∧ ck ∈ children n.
Proof.
  intros [n Hn]. rewrite pushChild_get, decide_True, Hn by done. simpl.
  eexists. split; [done|]. simpl. apply elem_of_app. right. by left.
Qed.

Lemma set_fresh_extends m k n :
  JsMap.get m k = None → extends m (JsMap.set m k n).
Proof.
  intros Hk k' n' Hk'. rewrite JsMap_get_set.
  case_decide; [congruence|]. eauto using sameNode_refl.
Qed.

Lemma addIntermediate_unfold segs m pk j :
  addIntermediate segs (m, pk) j
  = match JsMap.get m (join (take (S j) segs)) with
    | Some _ => (m, join (take (S j) segs))
    | None => (addPlaceholder m segs j pk, join (take (S j) segs))
    end.
Proof. done. Qed.

Lemma addPlaceholder_get m segs j pk k :
  JsMap.get (addPlaceholder m segs j pk) k
  = let q := join (take (S j) segs) in
    let stored := if decide (q = k) then Some (placeholderNode segs j pk)
                  else JsMap.get m k in
    if decide (pk = k) then addChild q <$> stored else stored.
Proof. unfold addPlaceholder. by rewrite pushChild_get, JsMap_get_set. Qed.

Lemma addPlaceholder_extends m segs j pk :
  JsMap.get m (join (take (S j) segs)) = None →
  extends m (addPlaceholder m segs j pk).
Proof.
  intros Hq. eapply extends_trans; [by apply set_fresh_extends|].
  apply pushChild_extends.
Qed.

Lemma findAncestor_Some m segs (n i : nat) :
  findAncestor m segs n = Some i →
  (i < n)%nat ∧ is_Some (JsMap.get m (join (take (S i) segs))).
Proof.
  induction n as [|n IH]; simpl; [done|].
  destruct (JsMap.has m _) eqn:Hh.
  - intros [= <-]. split; [lia|]. by apply JsMap_has_true.
  - intros [? ?]%IH. split; [lia|done].
Qed.

Lemma findAncestor_None m segs (n : nat) :
  findAncestor m segs n = None ↔
  ∀ c : nat, (1 ≤ c ≤ n)%nat → JsMap.get m (join (take c segs)) = None.
Proof.
  induction n as [|n IH]; simpl.
  - split; [intros _ c ?; lia|done].
  - destruct (JsMap.has m _) eqn:Hh.
    + split; [done|]. intros H. apply JsMap_has_true in Hh as [x Hx].
      rewrite H in Hx by lia. done.
    + rewrite IH. apply JsMap_has_false in Hh. split.
      * intros H c Hc. destruct (decide (c = S n)) as [->|]; [done|].
        apply H. lia.
      * intros H c Hc. apply H. lia.
Qed.

(** *** Properties closed under the steps of the second pass *)

Section Closure.
Variable Inv : NodeMap → Prop.
Hypothesis Inv_push : ∀ m pk ck, Inv m → Inv (pushChild m pk ck).
Hypothesis Inv_placeholder : ∀ m p (j : nat),
  Inv m → (1 ≤ j)%nat → (S j < length (split p))%nat →
  JsMap.get m (join (take (S j) (split p))) = None →
  is_Some (JsMap.get m (join (take j (split p)))) →
  Inv (addPlaceholder m (split p) j (join (take j (split p)))).

Lemma intermediates_closed p (cnt : nat) : ∀ m (i : nat),
  Inv m →
  is_Some (JsMap.get m (join (take (S i) (split p)))) →
  (S i + cnt < length (split p))%nat →
  let r := foldl (addIntermediate (split p))
             (m, join (take (S i) (split p))) (seq (S i) cnt) in
  Inv r.1 ∧ extends m r.1
  ∧ r.2 = join (take (S i + cnt) (split p))
  ∧ is_Some (JsMap.get r.1 r.2).
Proof.
  induction cnt as [|cnt IH]; intros m i HI Hs Hlen; cbv zeta.
  - simpl. rewrite Nat.add_0_r. eauto using extends_refl.
  - cbn [seq foldl]. rewrite addIntermediate_unfold.
    destruct (JsMap.get m (join (take (S (S i)) (split p)))) as [x|] eqn:Hq.
    + destruct (IH m (S i) HI) as (H1 & H2 & H3 & H4); [by rewrite Hq|lia|].
      split; [done|]. split; [done|]. split; [|done].
      rewrite H3. do 2 f_equal. lia.
    + set (m' := addPlaceholder m (split p) (S i) (join (take (S i) (split p)))).
      assert (He : extends m m') by by apply addPlaceholder_extends.
      destruct (IH m' (S i)) as (H1 & H2 & H3 & H4).
      * apply Inv_placeholder; [done|lia|lia|done|done].
      * unfold m'. rewrite addPlaceholder_get. cbv zeta.
        repeat case_decide; simpl; eauto; congruence.
      * lia.
      * split; [done|]. split; [by eapply extends_trans|]. split; [|done].
        rewrite H3. do 2 f_equal. lia.
Qed.

Lemma placeOrphan_closed (st : NodeMap * list string) o :
  Inv st.1 →
  Inv (placeOrphan st o).1
  ∧ extends st.1 (placeOrphan st o).1
  ∧ st.2 `prefix_of` (placeOrphan st o).2.
Proof.
  intros HI. unfold placeOrphan.
  destruct (findAncestor _ _ _) as [i|] eqn:Hf; cbn [fst snd].
  - apply findAncestor_Some in Hf as [Hi Hs].
    destruct (intermediates_closed o (length (split o) - 1 - S i) st.1 i)
      as (H1 & H2 & H3 & H4); [done|done|lia|].
    split; [by apply Inv_push|]. split; [|done].
    eapply extends_trans; [exact H2|]. apply pushChild_extends.
  - split; [done|]. split; [apply extends_refl|]. by apply prefix_app_r.
Qed.

Lemma placeOrphans_closed (l : list string) : ∀ (st : NodeMap * list string),
  Inv st.1 →
  Inv (foldl placeOrphan st l).1
  ∧ extends st.1 (foldl placeOrphan st l).1
  ∧ st.2 `prefix_of` (foldl placeOrphan st l).2.
Proof.
  induction l as [|o l IH]; intros st HI; simpl.
  - eauto using extends_refl.
  - destruct (placeOrphan_closed st o HI) as (H1 & H2 & H3).
    destruct (IH _ H1) as (H4 & H5 & H6).
    split; [done|]. split; [by eapply extends_trans|]. by etrans.
Qed.

End Closure.

End ReconcilerFacts.

Section OrphanFacts.
Import TreeView.

Implicit Types (m : NodeMap) (o p : string) (st : NodeMap * list string).

Lemma attached_extends m m' parent child :
  extends m m' → attached m parent child → attached m' parent child.
Proof. intros He (n & Hn & Hc). by eapply extends_child. Qed.

Lemma placeOrphan_extends st o :
  extends st.1 (placeOrphan st o).1 ∧ st.2 `prefix_of` (placeOrphan st o).2.
Proof.
  by destruct (placeOrphan_closed (λ _, True) (λ _ _ _ _, I)
                 (λ _ _ _ _ _ _ _ _, I) st o I) as (_ & ? & ?).
Qed.

Lemma placeOrphans_extends (l : list string) st :
  extends st.1 (foldl placeOrphan st l).1
  ∧ st.2 `prefix_of` (foldl placeOrphan st l).2.
Proof.
  by destruct (placeOrphans_closed (λ _, True) (λ _ _ _ _, I)
                 (λ _ _ _ _ _ _ _ _, I) l st I) as (_ & ? & ?).
Qed.

(** One orphan: attached under its parent path when an ancestor exists,
    pushed onto the top-level array otherwise. *)
Lemma placeOrphan_kept st o :
  match findAncestor st.1 (split o) (length (split o) - 1) with
  | Some _ => attached (placeOrphan st o).1 (parentKey o) o
  | None => (placeOrphan st o) = (st.1, st.2 ++ [o])
  end.
Proof.
  unfold placeOrphan.
  destruct (findAncestor _ _ _) as [i|] eqn:Hf; [|done]. cbn [fst snd].
  apply findAncestor_Some in Hf as [Hi Hs].
  destruct (intermediates_closed (λ _, True) (λ _ _ _ _ _ _ _ _, I)
              o (length (split o) - 1 - S i) st.1 i)
    as (_ & _ & H3 & H4); [done|done|lia|]. cbv zeta in H3, H4.
  replace (S i + (length (split o) - 1 - S i))%nat
    with (length (split o) - 1)%nat in H3 by lia.
  unfold parentKey. rewrite <- H3. by apply pushChild_attached.
Qed.

Lemma orphan_kept (l : list string) : ∀ st o,
  o ∈ l →
  let r := foldl placeOrphan st l in
  (o ∈ r.2 ∨ attached r.1 (parentKey o) o)
  ∧ ((∀ c : nat, (1 ≤ c ≤ length (split o) - 1)%nat →
        JsMap.get r.1 (join (take c (split o))) = None) → o ∈ r.2)
  ∧ ((∃ c : nat, (1 ≤ c ≤ length (split o) - 1)%nat
        ∧ is_Some (JsMap.get st.1 (join (take c (split o))))) →
     attached r.1 (parentKey o) o).
Proof.
  induction l as [|o' l IH]; intros st o Ho; [by apply elem_of_nil in Ho|].
  cbv zeta. cbn [foldl].
  destruct (placeOrphans_extends l (placeOrphan st o')) as [Hext Hpre].
  destruct (placeOrphan_extends st o') as [Hext1 Hpre1].
  destruct (decide (o = o')) as [<-|Hne].
  - pose proof (placeOrphan_kept st o) as Hk.
    destruct (findAncestor st.1 (split o) (length (split o) - 1)) as [i|] eqn:Hf.
    + assert (Ha : attached (foldl placeOrphan (placeOrphan st o) l).1
                     (parentKey o) o) by by eapply attached_extends.
      split; [by right|]. split; [|done].
      intros Hnone. apply findAncestor_Some in Hf as [Hi [x Hx]].
      destruct (Hext1 _ _ Hx) as (x1 & Hx1 & _).
      destruct (Hext _ _ Hx1) as (x2 & Hx2 & _).
      rewrite Hnone in Hx2 by lia. done.
    + assert (Hr : o ∈ (foldl placeOrphan (placeOrphan st o) l).2).
      { eapply elem_of_prefix; [|exact Hpre]. rewrite Hk. simpl.
        apply elem_of_app. right. by left. }
      split; [by left|]. split; [done|].
      intros (c & Hc & Hs). rewrite findAncestor_None in Hf.
      rewrite Hf in Hs by done. by destruct Hs.
  - apply elem_of_cons in Ho as [?|Ho]; [done|].
    destruct (IH (placeOrphan st o') o Ho) as (H1 & H2 & H3).
    split; [done|]. split; [done|].
    intros (c & Hc & Hs). apply H3. exists c. split; [done|].
    by eapply extends_is_Some.
Qed.

End OrphanFacts.

Section PrepareFacts.
Import TreeView.

Implicit Types (instances : list GameInstance) (k p : string).
Implicit Types (acc : NodeMap * gmap string string).

Lemma addInstanceNode_p2p acc inst :
  (addInstanceNode acc inst).2
  = match computedParent (Schema.path inst) with
    | Some pp => <[Schema.path inst := pp]> acc.2
    | None => acc.2
    end.
Proof.
  unfold addInstanceNode, computedParent. cbn [snd].
  destruct (parentPathOf _) as [pp|]; [|done]. by destruct (truthy _).
Qed.

Lemma built_hasKey instances : ∀ acc k,
  is_Some (JsMap.get (foldl addInstanceNode acc instances).1 k)
  ↔ is_Some (JsMap.get acc.1 k) ∨ k ∈ Schema.path <$> instances.
Proof.
  induction instances as [|x l IH]; intros acc k; simpl.
  - rewrite elem_of_nil. tauto.
  - rewrite IH, elem_of_cons. unfold addInstanceNode at 1. cbn [fst].
    rewrite JsMap_get_set. case_decide; naive_solver.
Qed.

Lemma built_p2p_stays instances : ∀ acc p pp,
  acc.2 !! p = Some pp → computedParent p = Some pp →
  (foldl addInstanceNode acc instances).2 !! p = Some pp.
Proof.
  induction instances as [|x l IH]; intros acc p pp Ha Hc; simpl; [done|].
  apply IH; [|done]. rewrite addInstanceNode_p2p.
  destruct (computedParent (Schema.path x)) as [pp'|] eqn:Hx; [|done].
  destruct (decide (Schema.path x = p)) as [Heq|Hne].
  - rewrite Heq in *. rewrite lookup_insert_eq. congruence.
  - by rewrite lookup_insert_ne.
Qed.

Lemma built_p2p instances : ∀ acc p pp,
  p ∈ Schema.path <$> instances → computedParent p = Some pp →
  (foldl addInstanceNode acc instances).2 !! p = Some pp.
Proof.
  induction instances as [|x l IH]; intros acc p pp Hp Hc; simpl in *.
  - by apply elem_of_nil in Hp.
  - destruct (decide (Schema.path x = p)) as [Heq|Hne].
    + apply built_p2p_stays; [|done]. rewrite addInstanceNode_p2p, Heq, Hc.
      apply lookup_insert_eq.
    + apply elem_of_cons in Hp as [?|Hp]; [congruence|]. by apply IH.
Qed.

Lemma ensureGame_hasKey acc k :
  is_Some (JsMap.get (ensureGame acc).1 k)
  ↔ k = "game" ∨ is_Some (JsMap.get acc.1 k).
Proof.
  unfold ensureGame. destruct (JsMap.has acc.1 "game") eqn:Hh; cbn [fst].
  - apply JsMap_has_true in Hh. naive_solver.
  - rewrite JsMap_get_set. case_decide; naive_solver.
Qed.

Lemma ensureGame_p2p acc k :
  k ≠ "game" → (ensureGame acc).2 !! k = acc.2 !! k.
Proof.
  intros Hk. unfold ensureGame. destruct (JsMap.has _ _); cbn [snd]; [done|].
  by rewrite lookup_delete_ne.
Qed.

Lemma ensureService_hasKey instances acc s k :
  (is_Some (JsMap.get acc.1 k) →
   is_Some (JsMap.get (ensureService instances acc s).1 k))
  ∧ (is_Some (JsMap.get (ensureService instances acc s).1 k) →
     k = "game." +:+ s ∨ is_Some (JsMap.get acc.1 k)).
Proof.
  unfold ensureService. destruct (_ && _); cbn [fst]; [|tauto].
  rewrite JsMap_get_set. case_decide; naive_solver.
Qed.

Lemma ensureService_p2p instances acc s k :
  k ≠ "game." +:+ s → (ensureService instances acc s).2 !! k = acc.2 !! k.
Proof.
  intros Hk. unfold ensureService. destruct (_ && _); cbn [snd]; [|done].
  by rewrite lookup_insert_ne.
Qed.

Lemma services_hasKey instances (services : list string) : ∀ acc k,
  (is_Some (JsMap.get acc.1 k) →
   is_Some (JsMap.get (foldl (ensureService instances) acc services).1 k))
  ∧ (is_Some (JsMap.get (foldl (ensureService instances) acc services).1 k) →
     k ∈ (λ s, "game." +:+ s) <$> services ∨ is_Some (JsMap.get acc.1 k)).
Proof.
  induction services as [|s l IH]; intros acc k; simpl.
  - tauto.
  - destruct (IH (ensureService instances acc s) k) as [H1 H2].
    destruct (ensureService_hasKey instances acc s k) as [H3 H4].
    rewrite elem_of_cons. naive_solver.
Qed.

Lemma services_p2p instances (services : list string) : ∀ acc k,
  k ∉ (λ s, "game." +:+ s) <$> services →
  (foldl (ensureService instances) acc services).2 !! k = acc.2 !! k.
Proof.
  induction services as [|s l IH]; intros acc k Hk; simpl in *; [done|].
  apply not_elem_of_cons in Hk as [Hs Hk].
  rewrite IH by done. by apply ensureService_p2p.
Qed.

Lemma prepare_hasKey instances k :
  is_Some (JsMap.get (prepare instances).1 k) →
  k ∈ Schema.path <$> instances ∨ k = "game" ∨ k ∈ servicePaths.
Proof.
  unfold prepare. intros [Hs|H]%services_hasKey; [by right; right|].
  apply ensureGame_hasKey in H as [->|H]; [by right; left|].
  apply built_hasKey in H as [[? H]|H]; [done|by left].
Qed.

Lemma prepare_hasKey_path instances k :
  k ∈ Schema.path <$> instances → is_Some (JsMap.get (prepare instances).1 k).
Proof.
  intros Hk. unfold prepare. apply services_hasKey, ensureGame_hasKey. right.
  apply built_hasKey. by right.
Qed.

Lemma prepare_hasKey_game instances :
  is_Some (JsMap.get (prepare instances).1 "game").
Proof. unfold prepare. apply services_hasKey, ensureGame_hasKey. by left. Qed.

Lemma prepare_p2p instances p pp :
  p ∈ Schema.path <$> instances → computedParent p = Some pp →
  p ≠ "game" → p ∉ servicePaths →
  (prepare instances).2 !! p = Some pp.
Proof.
  intros Hp Hc Hg Hs. unfold prepare.
  rewrite services_p2p by done. rewrite ensureGame_p2p by done.
  by apply built_p2p.
Qed.

(** *** The first pass *)

Lemma placeFirst_facts p2p (st : Placement) key :
  extends (nodeMap st) (nodeMap (placeFirst p2p st key))
  ∧ (∀ k, JsMap.get (nodeMap st) k = None →
          JsMap.get (nodeMap (placeFirst p2p st key)) k = None)
  ∧ rootNodes st `prefix_of` rootNodes (placeFirst p2p st key)
  ∧ orphanNodes st `prefix_of` orphanNodes (placeFirst p2p st key).
Proof.
  unfold placeFirst. destruct (truthy _).
  - destruct (JsMap.get (nodeMap st) _); cbn.
    + split; [apply pushChild_extends|]. split; [|done].
      intros k Hk. rewrite pushChild_get, Hk. by case_decide.
    + split; [apply extends_refl|]. split; [done|]. split; [done|].
      by apply prefix_app_r.
  - case_decide; cbn.
    + split; [apply extends_refl|]. split; [done|]. split; [|done].
      by apply prefix_app_r.
    + split; [apply extends_refl|]. split; [done|]. split; [done|].
      by apply prefix_app_r.
Qed.

Lemma firstPass_facts p2p (l : list string) : ∀ (st : Placement),
  let r := foldl (placeFirst p2p) st l in
  extends (nodeMap st) (nodeMap r)
  ∧ (∀ k, JsMap.get (nodeMap st) k = None → JsMap.get (nodeMap r) k = None)
  ∧ rootNodes st `prefix_of` rootNodes r
  ∧ orphanNodes st `prefix_of` orphanNodes r.
Proof.
  induction l as [|key l IH]; intros st; cbv zeta; simpl.
  - split; [apply extends_refl|done].
  - destruct (placeFirst_facts p2p st key) as (H1 & H2 & H3 & H4).
    destruct (IH (placeFirst p2p st key)) as (H5 & H6 & H7 & H8).
    split; [by eapply extends_trans|]. split; [by auto|].
    split; by etrans.
Qed.

(** An entry whose recorded parent is not in the map becomes an orphan. *)
Lemma firstPass_orphan p2p (l : list string) : ∀ (st : Placement) key pp,
  key ∈ l → p2p !! key = Some pp → pp ≠ EmptyString →
  JsMap.get (nodeMap st) pp = None →
  key ∈ orphanNodes (foldl (placeFirst p2p) st l).
Proof.
  induction l as [|key' l IH]; intros st key pp Hk Hp Hne Hn.
  - by apply elem_of_nil in Hk.
  - cbn [foldl]. destruct (placeFirst_facts p2p st key') as (_ & H2 & _ & _).
    destruct (decide (key = key')) as [<-|Hd].
    + destruct (firstPass_facts p2p l (placeFirst p2p st key)) as (_ & _ & _ & H8).
      eapply elem_of_prefix; [|exact H8].
      unfold placeFirst. rewrite Hp. cbn [truthy default].
      rewrite bool_decide_eq_true_2 by done. unfold Datatypes.id.
      rewrite Hn. cbn.
      apply elem_of_app. right. by left.
    + apply elem_of_cons in Hk as [?|Hk]; [done|].
      eapply IH; eauto.
Qed.

End PrepareFacts.

Section PlaceholderFacts.
Import TreeView.

Implicit Types (m : NodeMap) (k pk ck p target : string) (n : TreeNode).

Lemma pushChild_inv m pk ck k n' :
  JsMap.get (pushChild m pk ck) k = Some n' →
  ∃ n, JsMap.get m k = Some n ∧ sameNode n n'.
Proof.
  rewrite pushChild_get. case_decide.
  - destruct (JsMap.get m k) as [n|]; [|done]. intros [= <-].
    exists n. split; [done|]. repeat split. by apply prefix_app_r.
  - eauto using sameNode_refl.
Qed.

Lemma addPlaceholder_inv m segs (j : nat) pk k n' :
  JsMap.get m (join (take (S j) segs)) = None →
  is_Some (JsMap.get m pk) →
  JsMap.get (addPlaceholder m segs j pk) k = Some n' →
  (k = join (take (S j) segs)
   ∧ id n' = "placeholder_" +:+ k
   ∧ name n' = nth j segs EmptyString
   ∧ className n' = placeholderClass (nth j segs EmptyString)
   ∧ properties n' = [])
  ∨ (k ≠ join (take (S j) segs) ∧ ∃ n, JsMap.get m k = Some n ∧ sameNode n n').
Proof.
  intros Hq [x Hx]. rewrite addPlaceholder_get. cbv zeta.
  destruct (decide (join (take (S j) segs) = k)) as [<-|Hk].
  - rewrite decide_False by congruence. intros [= <-]. by left.
  - intros H. right. split; [done|]. case_decide as Hp; [|eauto using sameNode_refl].
    destruct (JsMap.get m k) as [n|]; [|done]. injection H as <-.
    exists n. split; [done|]. repeat split. by apply prefix_app_r.
Qed.

Lemma addPlaceholder_attached m segs (j : nat) pk :
  JsMap.get m (join (take (S j) segs)) = None →
  is_Some (JsMap.get m pk) →
  attached (addPlaceholder m segs j pk) pk (join (take (S j) segs)).
Proof.
  intros Hq [x Hx]. unfold attached. rewrite addPlaceholder_get. cbv zeta.
  rewrite decide_True by done. rewrite decide_False by congruence.
  rewrite Hx. simpl. eexists. split; [done|]. simpl.
  apply elem_of_app. right. by left.
Qed.

(** The ancestor path of [p] that ends at segment [j] and spells [target]
    has [target]'s segments: the same length, parent path and last name. *)
Lemma ancestor_of_literal p (j : nat) target :
  (S j < length (split p))%nat →
  join (take (S j) (split p)) = target →
  S j = length (split target)
  ∧ join (take j (split p)) = join (take j (split target))
  ∧ nth j (split p) EmptyString = nth j (split target) EmptyString.
Proof.
  intros Hlen Hj. apply ancestor_segments in Hj; [|lia].
  rewrite <- Hj. split; [rewrite length_take; lia|]. split.
  - rewrite take_take. do 2 f_equal. lia.
  - rewrite !nth_lookup. by rewrite lookup_take_lt by lia.
Qed.

Lemma placeholderAt_push m pk ck target parentTarget nm :
  placeholderAt m target parentTarget nm →
  placeholderAt (pushChild m pk ck) target parentTarget nm.
Proof.
  intros H n' Hn'. apply pushChild_inv in Hn' as (n & Hn & Hs).
  destruct (H n Hn) as (H1 & H2 & H3 & H4 & H5).
  destruct Hs as (E1 & E2 & E3 & _ & _ & E6 & _).
  repeat split; try congruence.
  eapply attached_extends; [apply pushChild_extends|done].
Qed.

Lemma placeholderAt_placeholder m p (j : nat) target parentTarget nm :
  S (length (split parentTarget)) = length (split target) →
  join (take (length (split parentTarget)) (split target)) = parentTarget →
  nth (length (split parentTarget)) (split target) EmptyString = nm →
  placeholderAt m target parentTarget nm →
  (S j < length (split p))%nat →
  JsMap.get m (join (take (S j) (split p))) = None →
  is_Some (JsMap.get m (join (take j (split p)))) →
  placeholderAt (addPlaceholder m (split p) j (join (take j (split p))))
    target parentTarget nm.
Proof.
  intros Hl Hp Hn H Hlen Hq Hs n' Hn'.
  pose proof (addPlaceholder_extends m (split p) j (join (take j (split p))) Hq)
    as Hext.
  apply addPlaceholder_inv in Hn' as [(Hk & E1 & E2 & E3 & E4)|(Hk & n & Hn0 & Hsame)];
    [| |done|done].
  - symmetry in Hk.
    destruct (ancestor_of_literal p j target Hlen Hk) as (L1 & L2 & L3).
    assert (Hj : j = length (split parentTarget)) by lia.
    rewrite L3, Hj, Hn in E2, E3.
    split; [done|]. split; [done|]. split; [done|]. split; [done|].
    assert (Hpar : parentTarget = join (take j (split p)))
      by (by rewrite L2, Hj).
    rewrite Hpar, <- Hk. by apply addPlaceholder_attached.
  - destruct (H n Hn0) as (H1 & H2 & H3 & H4 & H5).
    destruct Hsame as (E1 & E2 & E3 & _ & _ & E6 & _).
    repeat split; try congruence. by eapply attached_extends.
Qed.

(** *** The two invariants of the second pass *)

Lemma chainInv_push m pk ck : chainInv m → chainInv (pushChild m pk ck).
Proof.
  intros (H1 & H2 & H3). split; [|split]; [|by apply placeholderAt_push..].
  eapply extends_is_Some; [apply pushChild_extends|done].
Qed.

Lemma chainInv_placeholder m p (j : nat) :
  chainInv m → (1 ≤ j)%nat → (S j < length (split p))%nat →
  JsMap.get m (join (take (S j) (split p))) = None →
  is_Some (JsMap.get m (join (take j (split p)))) →
  chainInv (addPlaceholder m (split p) j (join (take j (split p)))).
Proof.
  intros (H1 & H2 & H3) Hj Hlen Hq Hs. split; [|split].
  - eapply extends_is_Some; [by apply addPlaceholder_extends|done].
  - by apply placeholderAt_placeholder.
  - by apply placeholderAt_placeholder.
Qed.

Lemma bareInv_push m pk ck : bareInv m → bareInv (pushChild m pk ck).
Proof.
  intros [H1 H2]. split; rewrite pushChild_get, ?H1, ?H2; by case_decide.
Qed.

Lemma bareInv_placeholder m p (j : nat) :
  bareInv m → (1 ≤ j)%nat → (S j < length (split p))%nat →
  JsMap.get m (join (take (S j) (split p))) = None →
  is_Some (JsMap.get m (join (take j (split p)))) →
  bareInv (addPlaceholder m (split p) j (join (take j (split p)))).
Proof.
  intros [H1 H2] Hj Hlen Hq Hs.
  assert (Hfresh : ∀ k, JsMap.get m k = None →
            join (take (S j) (split p)) ≠ k →
            JsMap.get (addPlaceholder m (split p) j (join (take j (split p)))) k
            = None).
  { intros k Hk Hne. rewrite addPlaceholder_get. cbv zeta.
    rewrite (decide_False (P := join (take (S j) (split p)) = k)) by done.
    rewrite Hk. by case_decide. }
  split; apply Hfresh; try done.
  - intros Hk. destruct (ancestor_of_literal p j "a" Hlen Hk) as (L1 & _).
    change (length (split "a")) with 1%nat in L1. lia.
  - intros Hk. destruct (ancestor_of_literal p j "a.b" Hlen Hk) as (L1 & L2 & _).
    change (length (split "a.b")) with 2%nat in L1.
    assert (j = 1%nat) as -> by lia.
    rewrite L2 in Hs. change (join (take 1 (split "a.b"))) with "a" in Hs.
    rewrite H1 in Hs. by destruct Hs.
Qed.

End PlaceholderFacts.

Section KeysArePaths.
Import TreeView.

Lemma keyIsPath_push m pk ck : keyIsPath m → keyIsPath (pushChild m pk ck).
Proof.
  intros H k n' (n & Hn & Hs)%pushChild_inv.
  destruct Hs as (_&_&_&Hp&_). rewrite <- Hp. by apply H.
Qed.

Lemma keyIsPath_set m k n :
  keyIsPath m → path n = k → keyIsPath (JsMap.set m k n).
Proof.
  intros H Hn k' n'. rewrite JsMap_get_set. case_decide; [|by apply H].
  intros [= <-]. congruence.
Qed.

Lemma keyIsPath_placeholder m p (j : nat) :
  keyIsPath m → (1 ≤ j)%nat → (S j < length (split p))%nat →
  JsMap.get m (join (take (S j) (split p))) = None →
  is_Some (JsMap.get m (join (take j (split p)))) →
  keyIsPath (addPlaceholder m (split p) j (join (take j (split p)))).
Proof.
  intros H _ _ _ _. unfold addPlaceholder.
  by apply keyIsPath_push, keyIsPath_set.
Qed.

Lemma keyIsPath_prepare instances : keyIsPath (prepare instances).1.
Proof.
  unfold prepare.
  assert (H0 : keyIsPath (foldl addInstanceNode ([], ∅) instances).1).
  { assert (Hg : ∀ acc, keyIsPath acc.1 →
                        keyIsPath (foldl addInstanceNode acc instances).1).
    { induction instances as [|x l IH]; intros acc Ha; simpl; [done|].
      apply IH. unfold addInstanceNode. cbn [fst]. by apply keyIsPath_set. }
    apply Hg. by intros k n. }
  assert (H1 : keyIsPath (ensureGame (foldl addInstanceNode ([], ∅) instances)).1).
  { unfold ensureGame. destruct (JsMap.has _ _); cbn [fst]; [done|].
    by apply keyIsPath_set. }
  revert H1. generalize (ensureGame (foldl addInstanceNode ([], ∅) instances)).
  induction essentialServices as [|sv l IH]; intros acc Ha; simpl; [done|].
  apply IH. unfold ensureService. destruct (_ && _); cbn [fst]; [|done].
  by apply keyIsPath_set.
Qed.

Lemma keyIsPath_reconcile instances : keyIsPath (reconcile instances).1.
Proof.
  unfold reconcile. cbv zeta.
  apply (placeOrphans_closed keyIsPath keyIsPath_push keyIsPath_placeholder).
  cbn [fst]. unfold firstPass. cbv zeta.
  generalize (JsMap.keys (prepare instances).1).
  assert (Hg : ∀ (l : list string) (st : Placement),
            keyIsPath (nodeMap st) →
            keyIsPath (nodeMap (foldl (placeFirst (prepare instances).2) st l))).
  { induction l as [|key l IH]; intros st Hs; simpl; [done|].
    apply IH. unfold placeFirst. destruct (truthy _).
    - destruct (JsMap.get _ _); cbn; [by apply keyIsPath_push|done].
    - by case_decide. }
  intros l. apply Hg. cbn. apply keyIsPath_prepare.
Qed.

End KeysArePaths.

Section OrphanResolution.
Import TreeView.

Implicit Types (instances : list GameInstance).

Lemma prepare_absent instances k :
  k ∉ Schema.path <$> instances → k ≠ "game" → k ∉ servicePaths →
  JsMap.get (nodeMap (firstPass instances)) k = None.
Proof.
  intros H1 H2 H3. unfold firstPass. cbv zeta.
  apply firstPass_facts. cbn [nodeMap].
  apply eq_None_not_Some. intros H%prepare_hasKey. naive_solver.
Qed.

Lemma firstPass_game instances :
  is_Some (JsMap.get (nodeMap (firstPass instances)) "game").
Proof.
  unfold firstPass. cbv zeta.
  eapply extends_is_Some; [apply firstPass_facts|]. cbn [nodeMap].
  apply prepare_hasKey_game.
Qed.

Lemma firstPass_orphan_of instances p pp :
  p ∈ Schema.path <$> instances → computedParent p = Some pp →
  pp ≠ EmptyString → p ≠ "game" → p ∉ servicePaths →
  pp ∉ Schema.path <$> instances → pp ≠ "game" → pp ∉ servicePaths →
  p ∈ orphanNodes (firstPass instances).
Proof.
  intros Hp Hc Hne Hg Hs Hpp Hppg Hpps. unfold firstPass. cbv zeta.
  eapply firstPass_orphan.
  - apply JsMap_get_keys. by apply prepare_hasKey_path.
  - by apply prepare_p2p.
  - done.
  - cbn [nodeMap]. apply eq_None_not_Some. intros H%prepare_hasKey.
    naive_solver.
Qed.

Lemma reconcile_hasKey instances p :
  p ∈ Schema.path <$> instances →
  is_Some (JsMap.get (reconcile instances).1 p).
Proof.
  intros Hp. unfold reconcile. cbv zeta.
  eapply extends_is_Some; [apply placeOrphans_extends|]. cbn [fst].
  unfold firstPass. cbv zeta.
  eapply extends_is_Some; [apply firstPass_facts|]. cbn [nodeMap].
  by apply prepare_hasKey_path.
Qed.

Lemma literal_not_service k :
  bool_decide (k ∉ servicePaths) = true → k ∉ servicePaths.
Proof. apply bool_decide_eq_true. Qed.

(** C3, as the code has it.  (1) Below the root: for a collection with a
    node at ["game.a.b.c"] and none at ["game.a"] or ["game.a.b"],
    reconciliation stores placeholder nodes for ["game.a"] and
    ["game.a.b"], and attaches ["game.a"] under the root ["game"],
    ["game.a.b"] under ["game.a"] and the node under ["game.a.b"].
    (2) Outside the root: for a collection with a node at ["a.b.c"] and none
    at ["a"] or ["a.b"], no node is made for ["a"] or ["a.b"] and the node
    is kept as an entry of the top-level array, beside the root.  (3) In
    general no orphan is dropped: each is attached under the node at its
    parent path or is an entry of the top-level array, the latter whenever
    none of its ancestor paths is in the map. *)
Theorem orphans_resolved instances :
  let r := reconcile instances in
  ("game.a.b.c" ∈ Schema.path <$> instances →
   "game.a" ∉ Schema.path <$> instances →
   "game.a.b" ∉ Schema.path <$> instances →
   (∃ na nb,
      JsMap.get r.1 "game.a" = Some na
      ∧ id na = "placeholder_game.a" ∧ name na = "a"
      ∧ className na = "Folder" ∧ properties na = []
      ∧ JsMap.get r.1 "game.a.b" = Some nb
      ∧ id nb = "placeholder_game.a.b" ∧ name nb = "b"
      ∧ className nb = "Folder" ∧ properties nb = [])
   ∧ attached r.1 "game" "game.a"
   ∧ attached r.1 "game.a" "game.a.b"
   ∧ attached r.1 "game.a.b" "game.a.b.c"
   ∧ is_Some (JsMap.get r.1 "game.a.b.c"))
  ∧ ("a.b.c" ∈ Schema.path <$> instances →
     "a" ∉ Schema.path <$> instances →
     "a.b" ∉ Schema.path <$> instances →
     "a.b.c" ∈ r.2 ∧ is_Some (JsMap.get r.1 "a.b.c")
     ∧ JsMap.get r.1 "a" = None ∧ JsMap.get r.1 "a.b" = None)
  ∧ (∀ o, o ∈ orphanNodes (firstPass instances) →
       (o ∈ r.2 ∨ attached r.1 (parentKey o) o)
       ∧ ((∀ c : nat, (1 ≤ c ≤ length (split o) - 1)%nat →
             JsMap.get r.1 (join (take c (split o))) = None) →
          o ∈ r.2)).
Proof.
  cbv zeta.
  pose proof (reconcile_hasKey instances) as Hkey.
  unfold reconcile in *. cbv zeta in *.
  set (first := firstPass instances) in *.
  set (st := (nodeMap first, rootNodes first)) in *.
  split; [|split].
  - intros Hx Ha Hb.
    assert (Hinv : chainInv st.1).
    { split; [apply firstPass_game|].
      split; intros n Hn; exfalso; revert Hn; unfold st, first; cbn [fst];
        rewrite prepare_absent;
        done || (by apply literal_not_service). }
    destruct (placeOrphans_closed chainInv chainInv_push chainInv_placeholder
                (orphanNodes first) st Hinv) as ((_ & Pa & Pb) & _ & _).
    assert (Ho : "game.a.b.c" ∈ orphanNodes first).
    { apply (firstPass_orphan_of instances _ "game.a.b");
        done || (by apply literal_not_service). }
    destruct (orphan_kept (orphanNodes first) st _ Ho) as (_ & _ & Hatt).
    assert (Hc : attached (foldl placeOrphan st (orphanNodes first)).1
                   "game.a.b" "game.a.b.c").
    { apply Hatt. exists 1%nat. split; [simpl; lia|]. apply firstPass_game. }
    pose proof Hc as (nb & Hnb & _).
    destruct (Pb nb Hnb) as (B1 & B2 & B3 & B4 & B5).
    pose proof B5 as (na & Hna & _).
    destruct (Pa na Hna) as (A1 & A2 & A3 & A4 & A5).
    split; [by exists na, nb|]. repeat split; try done. by apply Hkey.
  - intros Hx Ha Hb.
    assert (Hinv : bareInv st.1).
    { split; unfold st, first; cbn [fst]; apply prepare_absent;
        done || (by apply literal_not_service). }
    destruct (placeOrphans_closed bareInv bareInv_push bareInv_placeholder
                (orphanNodes first) st Hinv) as ([Pa Pb] & _ & _).
    assert (Ho : "a.b.c" ∈ orphanNodes first).
    { apply (firstPass_orphan_of instances _ "a.b");
        done || (by apply literal_not_service). }
    destruct (orphan_kept (orphanNodes first) st _ Ho) as (_ & Hroot & _).
    split; [|split; [by apply Hkey|done]]. apply Hroot. intros c Hc.
    change (length (split "a.b.c") - 1)%nat with 2%nat in Hc.
    destruct (decide (c = 1%nat)) as [->|]; [exact Pa|].
    assert (c = 2%nat) as -> by lia. exact Pb.
  - intros o Ho.
    destruct (orphan_kept (orphanNodes first) st _ Ho) as (H1 & H2 & _).
    done.
Qed.

End OrphanResolution.

Section OrphanScenarios.
Import TreeView Samples.

Lemma orphans_resolved_witness :
  attached (reconcile [deepLeaf]).1 "game" "game.a"
  ∧ attached (reconcile [deepLeaf]).1 "game.a" "game.a.b"
  ∧ attached (reconcile [deepLeaf]).1 "game.a.b" "game.a.b.c"
  ∧ "a.b.c" ∈ (reconcile [strayLeaf]).2.
Proof.
  destruct (orphans_resolved [deepLeaf]) as (HA & _ & _).
  destruct (orphans_resolved [strayLeaf]) as (_ & HB & _).
  destruct HA as (_ & H1 & H2 & H3 & _).
  - apply (bool_decide_unpack _). vm_compute. exact I.
  - apply (bool_decide_unpack _). vm_compute. exact I.
  - apply (bool_decide_unpack _). vm_compute. exact I.
  - destruct HB as (H4 & _).
    + apply (bool_decide_unpack _). vm_compute. exact I.
    + apply (bool_decide_unpack _). vm_compute. exact I.
    + apply (bool_decide_unpack _). vm_compute. exact I.
    + done.
Defined.

(** C3, as the specification words it, fails: for the collection that
    holds just a node at ["a.b.c"], reconciliation makes no node for ["a"]
    or ["a.b"], the root has no child, and the node is an entry of the
    top-level array. *)
Lemma orphan_without_root_prefix :
  let r := reconcile [strayLeaf] in
  JsMap.keys r.1 = ["a.b.c"; "game"]
  ∧ JsMap.get r.1 "a" = None
  ∧ JsMap.get r.1 "a.b" = None
  ∧ children <$> JsMap.get r.1 "game" = Some []
  ∧ r.2 = ["game"; "a.b.c"]
  ∧ ¬ attached r.1 "game" "a"
  ∧ ¬ attached r.1 "a.b" "a.b.c".
Proof.
  vm_compute. repeat split; try done.
  - intros (n & [= <-] & Hc). by apply elem_of_nil in Hc.
  - intros (n & Hn & _). done.
Qed.

End OrphanScenarios.

(** ** Sibling order *)

Section SortFacts.
Import TreeView.

Lemma Tree_forall_ind (P : Tree → Prop) :
  (∀ n kids, Forall P kids → P (TNode n kids)) → ∀ t, P t.
Proof.
  intros H. fix IH 1. intros [n kids]. apply H.
  induction kids as [|k kids IHk]; constructor; [apply IH|exact IHk].
Qed.

Lemma allGroups_unfold (P : list Tree → Prop) n kids :
  allGroups P (TNode n kids) ↔ P kids ∧ Forall (allGroups P) kids.
Proof.
  simpl. apply and_iff_compat_l.
  induction kids as [|k kids IH]; simpl.
  - split; [by constructor|done].
  - rewrite Forall_cons, IH. done.
Qed.

Lemma everyNode_unfold (P : TreeNode → Prop) n kids :
  everyNode P (TNode n kids) ↔ P n ∧ Forall (everyNode P) kids.
Proof.
  simpl. apply and_iff_compat_l.
  induction kids as [|k kids IH]; simpl.
  - split; [by constructor|done].
  - rewrite Forall_cons, IH. done.
Qed.

Lemma everyNode_root (P : TreeNode → Prop) t : everyNode P t → P (rootOf t).
Proof. destruct t as [n kids]. by intros [? _]%everyNode_unfold. Qed.

Lemma getServicePriority_plain s :
  plainName s → getServicePriority s = PriorityNumber (priorityOf s).
Proof.
  unfold getServicePriority, priorityOf, plainName. intros Hs.
  destruct (JsMap.get priorities s); [done|]. by rewrite decide_False.
Qed.

(** For a name [priorities] inherits a member for, the comparator is [NaN]
    against every name of another priority, in both directions. *)
Lemma inherited_member_compares_as_nan localeCompare a b :
  name a ∈ objectPrototypeMembers → name b ≠ name a →
  compareNodes localeCompare a b = None
  ∧ compareNodes localeCompare b a = None.
Proof.
  intros Ha Hne. unfold compareNodes. cbv zeta.
  assert (Hpa : getServicePriority (name a) = InheritedMember (name a)).
  { unfold getServicePriority.
    destruct (JsMap.get priorities (name a)) as [x|] eqn:Hx.
    - exfalso. revert Ha Hx. unfold objectPrototypeMembers, priorities.
      intros Ha. repeat (apply elem_of_cons in Ha as [->|Ha]; [by vm_compute|]).
      by apply elem_of_nil in Ha.
    - by rewrite decide_True. }
  rewrite Hpa.
  assert (Hpb : getServicePriority (name b) ≠ InheritedMember (name a)).
  { unfold getServicePriority. destruct (JsMap.get _ _); [done|].
    case_decide; congruence. }
  split.
  - rewrite decide_True by congruence. by destruct (getServicePriority (name b)).
  - rewrite decide_True by done. by destruct (getServicePriority (name b)).
Qed.

Variable localeCompare : string → string → Z.

Lemma sortCompare_plain a b :
  plainNode a → plainNode b →
  sortCompare localeCompare a b
  = if decide (priorityOf (name a) ≠ priorityOf (name b))
    then priorityOf (name a) - priorityOf (name b)
    else localeCompare (name a) (name b).
Proof.
  intros Ha Hb. unfold sortCompare, compareNodes. cbv zeta.
  rewrite !getServicePriority_plain by done.
  destruct (decide (priorityOf (name a) = priorityOf (name b))) as [Heq|Hne].
  - rewrite Heq, decide_False by (intros H; by apply H).
    rewrite decide_False by (intros H; by apply H). done.
  - rewrite decide_True by congruence. by rewrite decide_True.
Qed.

Lemma insertSorted_Forall (Q : Tree → Prop) x l :
  Forall Q (insertSorted localeCompare x l) ↔ Q x ∧ Forall Q l.
Proof.
  induction l as [|y l IH]; simpl.
  - rewrite Forall_singleton. split; [by split|by intros [? _]].
  - case_decide; rewrite !Forall_cons, ?IH; tauto.
Qed.

Lemma jsSort_Forall (Q : Tree → Prop) l :
  Forall Q (jsSort localeCompare l) ↔ Forall Q l.
Proof.
  unfold jsSort. induction l as [|x l IH]; simpl; [done|].
  by rewrite insertSorted_Forall, Forall_cons, IH.
Qed.

Lemma insertSorted_perm x l : insertSorted localeCompare x l ≡ₚ x :: l.
Proof.
  induction l as [|y l IH]; simpl; [done|].
  case_decide; [done|]. rewrite IH. apply Permutation_swap.
Qed.

Lemma jsSort_perm l : jsSort localeCompare l ≡ₚ l.
Proof.
  unfold jsSort. induction l as [|x l IH]; simpl; [done|].
  by rewrite insertSorted_perm, IH.
Qed.

Lemma sortNode_root t : rootOf (sortNode localeCompare t) = rootOf t.
Proof. by destruct t. Qed.

Lemma sortNode_every (P : TreeNode → Prop) t :
  everyNode P t → everyNode P (sortNode localeCompare t).
Proof.
  induction t as [n kids IH] using Tree_forall_ind. cbn [sortNode].
  rewrite !everyNode_unfold, jsSort_Forall, Forall_fmap.
  intros [Hn Hkids]. split; [done|].
  rewrite Forall_forall in IH, Hkids. apply Forall_forall.
  intros k Hk. simpl. apply IH; [done|]. by apply Hkids.
Qed.

Lemma sortTree_every (P : TreeNode → Prop) nodes :
  Forall (everyNode P) nodes →
  Forall (everyNode P) (sortTree localeCompare nodes).
Proof.
  intros H. unfold sortTree. rewrite jsSort_Forall, Forall_fmap.
  eapply Forall_impl; [exact H|]. intros t. apply sortNode_every.
Qed.

Hypothesis localeCompare_total :
  ∀ a b, 0 < localeCompare a b → localeCompare b a ≤ 0.
Hypothesis localeCompare_trans :
  ∀ a b c, localeCompare a b ≤ 0 → localeCompare b c ≤ 0 →
           localeCompare a c ≤ 0.

Local Abbreviation before := (ordered localeCompare).
Local Abbreviation plainRoot := (λ t : Tree, plainNode (rootOf t)).

(** The comparator spelled out on plain names: priority first, then the
    names. *)
Lemma ordered_spec a b :
  plainRoot a → plainRoot b →
  before a b
  ↔ priorityOf (name (rootOf a)) < priorityOf (name (rootOf b))
    ∨ (priorityOf (name (rootOf a)) = priorityOf (name (rootOf b))
       ∧ localeCompare (name (rootOf a)) (name (rootOf b)) ≤ 0).
Proof.
  intros Ha Hb. unfold ordered. rewrite sortCompare_plain by done.
  case_decide; lia.
Qed.

Lemma ordered_total a b :
  plainRoot a → plainRoot b → ¬ before a b → before b a.
Proof.
  intros Ha Hb. rewrite !ordered_spec by done. intros H.
  destruct (Z.lt_trichotomy (priorityOf (name (rootOf a)))
              (priorityOf (name (rootOf b)))) as [?|[?|?]];
    [tauto| |lia].
  right. split; [done|]. apply localeCompare_total.
  destruct (Z_lt_le_dec 0 (localeCompare (name (rootOf a)) (name (rootOf b))));
    [done|]. tauto.
Qed.

Lemma ordered_trans a b c :
  plainRoot a → plainRoot b → plainRoot c →
  before a b → before b c → before a c.
Proof.
  intros Ha Hb Hc. rewrite !ordered_spec by done.
  intros [?|[? ?]] [?|[? ?]]; try (left; lia).
  right. split; [lia|]. by eapply localeCompare_trans.
Qed.

Lemma insertSorted_sorted x l :
  plainRoot x → Forall plainRoot l →
  StronglySorted before l →
  StronglySorted before (insertSorted localeCompare x l).
Proof.
  intros Hx Hl. induction 1 as [|y l Hs IH Hy]; simpl.
  - by repeat constructor.
  - apply Forall_cons in Hl as [Hpy Hl]. case_decide as Hc.
    + constructor; [by constructor|]. constructor; [done|].
      rewrite Forall_forall in Hy, Hl. apply Forall_forall. intros z Hz.
      apply (ordered_trans x y z); auto.
    + constructor; [by apply IH|]. apply insertSorted_Forall. split; [|done].
      by apply ordered_total.
Qed.

Lemma jsSort_sorted l :
  Forall plainRoot l → StronglySorted before (jsSort localeCompare l).
Proof.
  unfold jsSort. induction 1 as [|x l Hx Hl IH]; simpl; [constructor|].
  apply insertSorted_sorted; [done| |done].
  by apply (jsSort_Forall plainRoot).
Qed.

Lemma sortNode_groups t :
  everyNode plainNode t →
  allGroups (StronglySorted before) (sortNode localeCompare t).
Proof.
  induction t as [n kids IH] using Tree_forall_ind. simpl sortNode.
  intros [Hn Hkids]%everyNode_unfold.
  rewrite Forall_forall in IH, Hkids.
  apply allGroups_unfold. split.
  - apply jsSort_sorted, Forall_fmap, Forall_forall. intros k Hk. simpl.
    rewrite sortNode_root. by apply everyNode_root, Hkids.
  - apply jsSort_Forall, Forall_fmap, Forall_forall. intros k Hk. simpl.
    apply IH; [done|]. by apply Hkids.
Qed.

Lemma sortTree_sorted nodes :
  Forall (everyNode plainNode) nodes →
  StronglySorted before (sortTree localeCompare nodes)
  ∧ Forall (allGroups (StronglySorted before)) (sortTree localeCompare nodes)
  ∧ sortTree localeCompare nodes ≡ₚ sortNode localeCompare <$> nodes.
Proof.
  intros Hall. rewrite Forall_forall in Hall.
  unfold sortTree. split; [|split; [|apply jsSort_perm]].
  - apply jsSort_sorted, Forall_fmap, Forall_forall. intros k Hk. simpl.
    rewrite sortNode_root. by apply everyNode_root, Hall.
  - apply jsSort_Forall, Forall_fmap, Forall_forall. intros k Hk. simpl.
    by apply sortNode_groups, Hall.
Qed.

End SortFacts.


(* ================================================================== *)
(** * Further properties of the code *)
(* ================================================================== *)

(** ** The ingestion store: cache, redelivery, removal, timeout *)

Section ServerFurther.
Import Server.

Implicit Types (fast l b : list GameInstance) (m : gmap string GameInstance).
Implicit Types (p : string) (st : ServerState).

Lemma run_snoc events timed st :
  run (events ++ [timed]) st = handle timed.1 timed.2 (run events st).
Proof. unfold run. by rewrite foldl_app. Qed.

Lemma run_app events more st :
  run (events ++ more) st = run more (run events st).
Proof. unfold run. by rewrite foldl_app. Qed.

Lemma run_reachable events : reachable (run events initial).
Proof.
  induction events as [|timed events IH] using rev_ind.
  - apply reachable_initial.
  - rewrite run_snoc. by apply reachable_handle.
Qed.

Lemma handle_listing now e st :
  completeBody e →
  cachedResponse st = fastInstances st →
  cachedResponse (handle now e st) = fastInstances (handle now e st).
Proof.
  intros Hbody Hc. destruct e; simpl; try done.
  - by case_bool_decide.
  - unfold timeoutChecker. destruct (lastPing _); [|done].
    by destruct (_ && _).
Qed.

Lemma run_listing events :
  Forall (λ timed, completeBody timed.2) events →
  cachedResponse (run events initial) = fastInstances (run events initial).
Proof.
  induction events as [|timed events IH] using rev_ind; intros Hall.
  - done.
  - rewrite Forall_app, Forall_singleton in Hall. destruct Hall as [Hall Hlast].
    rewrite run_snoc. apply handle_listing; [exact Hlast|by apply IH].
Qed.

(** After any sequence of requests and timer checks from start-up in
    which every request body carries all the lists its handler reads, the
    cached listing is the array: every handler that changes [fastInstances]
    refreshes [cachedResponse], and the batch handler skips the refresh
    only when it appended nothing.  A GET /api/instances whose
    [If-None-Match] is not the current [lastDataUpdate] is then answered
    with the array, and one that quotes the current [lastDataUpdate] is
    answered 304. *)
Theorem listing_is_the_array events :
  Forall (λ timed, completeBody timed.2) events →
  let st := run events initial in
  cachedResponse st = fastInstances st
  ∧ (∀ ifNoneMatch, ifNoneMatch ≠ Some (lastDataUpdate st) →
       getInstances ifNoneMatch st = Body (fastInstances st))
  ∧ getInstances (Some (lastDataUpdate st)) st = NotModified.
Proof.
  intros Hall st.
  assert (Hc : cachedResponse st = fastInstances st) by by apply run_listing.
  split; [done|]. split.
  - intros tag Htag. unfold getInstances.
    rewrite decide_False by done. by rewrite Hc.
  - unfold getInstances. by rewrite decide_True.
Qed.

Lemma listing_is_the_array_witness :
  getInstances None
    (run [(1000, PostGameTreeBatch [Samples.partV1] 0 1 true);
          (2000, PostIncrementalUpdate [] [Samples.partV2] []);
          (3000, PostPing)] initial)
  = Body [Samples.partV2].
Proof.
  destruct (listing_is_the_array
              [(1000, PostGameTreeBatch [Samples.partV1] 0 1 true);
               (2000, PostIncrementalUpdate [] [Samples.partV2] []);
               (3000, PostPing)]) as (_ & H & _).
  - repeat constructor.
  - apply (H None). done.
Defined.

(** [clearInstances] and the timeout empty the array and leave
    [lastDataUpdate] as it is: a client that quotes the tag it was handed
    before is answered 304 although the array has changed. *)
Lemma tag_survives_clear_instances :
  let st := run [(1000, PostGameTreeBatch [Samples.partV1] 0 1 true)] initial in
  let st' := run [(2000, PostClearInstances)] st in
  fastInstances st = [Samples.partV1]
  ∧ fastInstances st' = []
  ∧ getInstances (Some (lastDataUpdate st)) st' = NotModified.
Proof. by vm_compute. Qed.

(** An incremental update whose body has no [removed] is applied as far as
    the handler gets, and the cached listing is not refreshed. *)
Lemma update_without_removed_is_not_listed :
  let st := handle 2000
              (PostIncrementalUpdateWithout (Some [Samples.lampV1]) (Some []))
              Samples.afterFirstBatch in
  fastInstances st = [Samples.partV1; Samples.lampV1]
  ∧ cachedResponse st = [Samples.partV1]
  ∧ getInstances None st = Body [Samples.partV1].
Proof. by vm_compute. Qed.

Lemma batchNewInstances_again fast b :
  batchNewInstances (fast ++ batchNewInstances fast b) b = [].
Proof.
  apply elem_of_nil_inv. intros x [Hx Hb]%batchNewInstances_spec.
  apply Hx. rewrite fmap_app, elem_of_app.
  destruct (decide (path x ∈ path <$> fast)) as [Hin|Hout]; [by left|].
  right. apply list_elem_of_fmap. exists x. split; [done|].
  by apply batchNewInstances_spec.
Qed.

(** A batch delivered a second time changes neither store nor the served
    listing, whatever the batch holds. *)
Theorem batch_redelivery_is_harmless b now now' st :
  let once := gameTreeBatch b now st in
  let twice := gameTreeBatch b now' once in
  fastInstances twice = fastInstances once
  ∧ instancesMap twice = instancesMap once
  ∧ cachedResponse twice = cachedResponse once.
Proof.
  cbv zeta.
  assert (Hnew : batchNewInstances (fastInstances (gameTreeBatch b now st)) b = []).
  { rewrite gameTreeBatch_fastInstances. apply batchNewInstances_again. }
  rewrite (gameTreeBatch_fastInstances b now'),
    (gameTreeBatch_instancesMap b now'), Hnew, app_nil_r.
  split; [done|]. split; [done|].
  unfold gameTreeBatch at 1. cbn [cachedResponse]. rewrite Hnew. done.
Qed.

(** After any sequence of batches the collection names exactly the paths it
    named before together with the paths the batches carried, and what was
    stored before is still there, in place. *)
Theorem batches_name_the_union (batches : list (list GameInstance * Z)) st :
  fastInstances st `prefix_of` fastInstances (applyBatches batches st)
  ∧ ∀ p, p ∈ path <$> fastInstances (applyBatches batches st)
         ↔ p ∈ path <$> fastInstances st
           ∨ ∃ entry, entry ∈ batches ∧ p ∈ path <$> entry.1.
Proof.
  revert st. induction batches as [|[b0 now] batches IH]; intros st; simpl.
  - split; [done|]. intros p. split; [by left|].
    intros [?|(e & He & _)]; [done|]. by apply elem_of_nil in He.
  - destruct (IH (gameTreeBatch b0 now st)) as [Hpre Hp].
    fold (applyBatches batches (gameTreeBatch b0 now st)) in *.
    assert (Hstep : ∀ p, p ∈ path <$> fastInstances (gameTreeBatch b0 now st)
                         ↔ p ∈ path <$> fastInstances st ∨ p ∈ path <$> b0).
    { intros p. rewrite gameTreeBatch_fastInstances, fmap_app, elem_of_app.
      split.
      - intros [?|(x & -> & [_ Hx]%batchNewInstances_spec)%list_elem_of_fmap];
          [by left|]. right. apply list_elem_of_fmap. eauto.
      - intros [?|(x & -> & Hx)%list_elem_of_fmap]; [by left|].
        destruct (decide (path x ∈ path <$> fastInstances st)); [by left|].
        right. apply list_elem_of_fmap. exists x. split; [done|].
        by apply batchNewInstances_spec. }
    split.
    + etrans; [|exact Hpre]. rewrite gameTreeBatch_fastInstances.
      by apply prefix_app_r.
    + intros p. rewrite Hp, Hstep. split.
      * intros [[?|?]|(e & He & Hpe)]; [by left| |].
        -- right. exists (b0, now). split; [by left|done].
        -- right. exists e. split; [by right|done].
      * intros [?|(e & [->|He]%elem_of_cons & Hpe)]; [by left; left| |].
        -- by left; right.
        -- right. eauto.
Qed.

Lemma reachable_consistent st :
  reachable st → consistent (fastInstances st) (instancesMap st).
Proof.
  induction 1 as [|st now e _ IH]; [apply consistent_empty|].
  by apply handle_consistent.
Qed.

Lemma applyRemoved_absent (removed : list string) (s : Store) p :
  p ∈ removed → p ∉ path <$> (applyRemoved removed s).1.
Proof.
  intros Hp. unfold applyRemoved. case_bool_decide as Hlen; cbn [fst].
  - intros (x & -> & [Hx _]%list_elem_of_filter)%list_elem_of_fmap.
    apply Hx. by apply elem_of_list_to_set.
  - destruct removed; [by apply elem_of_nil in Hp|simpl in Hlen; lia].
Qed.

(** Removal is applied last: a path listed under [removed] is gone from the
    array after the delta even if the same delta also adds or modifies it,
    and in a reachable state it is gone from the lookup map too. *)
Theorem removed_paths_are_gone added modified removed now st p :
  reachable st → p ∈ removed →
  let st' := incrementalUpdate added modified removed now st in
  (p ∉ path <$> fastInstances st')
  ∧ instancesMap st' !! p = None
  ∧ ∀ ifNoneMatch instances,
      getInstances ifNoneMatch st' = Body instances → p ∉ path <$> instances.
Proof.
  intros Hr Hp. cbv zeta.
  assert (Hgone : p ∉ path <$> fastInstances
                    (incrementalUpdate added modified removed now st)).
  { unfold incrementalUpdate, applyDelta. cbn [fastInstances].
    by apply applyRemoved_absent. }
  split; [done|]. split.
  - pose proof (reachable_consistent _
        (reachable_handle st now (PostIncrementalUpdate added modified removed) Hr) p)
      as Hc.
    simpl in Hc. apply eq_None_not_Some. intros Hs. apply Hgone.
    apply Hc in Hs as (x & Hx & <-). apply list_elem_of_fmap. eauto.
  - intros tag l. unfold getInstances. case_decide; [done|].
    intros [= <-]. done.
Qed.

Lemma removed_paths_are_gone_witness :
  Samples.partPath
  ∉ path <$> fastInstances
      (incrementalUpdate [Samples.partV2] [] [Samples.partPath] 2000
         Samples.afterFirstBatch).
Proof.
  apply (removed_paths_are_gone [Samples.partV2] [] [Samples.partPath] 2000
           Samples.afterFirstBatch Samples.partPath).
  - apply reachable_handle, reachable_initial.
  - by left.
Defined.

Lemma applyDelta_on_fresh_added_witness :
  let s' := applyDelta [Samples.partV1] [Samples.lampV1] ["game.Gone"] ([], ∅) in
  nodeAt Samples.partPath s'.1 = Some Samples.partV1
  ∧ nodeAt "game.Workspace.Lamp" s'.1 = Some Samples.lampV1.
Proof.
  cbv zeta.
  destruct (applyDelta_on_fresh_added [Samples.partV1] [Samples.lampV1]
              ["game.Gone"] ([], ∅)) as (_ & _ & H & _).
  - split; [apply NoDup_nil_2|done].
  - apply (bool_decide_unpack _). by vm_compute.
  - apply (bool_decide_unpack _). by vm_compute.
  - intros p _. apply not_elem_of_nil.
  - intros p ->%list_elem_of_singleton. split.
    + apply (bool_decide_unpack _). by vm_compute.
    + apply (bool_decide_unpack _). by vm_compute.
  - intros p ->%list_elem_of_singleton.
    apply (bool_decide_unpack _). by vm_compute.
  - split.
    + apply (H Samples.partV1). left. by left.
    + apply (H Samples.lampV1). right. by left.
Defined.

Lemma timeoutChecker_cases now st :
  timeoutChecker now st = st
  ∨ timeoutChecker now st
    = let conn' := mkConnectionStatus false None None
                     (gameName (fastConnection st)) (placeId (fastConnection st)) in
      mkServerState [] ∅ conn' (lastDataUpdate st) [] conn'
        (storageCalls st ++ [ClearAllInstances; SetConnectionStatus conn']).
Proof.
  unfold timeoutChecker. destruct (lastPing _); [|by left].
  destruct (_ && _); [by right|by left].
Qed.

Lemma reachable_connection st :
  reachable st →
  (isConnected (fastConnection st) = true
   ↔ is_Some (lastPing (fastConnection st)))
  ∧ connectedAt (fastConnection st) = None
  ∧ gameName (fastConnection st) = None
  ∧ placeId (fastConnection st) = None
  ∧ (isConnected (cachedConnectionResponse st) = true →
     isConnected (fastConnection st) = true)
  ∧ connectedAt (cachedConnectionResponse st) = None
  ∧ gameName (cachedConnectionResponse st) = None
  ∧ placeId (cachedConnectionResponse st) = None.
Proof.
  induction 1 as [|st now e _ IH].
  - simpl. split; [split; [done|by intros [? ?]]|done].
  - destruct IH as (I1 & I2 & I3 & I4 & I5 & I6 & I7 & I8).
    assert (Hsame : (isConnected (fastConnection st) = true
               ↔ is_Some (lastPing (fastConnection st)))
              ∧ connectedAt (fastConnection st) = None
              ∧ gameName (fastConnection st) = None
              ∧ placeId (fastConnection st) = None
              ∧ (isConnected (cachedConnectionResponse st) = true →
                 isConnected (fastConnection st) = true)
              ∧ connectedAt (cachedConnectionResponse st) = None
              ∧ gameName (cachedConnectionResponse st) = None
              ∧ placeId (cachedConnectionResponse st) = None) by done.
    destruct e; simpl; try exact Hsame.
    + rewrite I2, I3, I4. split; [split; eauto|done].
    + rewrite I2, I3, I4. split; [split; eauto|]. done.
    + rewrite I2, I3, I4. split; [split; eauto|]. done.
    + destruct (timeoutChecker_cases now st) as [->| ->]; [exact Hsame|].
      simpl. rewrite I3, I4.
      split; [split; [done|by intros [? ?]]|done].
    + unfold incrementalUpdateThrown. destruct added; exact Hsame.
Qed.

(** What the in-memory connection record can look like in any reachable
    state: it is marked connected exactly when a last ping is recorded;
    [connectedAt], [gameName] and [placeId] are never filled in, neither in
    the record nor in a body served by /api/connection; and the cached
    response is never marked connected while the record is not. *)
Theorem connection_record_invariants st :
  reachable st →
  (isConnected (fastConnection st) = true ↔ is_Some (lastPing (fastConnection st)))
  ∧ connectedAt (fastConnection st) = None
  ∧ gameName (fastConnection st) = None
  ∧ placeId (fastConnection st) = None
  ∧ (isConnected (cachedConnectionResponse st) = true →
     isConnected (fastConnection st) = true)
  ∧ ∀ ifNoneMatch status,
      getConnection ifNoneMatch st = ConnectionBody status →
      connectedAt status = None ∧ gameName status = None
      ∧ placeId status = None.
Proof.
  intros Hr.
  destruct (reachable_connection st Hr) as (I1 & I2 & I3 & I4 & I5 & I6 & I7 & I8).
  repeat split; try done; try apply I1.
  all: unfold getConnection in *; case_decide; [done|]; by simplify_eq.
Qed.

Lemma connection_record_invariants_witness :
  connectedAt (fastConnection (ping 1000 Samples.afterFirstBatch)) = None.
Proof.
  apply (connection_record_invariants (ping 1000 Samples.afterFirstBatch)).
  apply (reachable_handle _ 1000 PostPing), reachable_handle, reachable_initial.
Defined.

Lemma handle_lastPing now e st :
  isTick e = false →
  lastPing (fastConnection (handle now e st))
  = if refreshesLastPing e then Some now else lastPing (fastConnection st).
Proof.
  intros Ht. destruct e; try done.
  simpl. unfold incrementalUpdateThrown. by destruct added.
Qed.

Lemma tick_spared now st :
  match lastPing (fastConnection st) with
  | Some t => now - t ≤ timeoutMs
  | None => True
  end →
  timeoutChecker now st = st.
Proof.
  unfold timeoutChecker. destruct (lastPing _) as [t|]; [|done].
  intros Hle. by rewrite bool_decide_eq_false_2 by lia.
Qed.

Lemma run_spared events : ∀ st,
  spared (lastPing (fastConnection st)) events →
  run events st = run (filter (λ timed, isTick timed.2 = false) events) st.
Proof.
  induction events as [|[now e] events IH]; intros st Hs; [done|].
  destruct (isTick e) eqn:Ht.
  - destruct e; try done. cbn [spared] in Hs. destruct Hs as [Hnow Hs].
    rewrite filter_cons_False by (simpl; congruence).
    change (run ((now, TimeoutTick) :: events) st)
      with (run events (timeoutChecker now st)).
    rewrite tick_spared by done. by apply IH.
  - rewrite filter_cons_True by done.
    change (run ((now, e) :: ?l) st) with (run l (handle now e st)).
    change (run ((now, e) :: events) st) with (run events (handle now e st)).
    apply IH. rewrite handle_lastPing by done.
    destruct e; try done.
Qed.

(** The timeout follows the latest contact.  From any state, a run in
    which every timer check comes at most 30000 ms after the latest batch,
    incremental update or ping before it (or before any contact at all)
    ends in the state the run without the checks ends in: the checks change
    nothing.  A check on a disconnected record changes nothing either.  In
    a reachable state, a check more than 30000 ms after the recorded last
    ping empties both stores and the listing, marks the producer
    disconnected and forgets the ping. *)
Theorem checks_follow_the_last_contact st :
  (∀ events, spared (lastPing (fastConnection st)) events →
     run events st = run (filter (λ timed, isTick timed.2 = false) events) st)
  ∧ (isConnected (fastConnection st) = false →
     ∀ now, handle now TimeoutTick st = st)
  ∧ (reachable st →
     ∀ t now, lastPing (fastConnection st) = Some t → timeoutMs < now - t →
       let st' := handle now TimeoutTick st in
       fastInstances st' = [] ∧ instancesMap st' = ∅ ∧ cachedResponse st' = []
       ∧ isConnected (fastConnection st') = false
       ∧ lastPing (fastConnection st') = None
       ∧ cachedConnectionResponse st' = fastConnection st').
Proof.
  split; [intros events; apply run_spared|]. split.
  - intros Hd now. simpl. unfold timeoutChecker. rewrite Hd.
    destruct (lastPing _); [|done]. by rewrite andb_false_r.
  - intros Hr t now Ht Hlate.
    destruct (reachable_connection st Hr) as (Hc & _).
    assert (Hconn : isConnected (fastConnection st) = true)
      by (apply Hc; rewrite Ht; eauto).
    simpl. unfold timeoutChecker. rewrite Ht, Hconn.
    by rewrite bool_decide_eq_true_2 by lia.
Qed.

Lemma checks_follow_the_last_contact_witness :
  let st := run [(1000, PostGameTreeBatch [Samples.partV1] 0 1 true)] initial in
  run [(20000, TimeoutTick); (25000, PostPing); (50000, TimeoutTick)] st
  = run [(25000, PostPing)] st
  ∧ fastInstances (handle 31001 TimeoutTick st) = [].
Proof.
  cbv zeta.
  destruct (checks_follow_the_last_contact
              (run [(1000, PostGameTreeBatch [Samples.partV1] 0 1 true)] initial))
    as (H1 & _ & H3).
  split.
  - apply (H1 [(20000, TimeoutTick); (25000, PostPing); (50000, TimeoutTick)]).
    vm_compute. split; [discriminate|]. split; [discriminate|done].
  - apply (H3 (run_reachable _) 1000 31001); [reflexivity|reflexivity].
Defined.

End ServerFurther.

(** ** The storage batch (server/storage.ts) *)

Section StorageFurther.
Import Server.

Lemma JsMap_NoDup_keys_set {V} (m : list (string * V)) k v :
  NoDup (JsMap.keys m) → NoDup (JsMap.keys (JsMap.set m k v)).
Proof.
  unfold JsMap.keys. induction m as [|[k0 v0] m IH]; simpl; intros Hnd.
  - apply NoDup_singleton.
  - apply NoDup_cons in Hnd as [Hk Hnd]. case_decide; simpl.
    + by apply NoDup_cons.
    + apply NoDup_cons. split; [|by apply IH].
      intros Hin. apply Hk.
      assert (Hs : is_Some (JsMap.get (JsMap.set m k v) k0))
        by by apply JsMap_get_keys.
      rewrite JsMap_get_set, decide_False in Hs by done.
      by apply JsMap_get_keys in Hs.
Qed.

Lemma uniqueMap_NoDup (l : list GameInstance) :
  NoDup (JsMap.keys (foldl (λ m inst, JsMap.set m (path inst) inst) [] l)).
Proof.
  induction l as [|x l IH] using rev_ind; [apply NoDup_nil_2|].
  rewrite foldl_app. simpl. by apply JsMap_NoDup_keys_set.
Qed.

Lemma uniqueInstancesList_paths (l : list GameInstance) :
  path <$> uniqueInstancesList l
  = JsMap.keys (foldl (λ m inst, JsMap.set m (path inst) inst) [] l).
Proof.
  unfold uniqueInstancesList, JsMap.values, JsMap.keys.
  pose proof (uniqueMap_keys l) as Hk.
  induction Hk as [|[k v] m Hkv Hm IH]; [done|].
  rewrite !fmap_cons. simpl in *. by rewrite Hkv, IH.
Qed.

(** The chunk loop started at a multiple of the chunk size returns the rest
    of the list from there, cut into pieces. *)
Lemma chunkLoop_concat {A} (l : list A) : ∀ (fuel i : nat),
  (length l ≤ i + fuel)%nat →
  concat (chunkLoop fuel i l) = drop i l
  ∧ Forall (λ c, 1 ≤ length c ≤ CHUNK_SIZE)%nat (chunkLoop fuel i l).
Proof.
  induction fuel as [|fuel IH]; intros i Hlen; simpl.
  - rewrite drop_ge by lia. by split.
  - case_decide as Hi.
    + destruct (IH (i + CHUNK_SIZE)%nat) as [Hc Hf];
        [unfold CHUNK_SIZE; lia|].
      simpl. rewrite Hc. split.
      * rewrite <- (drop_drop l CHUNK_SIZE i)%nat. apply take_drop.
      * constructor; [|done].
        rewrite length_take, length_drop. unfold CHUNK_SIZE. lia.
    + rewrite drop_ge by lia. by split.
Qed.

(** Cutting into chunks loses nothing: the chunks, in order, make up the
    list; none is empty and none is longer than 100. *)
Theorem storage_chunks_cover {A} (l : list A) :
  concat (chunks l) = l
  ∧ Forall (λ c, 1 ≤ length c ≤ CHUNK_SIZE)%nat (chunks l)
  ∧ (chunks l = [] ↔ l = []).
Proof.
  unfold chunks. destruct (chunkLoop_concat l (length l) 0) as [Hc Hf]; [lia|].
  rewrite drop_0 in Hc. split; [done|]. split; [done|]. split.
  - intros He. by rewrite He in Hc.
  - intros ->. done.
Qed.

(** One upsert per path: [addInstancesBatch] calls [addInstance] once for
    every path of the batch and for nothing else, each time with the last
    instance the batch holds for that path, paths in order of first
    appearance. *)
Theorem storage_batch_one_call_per_path (instances : list GameInstance) :
  let calls := addInstanceCalls instances in
  calls = uniqueInstancesList instances
  ∧ NoDup (path <$> calls)
  ∧ (∀ p, p ∈ path <$> calls ↔ p ∈ path <$> instances)
  ∧ (∀ p, nodeAt p calls = lastEntry p instances)
  ∧ (∀ x, x ∈ calls → x ∈ instances).
Proof.
  cbv zeta.
  assert (Hcalls : addInstanceCalls instances = uniqueInstancesList instances).
  { unfold addInstanceCalls. case_decide as H0.
    - by destruct instances.
    - case_decide as H1; [by destruct (uniqueInstancesList instances)|].
      unfold chunks.
      destruct (chunkLoop_concat (uniqueInstancesList instances)
                  (length (uniqueInstancesList instances)) 0) as [Hc _]; [lia|].
      by rewrite drop_0 in Hc. }
  rewrite Hcalls. split; [done|].
  assert (Hlast : ∀ p, nodeAt p (uniqueInstancesList instances)
                       = lastEntry p instances)
    by apply uniqueInstancesList_last_wins.
  split; [|split; [|split; [done|]]].
  - rewrite uniqueInstancesList_paths. apply uniqueMap_NoDup.
  - intros p. rewrite <- (reverse_involutive instances) at 2.
    rewrite fmap_reverse, elem_of_reverse.
    destruct (nodeAt p (uniqueInstancesList instances)) as [x|] eqn:Hx.
    + pose proof Hx as Hx'. rewrite Hlast in Hx'. unfold lastEntry in Hx'.
      apply nodeAt_Some in Hx as [Hx <-]. apply nodeAt_Some in Hx' as [Hx' _].
      split; intros _; apply list_elem_of_fmap; eauto.
    + pose proof Hx as Hx'. rewrite Hlast in Hx'. unfold lastEntry in Hx'.
      apply nodeAt_None in Hx. apply nodeAt_None in Hx'. tauto.
  - intros x Hx.
    assert (Hn : nodeAt (path x) (uniqueInstancesList instances) = Some x).
    { apply nodeAt_NoDup; [|done].
      rewrite uniqueInstancesList_paths. apply uniqueMap_NoDup. }
    rewrite Hlast in Hn. unfold lastEntry in Hn.
    apply nodeAt_Some in Hn as [Hn _]. by apply elem_of_reverse.
Qed.

End StorageFurther.

(** ** The producer: hashes, deltas and cycles *)

Section ProducerFurther.
Import Producer.

Implicit Types (current S : list InstanceData) (st : ClientState).
Implicit Types (prev : gmap string string) (p : string) (x : InstanceData).

Lemma createHash_sameContent a b : sameContent a b → createHash a = createHash b.
Proof. intros (H1 & H2 & _ & H4 & H5). unfold createHash. congruence. Qed.

Lemma currHashes_sameContent S S' :
  Forall2 sameContent S S' → currHashes S = currHashes S'.
Proof.
  intros H. unfold currHashes. generalize (∅ : gmap string string).
  induction H as [|a b S S' Hab _ IH]; intros m; simpl; [done|].
  rewrite (createHash_sameContent a b Hab).
  destruct Hab as (_ & _ & -> & _). apply IH.
Qed.

(** The identifier of a node is drawn afresh at every collection; the hash
    leaves it out (and [children] with it), so a snapshot that differs from
    the previous one only in identifiers yields the empty Delta and no
    request. *)
Theorem fresh_ids_are_no_change S S' st :
  Forall2 sameContent S S' →
  isSending st = false → isFirstSync st = false →
  previousInstances st = currHashes S →
  detectChanges (currHashes S) S' = mkChanges [] [] []
  ∧ (sendUpdates (Some S') st).2 = []
  ∧ previousInstances (sendUpdates (Some S') st).1 = currHashes S.
Proof.
  intros Hs H1 H2 H3. rewrite (currHashes_sameContent S S' Hs) in *.
  split; [apply detectChanges_same_snapshot|].
  unfold sendUpdates. rewrite H1, H2, H3, detectChanges_same_snapshot. done.
Qed.

Lemma fresh_ids_are_no_change_witness :
  let seen := mkInstanceData "inst_1111_5" "Lamp" "Part" "game.Workspace.Lamp"
                "Workspace" [("Anchored", PBool true)] [] in
  let again := mkInstanceData "inst_9042_6" "Lamp" "Part" "game.Workspace.Lamp"
                 "Workspace" [("Anchored", PBool true)] [] in
  (sendUpdates (Some [again])
     (mkClientState false false (currHashes [seen]))).2 = [].
Proof.
  cbv zeta.
  apply (fresh_ids_are_no_change
           [mkInstanceData "inst_1111_5" "Lamp" "Part" "game.Workspace.Lamp"
              "Workspace" [("Anchored", PBool true)] []]
           [mkInstanceData "inst_9042_6" "Lamp" "Part" "game.Workspace.Lamp"
              "Workspace" [("Anchored", PBool true)] []]).
  - repeat constructor.
  - reflexivity.
  - reflexivity.
  - reflexivity.
Defined.

(** The Delta and the previous table determine the next table: a removed
    path has no hash, an added or modified node has its own hash, and a
    path the Delta does not mention keeps the hash it had (or stays
    absent). *)
Theorem delta_determines_next_table prev current :
  let changes := detectChanges prev current in
  (∀ p, p ∈ removed changes → currHashes current !! p = None)
  ∧ (∀ x, x ∈ added changes ∨ x ∈ modified changes →
          currHashes current !! path x = Some (createHash x))
  ∧ (∀ p, p ∉ path <$> added changes → p ∉ path <$> modified changes →
          p ∉ removed changes →
          currHashes current !! p = prev !! p).
Proof.
  cbv zeta. split; [|split].
  - intros p [_ Hp]%removed_spec. rewrite currHashes_currByPath.
    apply currByPath_None in Hp. by rewrite Hp.
  - intros x [[Hx _]%added_spec|[Hx _]%modified_spec];
      by rewrite currHashes_currByPath, Hx.
  - intros p Ha Hm Hr. rewrite currHashes_currByPath.
    destruct (currByPath current !! p) as [x|] eqn:Hx; simpl.
    + pose proof (currByPath_Some _ _ _ Hx) as [_ <-].
      destruct (prev !! path x) as [h|] eqn:Hp.
      * destruct (decide (createHash x = h)) as [->|Hne]; [done|].
        exfalso. apply Hm. apply list_elem_of_fmap. exists x. split; [done|].
        apply modified_spec. eauto.
      * exfalso. apply Ha. apply list_elem_of_fmap. exists x. split; [done|].
        by apply added_spec.
    + destruct (prev !! p) as [h|] eqn:Hp; [|done].
      exfalso. apply Hr. apply removed_spec. split; [eauto|].
      by apply currByPath_None.
Qed.

Lemma runCycles_snoc cycles collected st :
  runCycles (cycles ++ [collected]) st
  = let acc := runCycles cycles st in
    let r := sendUpdates collected acc.1 in (r.1, acc.2 ++ [r.2]).
Proof. unfold runCycles. by rewrite foldl_app. Qed.

Lemma runCycles_from cycles : ∀ st sent,
  foldl (λ acc collected,
           let r := sendUpdates collected acc.1 in (r.1, acc.2 ++ [r.2]))
    (st, sent) cycles
  = ((runCycles cycles st).1, sent ++ (runCycles cycles st).2).
Proof.
  unfold runCycles. intros st sent.
  induction cycles as [|c cycles IH] using rev_ind; simpl.
  - by rewrite app_nil_r.
  - rewrite !foldl_app. simpl. rewrite IH. simpl. by rewrite app_assoc.
Qed.

Lemma runCycles_cons collected cycles st :
  runCycles (collected :: cycles) st
  = ((runCycles cycles (sendUpdates collected st).1).1,
     (sendUpdates collected st).2
     :: (runCycles cycles (sendUpdates collected st).1).2).
Proof. unfold runCycles at 1. simpl. by rewrite runCycles_from. Qed.

Lemma runCycles_after_first_sync cycles : ∀ st,
  isSending st = false → isFirstSync st = false →
  Forall incrementalOnly (runCycles cycles st).2.
Proof.
  induction cycles as [|c cycles IH]; intros st H1 H2.
  - constructor.
  - rewrite runCycles_cons. cbn [snd].
    assert (Hstep : incrementalOnly (sendUpdates c st).2
                    ∧ isSending (sendUpdates c st).1 = false
                    ∧ isFirstSync (sendUpdates c st).1 = false).
    { unfold sendUpdates. rewrite H1. destruct c as [current|]; simpl.
      - rewrite H2. split; [|done]. case_bool_decide; [right; eauto|by left].
      - split; [by left|done]. }
    destruct Hstep as (Hi & H1' & H2'). constructor; [done|]. by apply IH.
Qed.

(** The batched initial sync happens once, in the first cycle whose
    collection succeeds: cycles that fail before it send nothing and leave
    the sync pending, that cycle sends a ping and the batches of its
    snapshot, and every later cycle sends nothing or a single incremental
    update. *)
Theorem initial_sync_happens_once (failures : nat) S cycles :
  let r := runCycles (replicate failures None ++ Some S :: cycles) startState in
  ∃ later,
    r.2 = replicate failures [] ++ (Ping :: initialSyncBatches BATCH_SIZE S) :: later
    ∧ Forall incrementalOnly later
    ∧ length later = length cycles.
Proof.
  cbv zeta.
  assert (Hfail : ∀ n rest, runCycles (replicate n None ++ rest) startState
            = ((runCycles rest startState).1,
               replicate n [] ++ (runCycles rest startState).2)).
  { induction n as [|n IH]; intros rest; simpl; [by destruct (runCycles _ _)|].
    rewrite runCycles_cons. simpl. by rewrite IH. }
  rewrite Hfail, runCycles_cons. cbn [snd].
  eexists. split; [done|]. split.
  - by apply runCycles_after_first_sync.
  - clear. generalize (sendUpdates (Some S) startState).1.
    induction cycles as [|c cycles IH]; intros st; [done|].
    rewrite runCycles_cons. simpl. by rewrite IH.
Qed.

End ProducerFurther.

Section IncrementalHash.
Import Producer.

Lemma hashChars_range (chars : list ascii) :
  0 ≤ Incremental.hashChars chars < 2147483647.
Proof.
  unfold Incremental.hashChars.
  induction chars as [|c chars IH] using rev_ind; [done|].
  rewrite foldl_app. simpl. apply Z.mod_pos_bound. lia.
Qed.

Lemma createHash_hashChars inst :
  Incremental.createHash inst
  = Incremental.hashChars (list_ascii_of_string (Incremental.hashString inst)).
Proof. done. Qed.

(** The numeric hash of the incremental client stays in
    [0, 2147483647), and no step of its loop leaves the range in which
    Lua's numbers are exact: before the reduction the running value is
    below 2^53. *)
Theorem numeric_hash_is_exact inst :
  0 ≤ Incremental.createHash inst < 2147483647
  ∧ ∀ (chars : list ascii) (c : ascii),
      0 ≤ Incremental.hashChars chars * 31 + Z.of_nat (nat_of_ascii c) < 2 ^ 53
      ∧ Incremental.hashChars (chars ++ [c])
        = (Incremental.hashChars chars * 31 + Z.of_nat (nat_of_ascii c))
          `mod` 2147483647.
Proof.
  split; [rewrite createHash_hashChars; apply hashChars_range|].
  intros chars c. pose proof (hashChars_range chars) as Hr.
  assert (Hc : (nat_of_ascii c < 256)%nat) by apply nat_ascii_bounded.
  split; [lia|]. unfold Incremental.hashChars. by rewrite foldl_app.
Qed.

End IncrementalHash.

(** ** The reconciler: what every node of the map looks like *)

Section NodeInvariants.
Import TreeView.

Implicit Types (m : NodeMap) (k p : string) (n : TreeNode).

Lemma addInstanceNode_map (acc : NodeMap * gmap string string) inst :
  (addInstanceNode acc inst).1
  = JsMap.set acc.1 (Schema.path inst) (instanceNode inst).
Proof. done. Qed.

Lemma ensureService_map instances (acc : NodeMap * gmap string string) sv :
  (ensureService instances acc sv).1 = acc.1
  ∨ (ensureService instances acc sv).1
    = JsMap.set acc.1 ("game." +:+ sv) (serviceNode sv).
Proof. unfold ensureService. destruct (_ && _); [by right|by left]. Qed.

Section PerNode.
Variable instances : list GameInstance.
Variable P : string → TreeNode → Prop.
Hypothesis P_addChild : ∀ k n ck, P k n → P k (addChild ck n).
Hypothesis P_instance : ∀ inst, inst ∈ instances →
  P (Schema.path inst) (instanceNode inst).
Hypothesis P_game : P "game" gameRoot.
Hypothesis P_service : ∀ sv, sv ∈ essentialServices →
  P ("game." +:+ sv) (serviceNode sv).
Hypothesis P_placeholder : ∀ p (j : nat) parentNode,
  (1 ≤ j)%nat → (S j < length (split p))%nat →
  P (join (take j (split p))) parentNode →
  P (join (take (S j) (split p)))
    (placeholderNode (split p) j (join (take j (split p)))).

Lemma allNodes_set m k n : allNodes P m → P k n → allNodes P (JsMap.set m k n).
Proof.
  intros H Hn k' n'. rewrite JsMap_get_set. case_decide; [|by apply H].
  by intros [= <-]; subst.
Qed.

Lemma allNodes_push m pk ck : allNodes P m → allNodes P (pushChild m pk ck).
Proof.
  intros H k n'. rewrite pushChild_get. case_decide; [|by apply H].
  destruct (JsMap.get m k) as [n|] eqn:Hn; [|done]. intros [= <-].
  by apply P_addChild, H.
Qed.

Lemma allNodes_placeholder m p (j : nat) :
  allNodes P m → (1 ≤ j)%nat → (S j < length (split p))%nat →
  JsMap.get m (join (take (S j) (split p))) = None →
  is_Some (JsMap.get m (join (take j (split p)))) →
  allNodes P (addPlaceholder m (split p) j (join (take j (split p)))).
Proof.
  intros H Hj Hlen _ [pn Hpn]. unfold addPlaceholder.
  apply allNodes_push, allNodes_set; [done|].
  apply (P_placeholder p j pn); [done|done|]. by apply H.
Qed.

Lemma allNodes_prepare : allNodes P (prepare instances).1.
Proof using P_instance P_game P_service.
  clear P_addChild P_placeholder.
  unfold prepare.
  assert (H0 : allNodes P (foldl addInstanceNode ([], ∅) instances).1).
  { assert (Hg : ∀ l : list GameInstance, l ⊆ instances →
              ∀ acc : NodeMap * gmap string string, allNodes P acc.1 →
                   allNodes P (foldl addInstanceNode acc l).1).
    { induction l as [|x l IH]; intros Hl acc Ha; simpl; [done|].
      apply IH; [set_solver|]. rewrite addInstanceNode_map.
      apply allNodes_set; [done|]. apply P_instance. set_solver. }
    apply Hg; [done|]. by intros k n. }
  assert (H1 : allNodes P (ensureGame (foldl addInstanceNode ([], ∅) instances)).1).
  { unfold ensureGame. destruct (JsMap.has _ _); cbn [fst]; [done|].
    by apply allNodes_set. }
  revert H1. generalize (ensureGame (foldl addInstanceNode ([], ∅) instances)).
  assert (Hs : ∀ l : list string, l ⊆ essentialServices →
            ∀ acc : NodeMap * gmap string string, allNodes P acc.1 →
              allNodes P (foldl (ensureService instances) acc l).1).
  { induction l as [|sv l IH]; intros Hl acc Ha; simpl; [done|].
    apply IH; [set_solver|].
    destruct (ensureService_map instances acc sv) as [->| ->]; [done|].
    apply allNodes_set; [done|]. apply P_service. set_solver. }
  by apply Hs.
Qed.

Lemma allNodes_firstPass : allNodes P (nodeMap (firstPass instances)).
Proof.
  unfold firstPass. cbv zeta. generalize (JsMap.keys (prepare instances).1).
  assert (Hg : ∀ (l : list string) (st : Placement),
            allNodes P (nodeMap st) →
            allNodes P (nodeMap (foldl (placeFirst (prepare instances).2) st l))).
  { induction l as [|key l IH]; intros st Hs; simpl; [done|].
    apply IH. unfold placeFirst. destruct (truthy _).
    - destruct (JsMap.get _ _); cbn; [by apply allNodes_push|done].
    - by case_decide. }
  intros l. apply Hg. cbn. apply allNodes_prepare.
Qed.

Lemma allNodes_reconcile : allNodes P (reconcile instances).1.
Proof.
  unfold reconcile. cbv zeta.
  apply (placeOrphans_closed (allNodes P) allNodes_push allNodes_placeholder).
  cbn [fst]. apply allNodes_firstPass.
Qed.

End PerNode.

Lemma split_take_join p (c : nat) :
  (1 ≤ c ≤ length (split p))%nat →
  split (join (take c (split p))) = take c (split p).
Proof.
  intros Hc. apply split_join; [|apply Forall_take, split_dotfree].
  pose proof (split_nonempty p). destruct (split p), c; simpl in *; done || lia.
Qed.

Lemma parentPathOf_parentKey k :
  parentPathOf (split k)
  = if decide (1 < length (split k))%nat then Some (parentKey k) else None.
Proof. done. Qed.

Lemma parentKey_ancestor p (j : nat) :
  (S j ≤ length (split p))%nat → (1 ≤ j)%nat →
  parentKey (join (take (S j) (split p))) = join (take j (split p)).
Proof.
  intros Hlen Hj. unfold parentKey. rewrite split_take_join by lia.
  rewrite length_take, take_take. do 2 f_equal. lia.
Qed.

(** Every node of the reconciled map is stored under its own path; its
    [depth] is the number of path segments minus one, and its [parent] is
    the path one segment up ([null] for a single segment), whatever the
    instance's own [parent] field said. *)
Theorem nodes_follow_their_paths instances k n :
  JsMap.get (reconcile instances).1 k = Some n →
  path n = k
  ∧ depth n = Z.of_nat (length (split k)) - 1
  ∧ parent n = parentPathOf (split k).
Proof.
  revert k n.
  apply (allNodes_reconcile instances
           (λ k n, path n = k ∧ depth n = Z.of_nat (length (split k)) - 1
                   ∧ parent n = parentPathOf (split k))).
  - intros k n ck H. exact H.
  - intros inst _. done.
  - done.
  - intros sv Hsv. unfold essentialServices in Hsv.
    repeat (apply elem_of_cons in Hsv as [->|Hsv]; [done|]).
    by apply elem_of_nil in Hsv.
  - intros p j _ Hj Hlen _. cbn [placeholderNode path depth parent].
    split; [done|]. rewrite parentPathOf_parentKey, split_take_join by lia.
    rewrite length_take. split; [lia|].
    rewrite decide_True by lia. by rewrite parentKey_ancestor by lia.
Qed.

Lemma nodes_follow_their_paths_witness :
  ∃ n, JsMap.get (reconcile [Samples.deepLeaf]).1 "game.a.b" = Some n
       ∧ depth n = 2 ∧ parent n = Some "game.a".
Proof.
  destruct (JsMap.get (reconcile [Samples.deepLeaf]).1 "game.a.b") as [n|] eqn:Hn;
    [|by vm_compute in Hn].
  exists n. split; [done|].
  destruct (nodes_follow_their_paths [Samples.deepLeaf] "game.a.b" n Hn)
    as (_ & H2 & H3).
  split; [exact H2|exact H3].
Defined.

Lemma reconcile_flagged instances k n :
  JsMap.get (reconcile instances).1 k = Some n →
  children n ≠ [] → hasChildren n = true.
Proof.
  revert k n.
  apply (allNodes_reconcile instances
           (λ k n, children n ≠ [] → hasChildren n = true)); try done.
Qed.

(** A node with children is always flagged as having children, so the
    flattened view never treats it as a leaf. *)
Theorem nodes_with_children_are_flagged instances k n :
  JsMap.get (reconcile instances).1 k = Some n →
  children n ≠ [] → hasChildren n = true.
Proof. apply reconcile_flagged. Qed.

Lemma nodes_with_children_are_flagged_witness :
  ∃ n, JsMap.get (reconcile [Samples.deepLeaf]).1 "game.a" = Some n
       ∧ hasChildren n = true.
Proof.
  destruct (JsMap.get (reconcile [Samples.deepLeaf]).1 "game.a") as [n|] eqn:Hn;
    [|by vm_compute in Hn].
  exists n. split; [done|].
  apply (nodes_with_children_are_flagged [Samples.deepLeaf] "game.a" n Hn).
  vm_compute in Hn. injection Hn as <-. simpl. discriminate.
Defined.

End NodeInvariants.

(** ** Sibling order in the displayed tree *)

Section PlainNames.
Import TreeView.

Implicit Types (m : NodeMap) (k p : string) (n : TreeNode).

Local Abbreviation plainAt :=
  (λ (k : string) (n : TreeNode), plainNode n ∧ Forall plainName (split k)).

Lemma plainAt_service sv :
  sv ∈ essentialServices → plainAt ("game." +:+ sv) (serviceNode sv).
Proof.
  unfold essentialServices. intros Hsv.
  repeat (apply elem_of_cons in Hsv as [->|Hsv];
          [apply (bool_decide_unpack _); by vm_compute|]).
  by apply elem_of_nil in Hsv.
Qed.

Lemma plainAt_placeholder p (j : nat) pk :
  Forall plainName (split p) → (S j < length (split p))%nat →
  plainAt (join (take (S j) (split p))) (placeholderNode (split p) j pk).
Proof.
  intros Hp Hlen. split.
  - unfold plainNode. cbn [placeholderNode name].
    destruct (lookup_lt_is_Some_2 (split p) j) as [seg Hseg]; [lia|].
    rewrite (nth_lookup_Some _ _ _ _ Hseg).
    by eapply Forall_lookup_1.
  - rewrite split_take_join by lia. by apply Forall_take.
Qed.

Lemma intermediates_plain p (l : list nat) : ∀ (acc : NodeMap * string),
  Forall plainName (split p) →
  Forall (λ j : nat, (S j < length (split p))%nat) l →
  allNodes plainAt acc.1 →
  allNodes plainAt (foldl (addIntermediate (split p)) acc l).1.
Proof.
  induction l as [|j l IH]; intros [m pk] Hp Hl Hm; [done|].
  apply Forall_cons in Hl as [Hj Hl]. cbn [foldl].
  apply IH; [done|done|]. rewrite addIntermediate_unfold.
  destruct (JsMap.get m _); cbn [fst]; [done|].
  unfold addPlaceholder. apply allNodes_push; [by intros ? ? ? [? ?]|].
  apply allNodes_set; [done|]. by apply plainAt_placeholder.
Qed.

Lemma placeOrphan_plain (st : NodeMap * list string) o :
  Forall plainName (split o) →
  allNodes plainAt st.1 → allNodes plainAt (placeOrphan st o).1.
Proof.
  intros Ho Hm. unfold placeOrphan.
  destruct (findAncestor _ _ _) as [i|]; cbn [fst]; [|done].
  apply allNodes_push; [by intros ? ? ? [? ?]|].
  apply (intermediates_plain o _ (_, _)); [done| |done].
  apply Forall_forall. intros j [Hi Hj]%elem_of_seq. lia.
Qed.

Lemma placeFirst_orphans p2p (l : list string) : ∀ (st : Placement) o,
  o ∈ orphanNodes (foldl (placeFirst p2p) st l) → o ∈ orphanNodes st ∨ o ∈ l.
Proof.
  induction l as [|key l IH]; intros st o; simpl; [by left|].
  intros [Ho|Ho]%IH; [|right; by right].
  revert Ho. unfold placeFirst. destruct (truthy _).
  - destruct (JsMap.get _ _); cbn [orphanNodes]; [by left|].
    intros [?| ->%list_elem_of_singleton]%elem_of_app; [by left|right; by left].
  - case_decide; cbn [orphanNodes]; [by left|].
    intros [?| ->%list_elem_of_singleton]%elem_of_app; [by left|right; by left].
Qed.

(** Every node the reconciler stores has a plain name when the names and
    the path segments of the instances are plain. *)
Lemma reconcile_plain instances :
  plainInstances instances → allNodes plainAt (reconcile instances).1.
Proof.
  intros Hplain. unfold plainInstances in Hplain.
  rewrite Forall_forall in Hplain.
  assert (Hprep : allNodes plainAt (prepare instances).1).
  { apply allNodes_prepare.
    - intros inst Hin. apply (Hplain inst Hin).
    - apply (bool_decide_unpack _). by vm_compute.
    - apply plainAt_service. }
  assert (Hfirst : allNodes plainAt (nodeMap (firstPass instances))).
  { unfold firstPass. cbv zeta. generalize (JsMap.keys (prepare instances).1).
    assert (Hg : ∀ (l : list string) (st : Placement),
              allNodes plainAt (nodeMap st) →
              allNodes plainAt
                (nodeMap (foldl (placeFirst (prepare instances).2) st l))).
    { induction l as [|key l IH]; intros st Hs; simpl; [done|].
      apply IH. unfold placeFirst. destruct (truthy _).
      - destruct (JsMap.get _ _); cbn; [|done].
        apply allNodes_push; [by intros ? ? ? [? ?]|done].
      - by case_decide. }
    intros l. by apply Hg. }
  assert (Horph : Forall (λ o, Forall plainName (split o))
                    (orphanNodes (firstPass instances))).
  { apply Forall_forall. intros o Ho. unfold firstPass in Ho. cbv zeta in Ho.
    apply placeFirst_orphans in Ho as [Ho|Ho]; [by apply elem_of_nil in Ho|].
    apply JsMap_get_keys in Ho as [n Hn]. exact (proj2 (Hprep o n Hn)). }
  unfold reconcile. cbv zeta.
  assert (Hg : ∀ (l : list string) (st : NodeMap * list string),
            allNodes plainAt st.1 →
            Forall (λ o, Forall plainName (split o)) l →
            allNodes plainAt (foldl placeOrphan st l).1).
  { induction l as [|o l IH]; intros st Hst Hl; simpl; [done|].
    apply Forall_cons in Hl as [Ho Hl].
    apply IH; [|done]. by apply placeOrphan_plain. }
  by apply Hg.
Qed.

Lemma materialize_every (P : TreeNode → Prop) m :
  allNodes (λ _ n, P n) m →
  ∀ (fuel : nat) k t, materialize fuel m k = Some t → everyNode P t.
Proof.
  intros Hm. induction fuel as [|fuel IH]; intros k t; simpl; [done|].
  destruct (JsMap.get m k) as [n|] eqn:Hn; [|done]. intros [= <-].
  apply everyNode_unfold. split; [by apply (Hm k n)|].
  apply Forall_forall. intros t' (ck & _ & Ht')%list_elem_of_omap.
  by eapply IH.
Qed.

Lemma treeData_plain localeCompare instances :
  plainInstances instances →
  Forall (everyNode plainNode) (treeData localeCompare instances).
Proof.
  intros Hplain. unfold treeData. case_decide; [constructor|]. cbv zeta.
  apply sortTree_every, Forall_forall.
  intros t (k & _ & Ht)%list_elem_of_omap.
  eapply (materialize_every plainNode); [|exact Ht].
  intros k' n' Hn'. by apply (reconcile_plain instances Hplain k' n').
Qed.

Lemma unsorted_plain instances :
  plainInstances instances →
  Forall (everyNode plainNode)
    (omap (materialize (S (length (reconcile instances).1))
             (reconcile instances).1) (reconcile instances).2).
Proof.
  intros Hplain. apply Forall_forall.
  intros t (k & _ & Ht)%list_elem_of_omap.
  eapply (materialize_every plainNode); [|exact Ht].
  intros k' n' Hn'. by apply (reconcile_plain instances Hplain k' n').
Qed.

End PlainNames.

(** C8, as the code has it.  [sortTree] uses one comparator for every
    array it sorts.  For a consistent [localeCompare] and names that the
    [priorities] object inherits no member for, the top-level array and the
    children array of every node at every depth are ordered by the fixed
    priority of the well-known names first and by [localeCompare] of the
    names among equal priorities; sorting only permutes each array.  This
    holds of the displayed tree of every collection whose names and path
    segments are such names.  (For the other names the comparator is [NaN],
    see [inherited_member_compares_as_nan].) *)
Theorem every_sibling_group_ordered_by_priority_then_name
    (localeCompare : string → string → Z) :
  (∀ a b, 0 < localeCompare a b → localeCompare b a ≤ 0) →
  (∀ a b c, localeCompare a b ≤ 0 → localeCompare b c ≤ 0 →
            localeCompare a c ≤ 0) →
  (∀ nodes,
     Forall (TreeView.everyNode TreeView.plainNode) nodes →
     StronglySorted (TreeView.ordered localeCompare)
       (TreeView.sortTree localeCompare nodes)
     ∧ Forall (TreeView.allGroups
                 (StronglySorted (TreeView.ordered localeCompare)))
         (TreeView.sortTree localeCompare nodes)
     ∧ TreeView.sortTree localeCompare nodes
       ≡ₚ TreeView.sortNode localeCompare <$> nodes)
  ∧ (∀ instances,
       TreeView.plainInstances instances →
       StronglySorted (TreeView.ordered localeCompare)
         (TreeView.treeData localeCompare instances)
       ∧ Forall (TreeView.allGroups
                   (StronglySorted (TreeView.ordered localeCompare)))
           (TreeView.treeData localeCompare instances))
  ∧ (∀ a b,
       TreeView.plainNode (TreeView.rootOf a) →
       TreeView.plainNode (TreeView.rootOf b) →
       TreeView.ordered localeCompare a b
       ↔ TreeView.priorityOf (TreeView.name (TreeView.rootOf a))
         < TreeView.priorityOf (TreeView.name (TreeView.rootOf b))
         ∨ (TreeView.priorityOf (TreeView.name (TreeView.rootOf a))
            = TreeView.priorityOf (TreeView.name (TreeView.rootOf b))
            ∧ localeCompare (TreeView.name (TreeView.rootOf a))
                (TreeView.name (TreeView.rootOf b)) ≤ 0)).
Proof.
  intros Htot Htrans. split; [|split].
  - intros nodes Hplain. by apply sortTree_sorted.
  - intros instances Hplain. unfold TreeView.treeData. case_decide.
    + split; constructor.
    + cbv zeta. pose proof (unsorted_plain instances Hplain) as Hall.
      split; by apply sortTree_sorted.
  - intros a b Ha Hb. by apply ordered_spec.
Qed.

Section SortScenarios.
Import TreeView Samples.

Lemma asciiCompare_antisym a b : asciiCompare b a = - asciiCompare a b.
Proof.
  revert b. induction a as [|c a IH]; intros [|d b]; simpl; try done.
  destruct (Nat.ltb_spec (foldCase c) (foldCase d));
    destruct (Nat.ltb_spec (foldCase d) (foldCase c)); try lia; done.
Qed.

Lemma asciiCompare_total a b : 0 < asciiCompare a b → asciiCompare b a ≤ 0.
Proof. rewrite asciiCompare_antisym. lia. Qed.

Lemma asciiCompare_trans a b c :
  asciiCompare a b ≤ 0 → asciiCompare b c ≤ 0 → asciiCompare a c ≤ 0.
Proof.
  revert b c. induction a as [|x a IH]; intros [|y b] [|z c]; simpl;
    try done; try lia.
  destruct (Nat.ltb_spec (foldCase x) (foldCase y));
    destruct (Nat.ltb_spec (foldCase y) (foldCase x));
    destruct (Nat.ltb_spec (foldCase y) (foldCase z));
    destruct (Nat.ltb_spec (foldCase z) (foldCase y));
    destruct (Nat.ltb_spec (foldCase x) (foldCase z));
    destruct (Nat.ltb_spec (foldCase z) (foldCase x));
    try lia; try done; eapply IH; eassumption.
Qed.

Lemma every_sibling_group_ordered_witness :
  Forall (allGroups (StronglySorted (ordered asciiCompare)))
    (treeData asciiCompare folderSnapshot).
Proof.
  destruct (every_sibling_group_ordered_by_priority_then_name asciiCompare
              asciiCompare_total asciiCompare_trans) as (_ & H & _).
  apply (H folderSnapshot). apply (bool_decide_unpack _). by vm_compute.
Defined.

(** C8, as the specification words it, fails: under [game.Workspace],
    which is not the root, the folder named [Players] is shown before the
    folder named [Apple], although [Apple] comes first alphabetically. *)
Lemma deep_siblings_follow_priority :
  childNames "game.Workspace" (treeData asciiCompare folderSnapshot)
  = ["Players"; "Apple"]
  ∧ childNames "game" (treeData asciiCompare folderSnapshot) = ["Workspace"]
  ∧ asciiCompare "Apple" "Players" < 0
  ∧ ¬ Sorted (λ a b, asciiCompare a b ≤ 0)
        (childNames "game.Workspace" (treeData asciiCompare folderSnapshot)).
Proof.
  assert (Hc : childNames "game.Workspace" (treeData asciiCompare folderSnapshot)
               = ["Players"; "Apple"]) by by vm_compute.
  rewrite Hc. split; [done|]. split; [by vm_compute|]. split; [by vm_compute|].
  intros Hs. inversion Hs as [|? ? _ Hhd]; subst.
  inversion Hhd as [|? ? Hle]; subst. vm_compute in Hle. by apply Hle.
Qed.

End SortScenarios.

(** ** The reconciler: the tree follows the paths *)

Section TreeShape.
Import TreeView.

Implicit Types (m : NodeMap) (k p : string) (n : TreeNode).
Implicit Types (instances : list GameInstance).

Lemma childrenAreOneDown_push m ck :
  childrenAreOneDown m → (2 ≤ length (split ck))%nat →
  childrenAreOneDown (pushChild m (parentKey ck) ck).
Proof.
  intros H Hlen pk n c. rewrite pushChild_get. case_decide as Hd.
  - destruct (JsMap.get m pk) as [n0|] eqn:Hn; [|done]. intros [= <-].
    simpl. rewrite elem_of_app, list_elem_of_singleton.
    intros [Hc| ->]; [by eapply H|done].
  - apply H.
Qed.

Lemma childrenAreOneDown_set m k n :
  childrenAreOneDown m → children n = [] →
  childrenAreOneDown (JsMap.set m k n).
Proof.
  intros H Hn pk n' c. rewrite JsMap_get_set. case_decide; [|apply H].
  intros [= <-]. rewrite Hn. by intros ?%elem_of_nil.
Qed.

Lemma childrenAreOneDown_placeholder m p (j : nat) :
  childrenAreOneDown m → (1 ≤ j)%nat → (S j < length (split p))%nat →
  childrenAreOneDown (addPlaceholder m (split p) j (join (take j (split p)))).
Proof.
  intros H Hj Hlen. unfold addPlaceholder.
  rewrite <- (parentKey_ancestor p j) at 2 by lia.
  apply childrenAreOneDown_push.
  - by apply childrenAreOneDown_set.
  - rewrite split_take_join, length_take by lia. lia.
Qed.

Lemma placeOrphan_oneDown (st : NodeMap * list string) o :
  childrenAreOneDown st.1 → childrenAreOneDown (placeOrphan st o).1.
Proof.
  intros HI. unfold placeOrphan.
  destruct (findAncestor _ _ _) as [i|] eqn:Hf; cbn [fst snd]; [|done].
  apply findAncestor_Some in Hf as [Hi Hs].
  destruct (intermediates_closed childrenAreOneDown
              (λ m p j H Hj Hl _ _, childrenAreOneDown_placeholder m p j H Hj Hl)
              o (length (split o) - 1 - S i) st.1 i)
    as (H1 & _ & H3 & _); [done|done|lia|]. cbv zeta in H1, H3.
  replace (S i + (length (split o) - 1 - S i))%nat
    with (length (split o) - 1)%nat in H3 by lia.
  rewrite H3. apply childrenAreOneDown_push; [done|lia].
Qed.

Lemma computedParent_oneUp k pp :
  computedParent k = Some pp →
  pp = parentKey k ∧ (2 ≤ length (split k))%nat.
Proof.
  unfold computedParent. rewrite parentPathOf_parentKey.
  case_decide; simpl; [|done]. case_bool_decide; [|done].
  intros [= <-]. split; [done|lia].
Qed.

Lemma prepare_oneUp instances : parentsAreOneUp (prepare instances).2.
Proof.
  unfold prepare.
  assert (H0 : parentsAreOneUp (foldl addInstanceNode ([], ∅) instances).2).
  { assert (Hg : ∀ acc : NodeMap * gmap string string, parentsAreOneUp acc.2 →
                   parentsAreOneUp (foldl addInstanceNode acc instances).2).
    { induction instances as [|x l IH]; intros acc Ha; simpl; [done|].
      apply IH. rewrite addInstanceNode_p2p.
      destruct (computedParent (Schema.path x)) as [pp|] eqn:Hx; [|done].
      intros k pp'. rewrite lookup_insert_Some.
      intros [[<- <-]|[_ Hk]]; [by apply computedParent_oneUp|by apply Ha]. }
    apply Hg. by intros k pp. }
  assert (H1 : parentsAreOneUp
                 (ensureGame (foldl addInstanceNode ([], ∅) instances)).2).
  { unfold ensureGame. destruct (JsMap.has _ _); cbn [snd]; [done|].
    intros k pp [_ Hk]%lookup_delete_Some. by apply H0. }
  revert H1. generalize (ensureGame (foldl addInstanceNode ([], ∅) instances)).
  assert (Hs : ∀ l : list string, l ⊆ essentialServices →
            ∀ acc : NodeMap * gmap string string, parentsAreOneUp acc.2 →
              parentsAreOneUp (foldl (ensureService instances) acc l).2).
  { induction l as [|sv l IH]; intros Hl acc Ha; simpl; [done|].
    apply IH; [set_solver|].
    unfold ensureService. destruct (_ && _); cbn [snd]; [|done].
    intros k pp. rewrite lookup_insert_Some.
    intros [[<- <-]|[_ Hk]]; [|by apply Ha].
    assert (Hsv : sv ∈ essentialServices) by set_solver.
    unfold essentialServices in Hsv.
    repeat (apply elem_of_cons in Hsv as [->|Hsv]; [by split; [done|simpl; lia]|]).
    by apply elem_of_nil in Hsv. }
  by apply Hs.
Qed.

Lemma prepare_childless instances k n :
  JsMap.get (prepare instances).1 k = Some n → children n = [].
Proof.
  revert k n. by apply (allNodes_prepare instances (λ _ n, children n = [])).
Qed.

Lemma firstPass_oneDown p2p (l : list string) :
  parentsAreOneUp p2p → ∀ st : Placement,
  childrenAreOneDown (nodeMap st) →
  childrenAreOneDown (nodeMap (foldl (placeFirst p2p) st l)).
Proof.
  intros Hp. induction l as [|key l IH]; intros st Hs; simpl; [done|].
  apply IH. unfold placeFirst.
  destruct (p2p !! key) as [pp|] eqn:Hk; cbn [truthy default].
  - case_bool_decide; unfold Datatypes.id.
    + destruct (JsMap.get _ _); cbn; [|done].
      destruct (Hp _ _ Hk) as [-> Hlen]. by apply childrenAreOneDown_push.
    + by case_decide.
  - by case_decide.
Qed.

Lemma reconcile_oneDown instances :
  childrenAreOneDown (reconcile instances).1.
Proof.
  unfold reconcile. cbv zeta.
  assert (Hg : ∀ (l : list string) (st : NodeMap * list string),
            childrenAreOneDown st.1 →
            childrenAreOneDown (foldl placeOrphan st l).1).
  { induction l as [|o l IH]; intros st Hs; simpl; [done|].
    by apply IH, placeOrphan_oneDown. }
  apply Hg. cbn [fst]. unfold firstPass. cbv zeta.
  apply firstPass_oneDown; [apply prepare_oneUp|]. cbn [nodeMap].
  intros pk n ck Hn. rewrite (prepare_childless _ _ _ Hn).
  by intros ?%elem_of_nil.
Qed.

(** A node appears only in the children of the node stored at its parent
    path (its own path minus the last segment), and only nodes with at
    least two segments are ever attached: the tree shape is read from the
    paths alone. *)
Theorem children_hang_under_parent_path instances pk ck :
  attached (reconcile instances).1 pk ck →
  pk = parentKey ck ∧ (2 ≤ length (split ck))%nat.
Proof. intros (n & Hn & Hc). by eapply reconcile_oneDown. Qed.

Lemma children_hang_under_parent_path_witness :
  "game.a" = parentKey "game.a.b" ∧ (2 ≤ length (split "game.a.b"))%nat.
Proof.
  apply (children_hang_under_parent_path [Samples.deepLeaf]).
  eexists. split; [vm_compute; reflexivity|]. simpl. by left.
Defined.

(** *** No node is dropped *)

Lemma firstPass_placed p2p (l : list string) :
  parentsAreOneUp p2p → ∀ (st : Placement) key, key ∈ l →
  let r := foldl (placeFirst p2p) st l in
  (key = "game" ∧ key ∈ rootNodes r) ∨ key ∈ orphanNodes r
  ∨ attached (nodeMap r) (parentKey key) key.
Proof.
  intros Hp. induction l as [|key' l IH]; intros st key Hk.
  - by apply elem_of_nil in Hk.
  - cbv zeta. cbn [foldl].
    destruct (decide (key = key')) as [<-|Hd].
    + destruct (firstPass_facts p2p l (placeFirst p2p st key))
        as (H5 & _ & H7 & H8). cbv zeta in *.
      revert H5 H7 H8. generalize (foldl (placeFirst p2p) (placeFirst p2p st key) l).
      intros r H5 H7 H8. unfold placeFirst in *.
      destruct (p2p !! key) as [pp|] eqn:Hpp; cbn [truthy default] in *.
      * case_bool_decide; unfold Datatypes.id in *.
        -- destruct (JsMap.get (nodeMap st) pp) eqn:Hg; cbn in *.
           ++ right. right. destruct (Hp _ _ Hpp) as [-> _].
              eapply attached_extends; [exact H5|].
              apply pushChild_attached. by rewrite Hg.
           ++ right. left. eapply elem_of_prefix; [|exact H8].
              apply elem_of_app. right. by left.
        -- destruct (Hp _ _ Hpp) as [_ Hlen].
           case_decide; [subst; simpl in Hlen; lia|]. cbn in *.
           right. left. eapply elem_of_prefix; [|exact H8].
           apply elem_of_app. right. by left.
      * case_decide; cbn in *.
        -- left. split; [done|]. eapply elem_of_prefix; [|exact H7].
           apply elem_of_app. right. by left.
        -- right. left. eapply elem_of_prefix; [|exact H8].
           apply elem_of_app. right. by left.
    + apply elem_of_cons in Hk as [?|Hk]; [done|]. by apply IH.
Qed.


Lemma addedAreAttached_push m0 m pk ck :
  addedAreAttached m0 m → addedAreAttached m0 (pushChild m pk ck).
Proof.
  intros H k Hk.
  assert (Hm : is_Some (JsMap.get m k)).
  { rewrite pushChild_get in Hk. case_decide; [|done].
    by apply fmap_is_Some in Hk. }
  destruct (H k Hm) as [?|Ha]; [by left|right].
  eapply attached_extends; [apply pushChild_extends|done].
Qed.

Lemma addedAreAttached_placeholder m0 m p (j : nat) :
  addedAreAttached m0 m → (1 ≤ j)%nat → (S j < length (split p))%nat →
  JsMap.get m (join (take (S j) (split p))) = None →
  is_Some (JsMap.get m (join (take j (split p)))) →
  addedAreAttached m0 (addPlaceholder m (split p) j (join (take j (split p)))).
Proof.
  intros H Hj Hlen Hq Hpk k Hk.
  destruct (decide (join (take (S j) (split p)) = k)) as [<-|Hne].
  - right. rewrite parentKey_ancestor by lia.
    by apply addPlaceholder_attached.
  - assert (Hm : is_Some (JsMap.get m k)).
    { rewrite addPlaceholder_get in Hk. cbv zeta in Hk.
      destruct (decide (join (take (S j) (split p)) = k)); [done|].
      case_decide; [|done]. by apply fmap_is_Some in Hk. }
    destruct (H k Hm) as [?|Ha]; [by left|right].
    eapply attached_extends; [by apply addPlaceholder_extends|done].
Qed.

Lemma reconcile_placed instances k :
  is_Some (JsMap.get (reconcile instances).1 k) →
  "game" ∈ (reconcile instances).2
  ∧ (k ∈ (reconcile instances).2
     ∨ attached (reconcile instances).1 (parentKey k) k).
Proof.
  intros Hk. unfold reconcile in *. cbv zeta in *.
  set (first := firstPass instances) in *.
  destruct (placeOrphans_closed (addedAreAttached (nodeMap first))
              (addedAreAttached_push (nodeMap first))
              (addedAreAttached_placeholder (nodeMap first))
              (orphanNodes first) (nodeMap first, rootNodes first))
    as (HI & Hext & Hpre); [by left|]. cbn [fst snd] in *.
  assert (Hfirst : ∀ key, is_Some (JsMap.get (nodeMap first) key) →
            (key = "game" ∧ key ∈ rootNodes first) ∨ key ∈ orphanNodes first
            ∨ attached (nodeMap first) (parentKey key) key).
  { intros key Hkey. unfold first, firstPass. cbv zeta.
    apply firstPass_placed; [apply prepare_oneUp|].
    apply JsMap_get_keys. apply not_eq_None_Some. intros Hn.
    apply (proj1 (proj2 (firstPass_facts (prepare instances).2
                           (JsMap.keys (prepare instances).1)
                           (mkPlacement (prepare instances).1 [] [])))) in Hn.
    apply eq_None_not_Some in Hn. by apply Hn. }
  split.
  - destruct (Hfirst "game" (firstPass_game instances)) as [[_ H]|[H|H]].
    + by eapply elem_of_prefix.
    + pose proof (orphan_kept (orphanNodes first)
                    (nodeMap first, rootNodes first) "game" H) as Hkept.
      cbv zeta in Hkept. destruct Hkept as ([?|Ha] & _); [done|].
      destruct Ha as (n & Hn & Hc).
      destruct (reconcile_oneDown instances _ _ _ Hn Hc) as [_ Hlen].
      simpl in Hlen. lia.
    + destruct H as (n & Hn & Hc).
      destruct (Hext _ _ Hn) as (n' & Hn' & Hs).
      assert (Hc' : "game" ∈ children n').
      { destruct Hs as (_&_&_&_&_&_&_&Hp). by eapply elem_of_prefix. }
      destruct (reconcile_oneDown instances _ _ _ Hn' Hc') as [_ Hlen].
      simpl in Hlen. lia.
  - destruct (HI k Hk) as [H0|Ha]; [|by right].
    destruct (Hfirst k H0) as [[_ H]|[H|H]].
    + left. by eapply elem_of_prefix.
    + pose proof (orphan_kept (orphanNodes first)
                    (nodeMap first, rootNodes first) k H) as Hkept.
      cbv zeta in Hkept. by destruct Hkept as (? & _).
    + right. by eapply attached_extends.
Qed.

(** Every node of the reconciled map is shown: it is a top-level node or
    it is among the children of the node at its parent path.  The root
    ["game"] is always among the top-level nodes. *)
Theorem every_node_is_placed instances k :
  is_Some (JsMap.get (reconcile instances).1 k) →
  "game" ∈ (reconcile instances).2
  ∧ (k ∈ (reconcile instances).2
     ∨ attached (reconcile instances).1 (parentKey k) k).
Proof. apply reconcile_placed. Qed.

Lemma every_node_is_placed_witness :
  "game" ∈ (reconcile [Samples.deepLeaf]).2
  ∧ ("game.a.b" ∈ (reconcile [Samples.deepLeaf]).2
     ∨ attached (reconcile [Samples.deepLeaf]).1 (parentKey "game.a.b")
         "game.a.b").
Proof.
  apply (every_node_is_placed [Samples.deepLeaf] "game.a.b").
  vm_compute. eauto.
Defined.

End TreeShape.

(** ** The reconciler on a snapshot that comes with all its parents *)

Section CompleteSnapshots.
Import TreeView.

Implicit Types (m : NodeMap) (k p : string) (n : TreeNode).
Implicit Types (instances : list GameInstance).

Lemma join_split p : join (split p) = p.
Proof.
  unfold join. induction p as [|c p IH]; simpl; [done|].
  pose proof (split_nonempty p) as Hne.
  case_decide as Hc.
  - subst c. destruct (split p) as [|y l]; [done|].
    change (String.concat "." (EmptyString :: y :: l))
      with (String "." (String.concat "." (y :: l))).
    by rewrite IH.
  - destruct (split p) as [|y [|z l]]; [done| |].
    + simpl in *. by rewrite IH.
    + change (String.concat "." (String c y :: z :: l))
        with (String c (String.concat "." (y :: z :: l))).
      by rewrite IH.
Qed.

Lemma string_prefix_app a p :
  String.prefix a p = true → ∃ rest, p = a +:+ rest.
Proof.
  revert p. induction a as [|c a IH]; intros p.
  - by exists p.
  - destruct p as [|c' p]; simpl; [done|].
    destruct (Ascii.ascii_dec c c') as [->|]; [|done].
    intros [rest ->]%IH. by exists rest.
Qed.

Lemma string_app_assoc (a b c : string) : (a +:+ b) +:+ c = a +:+ (b +:+ c).
Proof.
  induction a as [|x a IH]; [done|].
  change (String x ((a +:+ b) +:+ c) = String x (a +:+ (b +:+ c))).
  by f_equal.
Qed.

Lemma ancestors_present instances :
  parentClosed instances →
  ∀ (len : nat) p, length (split p) = len → p ∈ Schema.path <$> instances →
  ∀ c : nat, (1 ≤ c ≤ len)%nat →
    join (take c (split p)) = "game"
    ∨ join (take c (split p)) ∈ Schema.path <$> instances.
Proof.
  intros Hclosed. induction len as [|len IH]; intros p Hlen Hp c Hc; [lia|].
  destruct (decide (c = S len)) as [->|Hne].
  - right. rewrite <- Hlen, firstn_all, join_split. done.
  - pose proof Hp as Hp'. apply list_elem_of_fmap in Hp' as (inst & -> & Hin).
    destruct (Hclosed inst Hin) as [Hg|(pp & Hpp & Hor)].
    + rewrite Hg in Hlen. simpl in Hlen. lia.
    + apply computedParent_oneUp in Hpp as [Hpp Hlen2].
      assert (Hs : split pp = take len (split (Schema.path inst))).
      { rewrite Hpp. unfold parentKey. rewrite Hlen.
        replace (S len - 1)%nat with len by lia.
        apply split_take_join. lia. }
      assert (Ht : take c (split (Schema.path inst)) = take c (split pp)).
      { rewrite Hs, take_take. f_equal. lia. }
      rewrite Ht. destruct Hor as [Hgame|Hin'].
      * left. rewrite Hgame in *. simpl in Hs.
        assert (len = 1)%nat.
        { apply (f_equal length) in Hs. rewrite length_take in Hs.
          simpl in Hs. lia. }
        replace c with 1%nat by lia. done.
      * apply (IH pp); [|done|lia].
        rewrite Hs, length_take. lia.
Qed.

Lemma service_not_needed instances sv :
  parentClosed instances → sv ∈ essentialServices →
  existsb (λ inst, String.prefix (("game." +:+ sv) +:+ ".") (Schema.path inst)
                   || bool_decide (Schema.path inst = "game." +:+ sv))
    instances = true →
  "game." +:+ sv ∈ Schema.path <$> instances.
Proof.
  intros Hclosed Hsv (inst & Hin%list_elem_of_In & Hor)%existsb_exists.
  apply orb_true_iff in Hor as [Hpre|Heq].
  - apply string_prefix_app in Hpre as [rest Hrest].
    assert (Hd : dotfree sv).
    { unfold essentialServices in Hsv.
      repeat (apply elem_of_cons in Hsv as [->|Hsv]; [by repeat split|]).
      by apply elem_of_nil in Hsv. }
    assert (Hsplit : split (Schema.path inst) = "game" :: sv :: split rest).
    { rewrite Hrest, !string_app_assoc.
      change ("game." +:+ sv +:+ "." +:+ rest)
        with ("game" +:+ "." +:+ (sv +:+ "." +:+ rest)).
      rewrite split_app_dot by by repeat split.
      by rewrite split_app_dot. }
    pose proof (split_length rest) as Hl.
    destruct (ancestors_present instances Hclosed
                (length (split (Schema.path inst))) (Schema.path inst) eq_refl
                ltac:(by apply list_elem_of_fmap_2) 2) as [H|H].
    + rewrite Hsplit. simpl. lia.
    + rewrite Hsplit in H. discriminate H.
    + rewrite Hsplit in H. exact H.
  - apply bool_decide_eq_true in Heq. rewrite <- Heq.
    by apply list_elem_of_fmap_2.
Qed.

Lemma prepare_closed instances :
  parentClosed instances →
  prepare instances = ensureGame (foldl addInstanceNode ([], ∅) instances).
Proof.
  intros Hclosed. unfold prepare.
  assert (H0 : ∀ k, k ∈ Schema.path <$> instances →
            is_Some (JsMap.get
              (ensureGame (foldl addInstanceNode ([], ∅) instances)).1 k)).
  { intros k Hk. apply ensureGame_hasKey. right. apply built_hasKey. by right. }
  revert H0. generalize (ensureGame (foldl addInstanceNode ([], ∅) instances)).
  intros acc Hacc.
  assert (Hs : ∀ l : list string, l ⊆ essentialServices →
            foldl (ensureService instances) acc l = acc).
  { induction l as [|sv l IH]; intros Hl; simpl; [done|].
    assert (Hstep : ensureService instances acc sv = acc).
    { unfold ensureService.
      destruct (existsb _ instances) eqn:He; simpl; [|done].
      apply service_not_needed in He; [|done|set_solver].
      apply Hacc, JsMap_has_true in He. by rewrite He. }
    rewrite Hstep. apply IH. set_solver. }
  by apply Hs.
Qed.

Lemma firstPass_all_placed p2p (l : list string) : ∀ st : Placement,
  (∀ key, key ∈ l →
     (key = "game" ∧ p2p !! key = None)
     ∨ (key ≠ "game"
        ∧ ∃ pp, p2p !! key = Some pp ∧ pp ≠ EmptyString
                ∧ is_Some (JsMap.get (nodeMap st) pp))) →
  rootNodes (foldl (placeFirst p2p) st l)
  = rootNodes st ++ filter (λ key, key = "game") l
  ∧ orphanNodes (foldl (placeFirst p2p) st l) = orphanNodes st.
Proof.
  induction l as [|key l IH]; intros st Hall; simpl.
  - by rewrite app_nil_r.
  - destruct (placeFirst_facts p2p st key) as (Hext & _).
    destruct (IH (placeFirst p2p st key)) as [H1 H2].
    { intros key' Hk'. destruct (Hall key') as [?|(Hne & pp & ? & ? & ?)];
        [set_solver|by left|].
      right. split; [done|]. exists pp. split; [done|]. split; [done|].
      by eapply extends_is_Some. }
    rewrite H1, H2. rewrite filter_cons.
    destruct (Hall key) as [[-> Hn]|(Hne & pp & Hpp & Hnz & [x Hx])];
      [set_solver| |].
    + unfold placeFirst. rewrite Hn. cbn [truthy].
      rewrite !decide_True by done. cbn. by rewrite <- app_assoc.
    + unfold placeFirst. rewrite Hpp. cbn [truthy default].
      rewrite bool_decide_eq_true_2 by done. unfold Datatypes.id.
      rewrite Hx. cbn. by rewrite decide_False by done.
Qed.

Lemma filter_the_one (l : list string) (x : string) :
  NoDup l → x ∈ l → filter (λ key, key = x) l = [x].
Proof.
  induction l as [|y l IH]; intros Hnd Hx; [by apply elem_of_nil in Hx|].
  apply NoDup_cons in Hnd as [Hy Hnd]. rewrite filter_cons.
  case_decide as Hd.
  - subst y. f_equal. clear IH Hnd Hx.
    induction l as [|z l IH]; [done|]. rewrite filter_cons.
    apply not_elem_of_cons in Hy as [Hz Hy].
    rewrite decide_False by done. by apply IH.
  - apply IH; [done|]. by apply elem_of_cons in Hx as [?|?].
Qed.

Lemma built_NoDup instances : ∀ acc : NodeMap * gmap string string,
  NoDup (JsMap.keys acc.1) →
  NoDup (JsMap.keys (foldl addInstanceNode acc instances).1).
Proof.
  induction instances as [|x l IH]; intros acc Ha; simpl; [done|].
  apply IH. rewrite addInstanceNode_map. by apply JsMap_NoDup_keys_set.
Qed.

Lemma computedParent_truthy p pp : computedParent p = Some pp → pp ≠ EmptyString.
Proof.
  unfold computedParent. destruct (parentPathOf _) as [x|]; simpl; [|done].
  case_bool_decide; [|done]. by intros [= <-].
Qed.

Lemma parentClosed_no_repair instances :
  parentClosed instances →
  orphanNodes (firstPass instances) = []
  ∧ (reconcile instances).2 = ["game"]
  ∧ ∀ k, is_Some (JsMap.get (reconcile instances).1 k)
         ↔ k = "game" ∨ k ∈ Schema.path <$> instances.
Proof.
  intros Hclosed.
  set (built := foldl addInstanceNode ([], ∅) instances).
  assert (Hprep : prepare instances = ensureGame built)
    by by apply prepare_closed.
  assert (Hkeys : ∀ k, is_Some (JsMap.get (prepare instances).1 k)
                       ↔ k = "game" ∨ k ∈ Schema.path <$> instances).
  { intros k. rewrite Hprep, ensureGame_hasKey. unfold built.
    rewrite built_hasKey. simpl. naive_solver. }
  assert (Hnd : NoDup (JsMap.keys (prepare instances).1)).
  { rewrite Hprep. unfold ensureGame.
    assert (NoDup (JsMap.keys built.1))
      by (apply built_NoDup; apply NoDup_nil_2).
    destruct (JsMap.has _ _); cbn [fst]; [done|].
    by apply JsMap_NoDup_keys_set. }
  assert (Hplaced :
    rootNodes (firstPass instances) = ["game"]
    ∧ orphanNodes (firstPass instances) = []).
  { unfold firstPass. cbv zeta.
    destruct (firstPass_all_placed (prepare instances).2
                (JsMap.keys (prepare instances).1)
                (mkPlacement (prepare instances).1 [] [])) as [H1 H2].
    - intros key Hkey%JsMap_get_keys. cbn [nodeMap].
      destruct (decide (key = "game")) as [->|Hne].
      + left. split; [done|].
        destruct ((prepare instances).2 !! "game") as [pp|] eqn:Hpp; [|done].
        apply prepare_oneUp in Hpp as [_ Hlen]. simpl in Hlen. lia.
      + right. split; [done|].
        apply Hkeys in Hkey as [?|Hin]; [done|].
        pose proof Hin as Hin'.
        apply list_elem_of_fmap in Hin' as (inst & -> & Hinst).
        destruct (Hclosed inst Hinst) as [?|(pp & Hpp & Hor)]; [done|].
        exists pp. split; [|split].
        * rewrite Hprep, ensureGame_p2p by done. by apply built_p2p.
        * by eapply computedParent_truthy.
        * apply Hkeys. naive_solver.
    - cbn [rootNodes orphanNodes] in H1, H2. split; [|done].
      rewrite H1. simpl. apply filter_the_one; [done|].
      apply JsMap_get_keys, prepare_hasKey_game. }
  destruct Hplaced as [Hroots Horph].
  split; [done|].
  unfold reconcile. cbv zeta. rewrite Horph, Hroots. cbn [foldl fst snd].
  split; [done|]. intros k. rewrite <- Hkeys.
  unfold firstPass. cbv zeta.
  destruct (firstPass_facts (prepare instances).2
              (JsMap.keys (prepare instances).1)
              (mkPlacement (prepare instances).1 [] [])) as (Hext & Hnone & _).
  cbv zeta in Hext, Hnone. cbn [nodeMap] in Hext, Hnone. split.
  - intros Hs. apply not_eq_None_Some. intros Hn%Hnone.
    rewrite Hn in Hs. by destruct Hs.
  - intros Hs. by eapply extends_is_Some.
Qed.

(** When every instance other than the root comes with its parent, the
    reconciler has nothing to repair: no node is left an orphan, the root
    ["game"] is the only top-level node, and the map holds the instances
    and the root and nothing else (no service node, no placeholder). *)
Theorem complete_snapshot_needs_no_repair instances :
  parentClosed instances →
  orphanNodes (firstPass instances) = []
  ∧ (reconcile instances).2 = ["game"]
  ∧ ∀ k, is_Some (JsMap.get (reconcile instances).1 k)
         ↔ k = "game" ∨ k ∈ Schema.path <$> instances.
Proof. apply parentClosed_no_repair. Qed.

Lemma complete_snapshot_needs_no_repair_witness :
  orphanNodes (firstPass Samples.folderSnapshot) = []
  ∧ (reconcile Samples.folderSnapshot).2 = ["game"]
  ∧ ∀ k, is_Some (JsMap.get (reconcile Samples.folderSnapshot).1 k)
         ↔ k = "game" ∨ k ∈ Schema.path <$> Samples.folderSnapshot.
Proof.
  apply (complete_snapshot_needs_no_repair Samples.folderSnapshot).
  intros inst Hin. unfold Samples.folderSnapshot in Hin.
  repeat (apply elem_of_cons in Hin as [->|Hin];
          [first [by left
                 |right; eexists; split; [vm_compute; reflexivity|];
                  first [by left|right; simpl; set_solver]]|]).
  by apply elem_of_nil in Hin.
Defined.

End CompleteSnapshots.

(** ** The displayed tree holds every node of the map *)

Section DisplayedTree.
Import TreeView.

Implicit Types (m : NodeMap) (k x : string) (n : TreeNode).
Implicit Types (instances : list GameInstance).

Lemma elem_of_concat {A} (x : A) (ls : list (list A)) :
  x ∈ concat ls ↔ ∃ l, l ∈ ls ∧ x ∈ l.
Proof.
  induction ls as [|l ls IH]; simpl.
  - split; [by intros ?%elem_of_nil|by intros (? & ?%elem_of_nil & _)].
  - rewrite elem_of_app, IH. split.
    + intros [H|(l' & H1 & H2)]; [exists l; split; [by left|done]|].
      exists l'. split; [by right|done].
    + intros (l' & [->|H1]%elem_of_cons & H2); [by left|]. right. eauto.
Qed.

Lemma forestPaths_elem x (nodes : list Tree) :
  x ∈ forestPaths nodes ↔ ∃ t, t ∈ nodes ∧ x ∈ treePaths t.
Proof.
  unfold forestPaths. rewrite elem_of_concat. split.
  - intros (l & (t & -> & Ht)%list_elem_of_fmap & Hx). eauto.
  - intros (t & Ht & Hx). exists (treePaths t). split; [|done].
    apply list_elem_of_fmap. eauto.
Qed.

Lemma treePaths_unfold n kids x :
  x ∈ treePaths (TNode n kids) ↔ x = path n ∨ x ∈ forestPaths kids.
Proof. simpl. by rewrite elem_of_cons. Qed.

Lemma shows_unfold fuel m k x :
  shows (S fuel) m k x ↔
  ∃ n, JsMap.get m k = Some n
       ∧ (x = path n ∨ ∃ ck, ck ∈ children n ∧ shows fuel m ck x).
Proof.
  unfold shows. simpl. destruct (JsMap.get m k) as [n|]; split.
  - intros (t & [= <-] & Hx). exists n. split; [done|].
    apply treePaths_unfold in Hx as [?|Hx]; [by left|right].
    apply forestPaths_elem in Hx as (t & (ck & Hck & Ht)%list_elem_of_omap & Hx).
    eauto.
  - intros (n' & [= <-] & Hx). eexists. split; [done|].
    apply treePaths_unfold. destruct Hx as [?|(ck & Hck & t & Ht & Hx)];
      [by left|right].
    apply forestPaths_elem. exists t. split; [|done].
    apply list_elem_of_omap. eauto.
  - by intros (t & ? & _).
  - by intros (n' & ? & _).
Qed.

Lemma shows_mono m : ∀ (fuel fuel' : nat) k x,
  shows fuel m k x → (fuel ≤ fuel')%nat → shows fuel' m k x.
Proof.
  induction fuel as [|fuel IH]; intros fuel' k x Hs Hle.
  - by destruct Hs as (t & ? & _).
  - destruct fuel' as [|fuel']; [lia|].
    apply shows_unfold in Hs as (n & Hn & Hx). apply shows_unfold.
    exists n. split; [done|]. destruct Hx as [?|(ck & Hck & Hs)]; [by left|].
    right. exists ck. split; [done|]. apply (IH fuel'); [done|lia].
Qed.

Lemma shows_key m : keyIsPath m → ∀ (fuel : nat) k x,
  shows fuel m k x → is_Some (JsMap.get m x).
Proof.
  intros Hkp. induction fuel as [|fuel IH]; intros k x Hs.
  - by destruct Hs as (t & ? & _).
  - apply shows_unfold in Hs as (n & Hn & [->|(ck & _ & Hs)]).
    + by rewrite (Hkp _ _ Hn), Hn.
    + by eapply IH.
Qed.

Lemma parentKey_length k :
  (2 ≤ length (split k))%nat →
  length (split (parentKey k)) = (length (split k) - 1)%nat.
Proof.
  intros Hlen. unfold parentKey. rewrite split_take_join by lia.
  rewrite length_take. lia.
Qed.

(** From a node up to a top-level node there are only nodes of the map,
    each with fewer segments than the one below. *)
Lemma chain_to_a_root m (roots : list string) :
  (∀ k, is_Some (JsMap.get m k) → k ∈ roots ∨ attached m (parentKey k) k) →
  childrenAreOneDown m →
  ∀ (len : nat) k, (length (split k) ≤ len)%nat → is_Some (JsMap.get m k) →
  ∃ r chain, r ∈ roots ∧ NoDup chain
    ∧ (∀ a, a ∈ chain → is_Some (JsMap.get m a)
                        ∧ (length (split a) < length (split k))%nat)
    ∧ ∀ (fuel : nat) x, shows fuel m k x → shows (length chain + fuel) m r x.
Proof.
  intros Hplaced Hdown. induction len as [|len IH]; intros k Hlen Hk.
  - pose proof (split_length k). lia.
  - destruct (Hplaced k Hk) as [Hr|Ha].
    + exists k, []. split; [done|]. split; [constructor|].
      split; [by intros a ?%elem_of_nil|done].
    + destruct Ha as (n & Hn & Hc).
      destruct (Hdown _ _ _ Hn Hc) as [_ Hlen2].
      pose proof (parentKey_length k Hlen2) as Hpl.
      destruct (IH (parentKey k)) as (r & chain & Hr & Hnd & Hch & Hshow);
        [lia|by rewrite Hn|].
      exists r, (parentKey k :: chain). split; [done|]. split; [|split].
      * apply NoDup_cons. split; [|done]. intros Hin.
        apply Hch in Hin as [_ ?]. lia.
      * intros a [->|Ha]%elem_of_cons; [split; [by rewrite Hn|lia]|].
        apply Hch in Ha as [? ?]. split; [done|lia].
      * intros fuel x Hs. simpl.
        replace (S (length chain + fuel)) with (length chain + S fuel)%nat by lia.
        apply Hshow. apply shows_unfold. exists n. split; [done|]. eauto.
Qed.

Lemma materialize_shows_all m (roots : list string) :
  (∀ k, is_Some (JsMap.get m k) → k ∈ roots ∨ attached m (parentKey k) k) →
  childrenAreOneDown m → keyIsPath m →
  ∀ x, x ∈ forestPaths (omap (materialize (S (length m)) m) roots)
       ↔ is_Some (JsMap.get m x) ∧ ∃ r, r ∈ roots ∧ shows (S (length m)) m r x.
Proof.
  intros Hplaced Hdown Hkp x. rewrite forestPaths_elem. split.
  - intros (t & (r & Hr & Ht)%list_elem_of_omap & Hx).
    assert (Hs : shows (S (length m)) m r x) by by exists t.
    split; [by eapply shows_key|]. eauto.
  - intros (_ & r & Hr & t & Ht & Hx). exists t. split; [|done].
    apply list_elem_of_omap. eauto.
Qed.

Lemma keys_length m : length (JsMap.keys m) = length m.
Proof. unfold JsMap.keys. by rewrite length_fmap. Qed.

Lemma materialize_reaches m (roots : list string) k :
  (∀ k, is_Some (JsMap.get m k) → k ∈ roots ∨ attached m (parentKey k) k) →
  childrenAreOneDown m → keyIsPath m →
  is_Some (JsMap.get m k) →
  ∃ r, r ∈ roots ∧ shows (S (length m)) m r k.
Proof.
  intros Hplaced Hdown Hkp Hk.
  destruct (chain_to_a_root m roots Hplaced Hdown (length (split k)) k)
    as (r & chain & Hr & Hnd & Hch & Hshow); [done|done|].
  exists r. split; [done|].
  assert (Hlen : (length (k :: chain) ≤ length m)%nat).
  { rewrite <- keys_length. apply submseteq_length, NoDup_submseteq.
    - apply NoDup_cons. split; [|done]. intros [_ ?]%Hch. lia.
    - intros a [->|Ha]%elem_of_cons; apply JsMap_get_keys; [done|].
      by apply Hch. }
  simpl in Hlen.
  apply (shows_mono m (length chain + 1)); [|lia].
  apply Hshow. destruct Hk as [n Hn]. apply shows_unfold.
  exists n. split; [done|]. left. symmetry. by apply Hkp.
Qed.

Lemma sortNode_paths localeCompare t x :
  x ∈ treePaths (sortNode localeCompare t) ↔ x ∈ treePaths t.
Proof.
  induction t as [n kids IH] using Tree_forall_ind.
  cbn [sortNode]. rewrite !treePaths_unfold. apply or_iff_compat_l.
  rewrite !forestPaths_elem. split.
  - intros (t & Ht & Hx). rewrite jsSort_perm in Ht.
    apply list_elem_of_fmap in Ht as (t0 & -> & Ht0).
    exists t0. split; [done|]. rewrite Forall_forall in IH. by apply IH.
  - intros (t & Ht & Hx). exists (sortNode localeCompare t). split.
    + rewrite jsSort_perm. apply list_elem_of_fmap. eauto.
    + rewrite Forall_forall in IH. by apply IH.
Qed.

Lemma sortTree_paths localeCompare nodes x :
  x ∈ forestPaths (sortTree localeCompare nodes) ↔ x ∈ forestPaths nodes.
Proof.
  unfold sortTree. rewrite !forestPaths_elem. split.
  - intros (t & Ht & Hx). rewrite jsSort_perm in Ht.
    apply list_elem_of_fmap in Ht as (t0 & -> & Ht0).
    exists t0. split; [done|]. by apply sortNode_paths in Hx.
  - intros (t & Ht & Hx). exists (sortNode localeCompare t). split.
    + rewrite jsSort_perm. apply list_elem_of_fmap. eauto.
    + by apply sortNode_paths.
Qed.

Lemma treeData_paths localeCompare instances x :
  instances ≠ [] →
  x ∈ forestPaths (treeData localeCompare instances)
  ↔ is_Some (JsMap.get (reconcile instances).1 x).
Proof.
  intros Hne. unfold treeData. rewrite decide_False by by destruct instances.
  cbv zeta. rewrite sortTree_paths.
  assert (Hplaced : ∀ k, is_Some (JsMap.get (reconcile instances).1 k) →
            k ∈ (reconcile instances).2
            ∨ attached (reconcile instances).1 (parentKey k) k).
  { intros k Hk. by apply reconcile_placed. }
  rewrite (materialize_shows_all _ _ Hplaced (reconcile_oneDown instances)
             (keyIsPath_reconcile instances)).
  split; [by intros [? _]|]. intros Hx. split; [done|].
  by apply materialize_reaches;
    [|apply reconcile_oneDown|apply keyIsPath_reconcile|].
Qed.

End DisplayedTree.

(** ** Which rows the view draws *)

Section RenderedRows.
Import TreeView.

Implicit Types (k p : string) (n : TreeNode).
Implicit Types (instances : list GameInstance).

Lemma join_take_S (segs : list string) (j : nat) :
  (1 ≤ j)%nat → (j < length segs)%nat →
  join (take (S j) segs)
  = join (take j segs) +:+ "." +:+ nth j segs EmptyString.
Proof.
  unfold join. revert j. induction segs as [|x segs IH]; intros j Hj Hlen;
    simpl in Hlen; [lia|].
  destruct j as [|j]; [lia|]. destruct segs as [|y segs]; [simpl in Hlen; lia|].
  destruct j as [|j].
  - reflexivity.
  - change (take (S (S (S j))) (x :: y :: segs))
      with (x :: take (S (S j)) (y :: segs)).
    change (take (S (S j)) (x :: y :: segs)) with (x :: take (S j) (y :: segs)).
    change (nth (S (S j)) (x :: y :: segs) EmptyString)
      with (nth (S j) (y :: segs) EmptyString).
    change (take (S (S j)) (y :: segs)) with (y :: take (S j) segs) at 1.
    change (String.concat "." (x :: y :: take (S j) segs))
      with (x +:+ "." +:+ String.concat "." (take (S (S j)) (y :: segs))).
    rewrite IH by (simpl in *; lia).
    change (take (S j) (y :: segs)) with (y :: take j segs).
    destruct j as [|j].
    + simpl. by rewrite !string_app_assoc.
    + change (take (S j) segs) with (take (S j) segs).
      destruct segs as [|z segs]; [simpl in Hlen; lia|].
      change (String.concat "." (x :: y :: take (S j) (z :: segs)))
        with (x +:+ "." +:+ String.concat "." (y :: take (S j) (z :: segs))).
      by rewrite !string_app_assoc.
Qed.

Lemma prefix_across_dot (a parent rest : string) :
  dotfree a → String.prefix a parent = false →
  String.prefix a (parent +:+ "." +:+ rest) = false.
Proof.
  revert parent. induction a as [|c a IH]; intros parent Hd Hp;
    [by destruct parent|].
  destruct Hd as [Hc Hd]. destruct parent as [|d parent].
  - change (EmptyString +:+ "." +:+ rest) with (String "." rest). simpl.
    destruct (Ascii.ascii_dec c "."); [done|done].
  - change (String d parent +:+ "." +:+ rest)
      with (String d (parent +:+ "." +:+ rest)).
    simpl in *. destruct (Ascii.ascii_dec c d); [|done]. by apply IH.
Qed.

Lemma find_is_Some instances p :
  is_Some (List.find (λ i, bool_decide (Schema.path i = p)) instances)
  ↔ p ∈ Schema.path <$> instances.
Proof.
  induction instances as [|x l IH]; simpl.
  - split; [by intros [? ?]|by intros ?%elem_of_nil].
  - rewrite elem_of_cons. case_bool_decide; [naive_solver|].
    rewrite IH. naive_solver.
Qed.

(** The row loop tests the node's [path] for the prefix [placeholder_],
    which only a node's [id] ever carries.  So when no instance path starts
    with [placeholder_], a node of the reconciled map gets a row exactly
    when its path is the path of an instance: the root, the service nodes
    and the placeholders the reconciler creates are never drawn. *)
Theorem only_instance_rows_are_rendered instances k n :
  (∀ inst, inst ∈ instances →
           String.prefix "placeholder_" (Schema.path inst) = false) →
  JsMap.get (reconcile instances).1 k = Some n →
  rendered instances n = true ↔ k ∈ Schema.path <$> instances.
Proof.
  intros Hno Hn.
  assert (Hpath : path n = k) by by eapply keyIsPath_reconcile.
  assert (Hk : String.prefix "placeholder_" k = false).
  { assert (Hall : allNodes (λ k _, String.prefix "placeholder_" k = false)
                     (reconcile instances).1).
    { apply allNodes_reconcile; try done.
      intros p j pn Hj Hlen Hparent.
      rewrite join_take_S by lia. by apply prefix_across_dot. }
    by apply (Hall k n). }
  unfold rendered. cbv zeta. rewrite Hpath, Hk, andb_true_r, negb_involutive.
  rewrite bool_decide_eq_true. apply find_is_Some.
Qed.

Lemma only_instance_rows_are_rendered_witness :
  rendered [Samples.deepLeaf]
    (addChild "game.a.b" (placeholderNode (split "game.a.b.c") 1 "game"))
  = true
  ↔ "game.a" ∈ Schema.path <$> [Samples.deepLeaf].
Proof.
  apply (only_instance_rows_are_rendered [Samples.deepLeaf] "game.a").
  - intros inst ->%list_elem_of_singleton. reflexivity.
  - vm_compute. reflexivity.
Defined.

End RenderedRows.

(** ** The search filter *)

Section SearchFacts.
Import TreeView.

Implicit Types (m : NodeMap) (x p : string) (n : TreeNode) (t : Tree).
Implicit Types (instances : list GameInstance) (V : gset string).

Lemma allEdges_unfold (R : TreeNode → TreeNode → Prop) n kids :
  allEdges R (TNode n kids)
  ↔ Forall (λ k, R n (rootOf k) ∧ allEdges R k) kids.
Proof.
  simpl. induction kids as [|k kids IH]; simpl.
  - split; [by constructor|done].
  - by rewrite Forall_cons, IH.
Qed.

Lemma materialize_root m : ∀ (fuel : nat) k t,
  materialize fuel m k = Some t → JsMap.get m k = Some (rootOf t).
Proof.
  intros [|fuel] k t; simpl; [done|].
  destruct (JsMap.get m k); [|done]. by intros [= <-].
Qed.

Lemma materialize_edges m :
  keyIsPath m → childrenAreOneDown m →
  ∀ (fuel : nat) k t, materialize fuel m k = Some t →
                      allEdges oneSegmentDown t.
Proof.
  intros Hkp Hdown. induction fuel as [|fuel IH]; intros k t; simpl; [done|].
  destruct (JsMap.get m k) as [n|] eqn:Hn; [|done]. intros [= <-].
  apply allEdges_unfold, Forall_forall.
  intros t' (ck & Hck & Ht')%list_elem_of_omap.
  split; [|by eapply IH].
  apply materialize_root in Ht' as Hroot.
  destruct (Hdown _ _ _ Hn Hck) as [Hpk Hlen].
  unfold oneSegmentDown. rewrite (Hkp _ _ Hn), (Hkp _ _ Hroot). done.
Qed.

Lemma sortNode_edges localeCompare (R : TreeNode → TreeNode → Prop) t :
  allEdges R t → allEdges R (sortNode localeCompare t).
Proof.
  induction t as [n kids IH] using Tree_forall_ind.
  cbn [sortNode]. rewrite !allEdges_unfold, jsSort_Forall, Forall_fmap.
  intros H. rewrite Forall_forall in IH, H. apply Forall_forall.
  intros k Hk. simpl. rewrite sortNode_root.
  destruct (H k Hk) as [? ?]. split; [done|]. by apply IH.
Qed.

Lemma treeData_edges localeCompare instances :
  Forall (allEdges oneSegmentDown) (treeData localeCompare instances).
Proof.
  unfold treeData. case_decide; [constructor|]. cbv zeta.
  unfold sortTree. rewrite jsSort_Forall, Forall_fmap. apply Forall_forall.
  intros t (r & _ & Ht)%list_elem_of_omap. simpl.
  apply sortNode_edges.
  eapply materialize_edges;
    [apply keyIsPath_reconcile|apply reconcile_oneDown|exact Ht].
Qed.

(** A set of paths closed under dropping the last segment. *)
Lemma edges_lead_up V t x :
  (∀ p, p ∈ V → (2 ≤ length (split p))%nat → parentKey p ∈ V) →
  allEdges oneSegmentDown t → x ∈ treePaths t → x ∈ V →
  path (rootOf t) ∈ V.
Proof.
  intros HV. induction t as [n kids IH] using Tree_forall_ind.
  rewrite allEdges_unfold, treePaths_unfold, forestPaths_elem.
  intros He [->|(k & Hk & Hx)] Hin; [done|]. simpl.
  rewrite Forall_forall in IH, He. destruct (He k Hk) as [[Hp Hlen] Hek].
  rewrite Hp. apply HV; [|done]. by apply IH.
Qed.

Lemma setVisible_path n : path (setVisible n) = path n.
Proof. done. Qed.

Lemma filterNode_paths V t x :
  (∀ p, p ∈ V → (2 ≤ length (split p))%nat → parentKey p ∈ V) →
  allEdges oneSegmentDown t →
  (∃ t', filterNode V t = Some t' ∧ x ∈ treePaths t')
  ↔ x ∈ treePaths t ∧ x ∈ V.
Proof.
  intros HV. revert x. induction t as [n kids IH] using Tree_forall_ind.
  intros x He. pose proof He as He'.
  rewrite allEdges_unfold in He. rewrite Forall_forall in IH, He.
  cbn [filterNode]. case_decide as Hn.
  - split.
    + intros (t' & [= <-] & Hx). apply treePaths_unfold in Hx as [->|Hx].
      * split; [by left|done].
      * apply forestPaths_elem in Hx
          as (t' & (k & Hk & Ht')%list_elem_of_omap & Hx).
        destruct (proj1 (IH k Hk x (proj2 (He k Hk)))) as [H1 H2]; [eauto|].
        split; [|done]. apply treePaths_unfold. right.
        apply forestPaths_elem. eauto.
    + intros [Hx HxV]. eexists. split; [done|].
      apply treePaths_unfold in Hx as [->|Hx]; [by left|].
      apply treePaths_unfold. right.
      apply forestPaths_elem in Hx as (k & Hk & Hx).
      destruct (proj2 (IH k Hk x (proj2 (He k Hk)))) as (t' & Ht' & Hx');
        [done|].
      apply forestPaths_elem. exists t'. split; [|done].
      apply list_elem_of_omap. eauto.
  - split; [by intros (t' & ? & _)|].
    intros [Hx HxV]. destruct Hn.
    by apply (edges_lead_up V (TNode n kids) x).
Qed.

Lemma filterTree_paths V (nodes : list Tree) x :
  (∀ p, p ∈ V → (2 ≤ length (split p))%nat → parentKey p ∈ V) →
  Forall (allEdges oneSegmentDown) nodes →
  x ∈ forestPaths (filterTree V nodes) ↔ x ∈ forestPaths nodes ∧ x ∈ V.
Proof.
  intros HV He. rewrite Forall_forall in He. unfold filterTree.
  rewrite !forestPaths_elem. split.
  - intros (t' & (t & Ht & Hf)%list_elem_of_omap & Hx).
    destruct (proj1 (filterNode_paths V t x HV (He t Ht))) as [H1 H2]; [eauto|].
    eauto.
  - intros [(t & Ht & Hx) HxV].
    destruct (proj2 (filterNode_paths V t x HV (He t Ht))) as (t' & Ht' & Hx');
      [done|].
    exists t'. split; [|done]. apply list_elem_of_omap. eauto.
Qed.

Lemma ancestorPathsOf_elem p x :
  x ∈ ancestorPathsOf p
  ↔ ∃ c : nat, (1 ≤ c < length (split p))%nat ∧ x = join (take c (split p)).
Proof.
  unfold ancestorPathsOf. cbv zeta.
  rewrite list_elem_of_fmap. setoid_rewrite elem_of_reverse.
  setoid_rewrite elem_of_seq. split.
  - intros (i & -> & Hi). exists (S i). split; [lia|done].
  - intros (c & Hc & ->). exists (c - 1)%nat.
    replace (S (c - 1)) with c by lia. split; [done|lia].
Qed.

Section WithLowerCase.
Variable toLowerCase : string → string.

Lemma allVisiblePaths_elem searchTerm instances x :
  x ∈ allVisiblePaths toLowerCase searchTerm instances
  ↔ ∃ inst (c : nat),
      inst ∈ matching toLowerCase searchTerm instances
      ∧ (1 ≤ c ≤ length (split (Schema.path inst)))%nat
      ∧ x = join (take c (split (Schema.path inst))).
Proof.
  unfold allVisiblePaths, matchingPaths, ancestorPaths.
  rewrite elem_of_union, !elem_of_list_to_set, elem_of_concat. split.
  - intros [(inst & -> & Hin)%list_elem_of_fmap|(l & Hl & Hx)].
    + exists inst, (length (split (Schema.path inst))).
      split; [done|]. split; [pose proof (split_length (Schema.path inst)); lia|].
      by rewrite firstn_all, join_split.
    + apply list_elem_of_fmap in Hl as (inst & -> & Hin).
      apply ancestorPathsOf_elem in Hx as (c & Hc & ->).
      exists inst, c. split; [done|]. split; [lia|done].
  - intros (inst & c & Hin & Hc & ->).
    destruct (decide (c = length (split (Schema.path inst)))) as [->|Hne].
    + left. rewrite firstn_all, join_split. by apply list_elem_of_fmap_2.
    + right. exists (ancestorPathsOf (Schema.path inst)). split.
      * apply list_elem_of_fmap. eauto.
      * apply ancestorPathsOf_elem. exists c. split; [lia|done].
Qed.

Lemma allVisiblePaths_closed searchTerm instances p :
  p ∈ allVisiblePaths toLowerCase searchTerm instances →
  (2 ≤ length (split p))%nat →
  parentKey p ∈ allVisiblePaths toLowerCase searchTerm instances.
Proof.
  rewrite !allVisiblePaths_elem. intros (inst & c & Hin & Hc & ->) Hlen.
  rewrite split_take_join, length_take in Hlen by lia.
  exists inst, (c - 1)%nat. split; [done|]. split; [lia|].
  replace c with (S (c - 1)) at 1 by lia.
  apply parentKey_ancestor; lia.
Qed.

Lemma matching_subset searchTerm instances inst :
  inst ∈ matching toLowerCase searchTerm instances → inst ∈ instances.
Proof.
  unfold matching. rewrite !list_elem_of_In, filter_In. by intros [? _].
Qed.

(** With a search term, the filtered tree holds exactly the nodes of the
    tree whose path is the path of a matching instance or a leading part
    of one; in particular every matching instance is in it, with all the
    nodes above it. *)
Theorem search_keeps_matches_and_ancestors localeCompare searchTerm instances :
  searchTerm ≠ EmptyString → instances ≠ [] →
  let shown :=
    forestPaths (filteredNodes toLowerCase searchTerm instances
                   (treeData localeCompare instances)) in
  (∀ x, x ∈ shown
        ↔ is_Some (JsMap.get (reconcile instances).1 x)
          ∧ ∃ inst (c : nat),
              inst ∈ matching toLowerCase searchTerm instances
              ∧ (1 ≤ c ≤ length (split (Schema.path inst)))%nat
              ∧ x = join (take c (split (Schema.path inst))))
  ∧ ∀ inst, inst ∈ matching toLowerCase searchTerm instances →
            Schema.path inst ∈ shown.
Proof.
  intros Hterm Hne. cbv zeta. unfold filteredNodes.
  rewrite decide_False by done.
  assert (Hiff : ∀ x,
    x ∈ forestPaths (filterTree (allVisiblePaths toLowerCase searchTerm instances)
                       (treeData localeCompare instances))
    ↔ is_Some (JsMap.get (reconcile instances).1 x)
      ∧ x ∈ allVisiblePaths toLowerCase searchTerm instances).
  { intros x. rewrite filterTree_paths.
    - by rewrite treeData_paths.
    - intros p. apply allVisiblePaths_closed.
    - apply treeData_edges. }
  split.
  - intros x. by rewrite Hiff, allVisiblePaths_elem.
  - intros inst Hin. apply Hiff. split.
    + apply reconcile_hasKey, list_elem_of_fmap_2.
      by eapply matching_subset.
    + apply allVisiblePaths_elem.
      exists inst, (length (split (Schema.path inst))).
      split; [done|]. split; [pose proof (split_length (Schema.path inst)); lia|].
      by rewrite firstn_all, join_split.
Qed.

End WithLowerCase.

Lemma search_keeps_matches_and_ancestors_witness :
  "game.a.b.c"
  ∈ forestPaths (filteredNodes (λ s, s) "Part" [Samples.deepLeaf]
                   (treeData asciiCompare [Samples.deepLeaf])).
Proof.
  destruct (search_keeps_matches_and_ancestors (λ s, s) asciiCompare "Part"
              [Samples.deepLeaf]) as [_ H]; [done|done|].
  apply (H Samples.deepLeaf). vm_compute. by left.
Defined.

End SearchFacts.

(** ** The flattened rows *)

Section RowFacts.
Import TreeView Rows.

Implicit Types (t : Tree) (E : gset string) (st : list FlatNode * nat).

Lemma flagged_unfold n kids :
  flagged (TNode n kids)
  ↔ (kids ≠ [] → TreeView.hasChildren n = true) ∧ Forall flagged kids.
Proof.
  simpl. apply and_iff_compat_l.
  induction kids as [|k kids IH]; simpl.
  - split; [by constructor|done].
  - by rewrite Forall_cons, IH.
Qed.

Lemma expandablePaths_unfold n kids x :
  x ∈ expandablePaths (TNode n kids)
  ↔ (TreeView.hasChildren n = true ∧ x = TreeView.path n)
    ∨ ∃ k, k ∈ kids ∧ x ∈ expandablePaths k.
Proof.
  simpl. rewrite elem_of_app, elem_of_concat.
  assert (H1 : x ∈ (if TreeView.hasChildren n then [TreeView.path n] else [])
               ↔ TreeView.hasChildren n = true ∧ x = TreeView.path n).
  { destruct (TreeView.hasChildren n).
    - rewrite list_elem_of_singleton. naive_solver.
    - split; [by intros ?%elem_of_nil|by intros [? _]]. }
  assert (H2 : (∃ l, l ∈ map expandablePaths kids ∧ x ∈ l)
               ↔ ∃ k, k ∈ kids ∧ x ∈ expandablePaths k).
  { split.
    - intros (l & (k & -> & Hk)%list_elem_of_fmap & Hx). eauto.
    - intros (k & Hk & Hx). exists (expandablePaths k). split; [|done].
      apply list_elem_of_fmap. eauto. }
  by rewrite H1, H2.
Qed.

(** *** [expandAll] collects the paths of all nodes that can be expanded *)

Lemma collectPathsNode_spec t : ∀ (A : gset string) x,
  x ∈ collectPathsNode t A ↔ x ∈ A ∨ x ∈ expandablePaths t.
Proof.
  induction t as [n kids IH] using Tree_forall_ind. intros A x.
  rewrite expandablePaths_unfold. cbn [collectPathsNode].
  set (A1 := if TreeView.hasChildren n then A ∪ {[TreeView.path n]} else A).
  assert (HA1 : x ∈ A1 ↔ x ∈ A
                ∨ (TreeView.hasChildren n = true ∧ x = TreeView.path n)).
  { unfold A1. destruct (TreeView.hasChildren n); set_solver. }
  assert (Hfold : ∀ B : gset string,
            x ∈ foldl (λ acc k, collectPathsNode k acc) B kids
            ↔ x ∈ B ∨ ∃ k, k ∈ kids ∧ x ∈ expandablePaths k).
  { clear HA1. induction kids as [|k kids IHk]; intros B; simpl.
    - split; [by left|]. intros [?|(k & ?%elem_of_nil & _)]; done.
    - apply Forall_cons in IH as [Hk IH]. rewrite (IHk IH), Hk.
      setoid_rewrite elem_of_cons. naive_solver. }
  rewrite Hfold, HA1. tauto.
Qed.

Lemma expandAll_spec (nodes : list Tree) x :
  x ∈ expandAll nodes ↔ ∃ t, t ∈ nodes ∧ x ∈ expandablePaths t.
Proof.
  unfold expandAll, collectPaths.
  assert (Hfold : ∀ B : gset string,
            x ∈ foldl (λ acc k, collectPathsNode k acc) B nodes
            ↔ x ∈ B ∨ ∃ t, t ∈ nodes ∧ x ∈ expandablePaths t).
  { induction nodes as [|k kids IHk]; intros B; simpl.
    - split; [by left|]. intros [?|(k & ?%elem_of_nil & _)]; done.
    - rewrite IHk, collectPathsNode_spec.
      setoid_rewrite elem_of_cons. naive_solver. }
  rewrite Hfold. set_solver.
Qed.

(** *** The rows *)

Lemma flattenNode_numbered E t : ∀ (d : nat) st,
  numbered st → numbered (flattenNode E d t st).
Proof.
  induction t as [n kids IH] using Tree_forall_ind. intros d st Hst.
  cbn [flattenNode]. cbv zeta.
  set (st1 := (st.1 ++ [_], S st.2)).
  assert (H1 : numbered st1).
  { unfold numbered, st1 in *. cbn [fst snd].
    rewrite fmap_app, Hst, seq_S. done. }
  destruct (_ && _); [|done].
  revert H1. generalize st1. clear Hst st1.
  induction kids as [|k kids IHk]; intros st1 H1; simpl; [done|].
  apply Forall_cons in IH as [Hk IH]. apply (IHk IH). by apply Hk.
Qed.

Lemma flatten_numbered E (nodes : list Tree) : ∀ (d : nat) st,
  numbered st → numbered (flatten E nodes d st).
Proof.
  unfold flatten. induction nodes as [|k kids IH]; intros d st Hst; simpl;
    [done|].
  apply IH. by apply flattenNode_numbered.
Qed.

(** Whatever is expanded, the rows are numbered by position: the row at
    position [i] carries [index = i]. *)
Theorem rows_are_numbered_by_position E (nodes : list Tree) :
  index <$> flattenedNodes E nodes = seq 0 (length (flattenedNodes E nodes)).
Proof.
  unfold flattenedNodes.
  assert (H : numbered (flatten E nodes 0 ([], 0%nat)))
    by by apply flatten_numbered.
  unfold numbered in H. rewrite H. f_equal.
  apply (f_equal length) in H. rewrite length_fmap, length_seq in H. done.
Qed.

Lemma flattenNode_all E t :
  flagged t → (∀ x, x ∈ expandablePaths t → x ∈ E) →
  ∀ (d : nat) st,
    rowPath <$> (flattenNode E d t st).1 = (rowPath <$> st.1) ++ treePaths t.
Proof.
  induction t as [n kids IH] using Tree_forall_ind. intros Hf HE d st.
  apply flagged_unfold in Hf as [Hflag Hf].
  cbn [flattenNode treePaths]. cbv zeta.
  set (st1 := (st.1 ++ [_], S st.2)).
  assert (H1 : rowPath <$> st1.1 = (rowPath <$> st.1) ++ [TreeView.path n]).
  { unfold st1. cbn [fst]. by rewrite fmap_app. }
  destruct (TreeView.hasChildren n) eqn:Hh; simpl.
  - rewrite bool_decide_eq_true_2.
    2:{ apply HE, expandablePaths_unfold. by left. }
    assert (Hkids : ∀ st1,
      rowPath <$> (foldl (λ acc k, flattenNode E (S d) k acc) st1 kids).1
      = (rowPath <$> st1.1) ++ concat (map treePaths kids)).
    { assert (HE' : ∀ k, k ∈ kids → ∀ x, x ∈ expandablePaths k → x ∈ E).
      { intros k Hk x Hx. apply HE, expandablePaths_unfold. right. eauto. }
      clear H1 HE Hflag. revert HE'.
      induction kids as [|k kids IHk]; intros HE' st2; simpl.
      - by rewrite app_nil_r.
      - apply Forall_cons in IH as [Hk IH]. apply Forall_cons in Hf as [Hfk Hf].
        rewrite (IHk IH Hf) by (intros; eapply HE'; [by right|done]).
        rewrite Hk; [|done|by apply HE'; left]. by rewrite app_assoc. }
    rewrite Hkids, H1. by rewrite <- app_assoc.
  - destruct kids as [|k kids]; [|by discriminate Hflag].
    simpl. exact H1.
Qed.

Lemma flatten_expandAll (nodes : list Tree) :
  Forall flagged nodes →
  rowPath <$> flattenedNodes (expandAll nodes) nodes = forestPaths nodes.
Proof.
  intros Hf. unfold flattenedNodes, flatten, forestPaths.
  assert (Hg : ∀ (l : list Tree) st,
    Forall flagged l → (∀ t, t ∈ l → t ∈ nodes) →
    rowPath <$> (foldl (λ acc k, flattenNode (expandAll nodes) 0 k acc) st l).1
    = (rowPath <$> st.1) ++ concat (map treePaths l)).
  { induction l as [|k l IH]; intros st Hl Hin; simpl.
    - by rewrite app_nil_r.
    - apply Forall_cons in Hl as [Hk Hl].
      rewrite IH by (try done; intros; apply Hin; by right).
      rewrite flattenNode_all; [by rewrite app_assoc|done|].
      intros x Hx. apply expandAll_spec. exists k. split; [|done].
      apply Hin. by left. }
  by rewrite Hg.
Qed.

Lemma materialize_flagged (m : NodeMap) :
  (∀ k n, JsMap.get m k = Some n →
          children n ≠ [] → TreeView.hasChildren n = true) →
  ∀ (fuel : nat) k t, materialize fuel m k = Some t → flagged t.
Proof.
  intros Hm. induction fuel as [|fuel IH]; intros k t; simpl; [done|].
  destruct (JsMap.get m k) as [n|] eqn:Hn; [|done]. intros [= <-].
  apply flagged_unfold. split.
  - intros Hkids. apply (Hm _ _ Hn). intros Hc. by rewrite Hc in Hkids.
  - apply Forall_forall. intros t' (ck & _ & Ht')%list_elem_of_omap.
    by eapply IH.
Qed.

Lemma sortNode_flagged localeCompare t :
  flagged t → flagged (sortNode localeCompare t).
Proof.
  induction t as [n kids IH] using Tree_forall_ind.
  cbn [sortNode]. rewrite !flagged_unfold, jsSort_Forall, Forall_fmap.
  intros [Hflag Hf]. split.
  - intros Hkids. apply Hflag. intros ->. by apply Hkids.
  - rewrite Forall_forall in IH, Hf. apply Forall_forall.
    intros k Hk. simpl. apply IH; [done|]. by apply Hf.
Qed.

Lemma filterNode_flagged V t t' :
  flagged t → filterNode V t = Some t' → flagged t'.
Proof.
  revert t'. induction t as [n kids IH] using Tree_forall_ind.
  intros t' [Hflag Hf]%flagged_unfold. cbn [filterNode].
  case_decide; [|done]. intros [= <-]. apply flagged_unfold. split.
  - intros Hkids. apply Hflag. intros ->. by apply Hkids.
  - rewrite Forall_forall in IH, Hf. apply Forall_forall.
    intros k' (k & Hk & Hk')%list_elem_of_omap.
    eapply IH; [done|by apply Hf|done].
Qed.

Lemma treeData_flagged localeCompare instances :
  Forall flagged (treeData localeCompare instances).
Proof.
  unfold treeData. case_decide; [constructor|]. cbv zeta.
  unfold sortTree. rewrite jsSort_Forall, Forall_fmap. apply Forall_forall.
  intros t (r & _ & Ht)%list_elem_of_omap. simpl.
  apply sortNode_flagged.
  eapply materialize_flagged; [apply reconcile_flagged|exact Ht].
Qed.

(** After "expand all", the rows are the nodes of the displayed tree, in
    display order (parents before their children), with or without a
    search term: no node of the tree lacks a row. *)
Theorem expand_all_lists_every_node
    toLowerCase localeCompare searchTerm instances :
  let nodes := filteredNodes toLowerCase searchTerm instances
                 (treeData localeCompare instances) in
  rowPath <$> flattenedNodes (expandAll nodes) nodes = forestPaths nodes.
Proof.
  cbv zeta. apply flatten_expandAll. unfold filteredNodes.
  case_decide; [apply treeData_flagged|].
  apply Forall_forall. intros t' (t & Ht & Hf)%list_elem_of_omap.
  eapply filterNode_flagged; [|exact Hf].
  pose proof (treeData_flagged localeCompare instances) as Hflagged.
  rewrite Forall_forall in Hflagged. by apply Hflagged.
Qed.

(** Toggling a path flips its membership in the expanded set and nothing
    else, so toggling twice restores the set. *)
Theorem toggle_flips_one_path (p : string) (prev : gset string) :
  (p ∈ toggleExpanded p prev ↔ p ∉ prev)
  ∧ (∀ q, q ≠ p → (q ∈ toggleExpanded p prev ↔ q ∈ prev))
  ∧ toggleExpanded p (toggleExpanded p prev) = prev.
Proof.
  assert (H1 : p ∈ toggleExpanded p prev ↔ p ∉ prev).
  { unfold toggleExpanded. case_decide; set_solver. }
  assert (H2 : ∀ s : gset string, ∀ q, q ≠ p →
                 (q ∈ toggleExpanded p s ↔ q ∈ s)).
  { intros s q Hq. unfold toggleExpanded. case_decide; set_solver. }
  split; [done|]. split; [by apply H2|].
  apply set_eq. intros q. destruct (decide (q = p)) as [->|Hq].
  - unfold toggleExpanded at 1. case_decide as Hd.
    + apply H1 in Hd. set_solver.
    + rewrite H1 in Hd. apply dec_stable in Hd. set_solver.
  - by rewrite !H2.
Qed.

End RowFacts.

(** ** Sorting a sorted tree *)

Section SortAgain.
Import TreeView.

Lemma jsSort_of_sorted localeCompare (l : list Tree) :
  StronglySorted (ordered localeCompare) l → jsSort localeCompare l = l.
Proof.
  unfold jsSort. induction 1 as [|x l Hs IH Hx]; simpl; [done|].
  rewrite IH. destruct l as [|y l]; simpl; [done|].
  apply Forall_cons in Hx as [Hxy _]. unfold ordered in Hxy.
  by rewrite decide_True.
Qed.

Lemma map_fixed {A} (f : A → A) (l : list A) :
  Forall (λ x, f x = x) l → map f l = l.
Proof. induction 1 as [|x l Hx _ IH]; simpl; [done|]. by rewrite Hx, IH. Qed.

Section Comparator.
Variable localeCompare : string → string → Z.
Hypothesis localeCompare_total :
  ∀ a b, 0 < localeCompare a b → localeCompare b a ≤ 0.
Hypothesis localeCompare_trans :
  ∀ a b c, localeCompare a b ≤ 0 → localeCompare b c ≤ 0 →
           localeCompare a c ≤ 0.

Lemma sortNode_idem t :
  everyNode plainNode t →
  sortNode localeCompare (sortNode localeCompare t) = sortNode localeCompare t.
Proof.
  induction t as [n kids IH] using Tree_forall_ind. cbn [sortNode].
  intros [Hn Hkids]%everyNode_unfold. f_equal.
  rewrite Forall_forall in IH, Hkids.
  rewrite (map_fixed (sortNode localeCompare)).
  - apply jsSort_of_sorted. apply jsSort_sorted; [done|done|].
    apply Forall_fmap, Forall_forall. intros k Hk. simpl.
    rewrite sortNode_root. by apply everyNode_root, Hkids.
  - apply jsSort_Forall, Forall_fmap, Forall_forall. intros k Hk. simpl.
    apply IH; [done|]. by apply Hkids.
Qed.

Lemma sortTree_idem nodes :
  Forall (everyNode plainNode) nodes →
  sortTree localeCompare (sortTree localeCompare nodes)
  = sortTree localeCompare nodes.
Proof.
  intros Hall. rewrite Forall_forall in Hall.
  unfold sortTree. rewrite (map_fixed (sortNode localeCompare)).
  - apply jsSort_of_sorted. apply jsSort_sorted; [done|done|].
    apply Forall_fmap, Forall_forall. intros k Hk. simpl.
    rewrite sortNode_root. by apply everyNode_root, Hall.
  - apply jsSort_Forall, Forall_fmap, Forall_forall. intros k Hk. simpl.
    by apply sortNode_idem, Hall.
Qed.

End Comparator.

(** With a comparator that is total and transitive, and names that the
    [priorities] object inherits no member for, [sortTree] leaves a tree it
    has sorted as it is, at every depth; so sorting the displayed tree of a
    collection with such names and path segments again, as a re-render
    does, cannot reorder the rows. *)
Theorem sorting_twice_changes_nothing (localeCompare : string → string → Z) :
  (∀ a b, 0 < localeCompare a b → localeCompare b a ≤ 0) →
  (∀ a b c, localeCompare a b ≤ 0 → localeCompare b c ≤ 0 →
            localeCompare a c ≤ 0) →
  (∀ nodes, Forall (everyNode plainNode) nodes →
     sortTree localeCompare (sortTree localeCompare nodes)
     = sortTree localeCompare nodes)
  ∧ (∀ instances, plainInstances instances →
       sortTree localeCompare (treeData localeCompare instances)
       = treeData localeCompare instances).
Proof.
  intros Htotal Htrans. split.
  - intros nodes Hplain. by apply sortTree_idem.
  - intros instances Hplain. unfold treeData. case_decide; [done|]. cbv zeta.
    apply sortTree_idem; [done|done|]. by apply unsorted_plain.
Qed.

Lemma sorting_twice_changes_nothing_witness :
  sortTree asciiCompare (treeData asciiCompare Samples.folderSnapshot)
  = treeData asciiCompare Samples.folderSnapshot.
Proof.
  destruct (sorting_twice_changes_nothing asciiCompare
              asciiCompare_total asciiCompare_trans) as [_ H].
  apply (H Samples.folderSnapshot).
  apply (bool_decide_unpack _). by vm_compute.
Defined.

End SortAgain.

(** ** What the collector sends *)

Section CollectorFacts.
Import TreeView Collector.

Implicit Types (st : list Producer.InstanceData * nat).
Implicit Types (out : list Producer.InstanceData) (pp x : string).

Lemma split_app_last a x :
  dotfree x → split (a +:+ "." +:+ x) = split a ++ [x].
Proof.
  intros Hx. induction a as [|c a IH].
  - change (EmptyString +:+ "." +:+ x) with (String "." x). simpl.
    by rewrite split_single.
  - change (String c a +:+ "." +:+ x) with (String c (a +:+ "." +:+ x)).
    cbn [split]. rewrite IH. case_decide; [done|].
    pose proof (split_nonempty a). by destruct (split a).
Qed.

Lemma computedParent_child pp x :
  dotfree x → pp ≠ EmptyString →
  computedParent (pp +:+ "." +:+ x) = Some pp
  ∧ length (split (pp +:+ "." +:+ x)) = S (length (split pp)).
Proof.
  intros Hx Hpp. unfold computedParent, parentPathOf.
  rewrite split_app_last by done. rewrite length_app. simpl.
  pose proof (split_length pp).
  rewrite decide_True by lia.
  replace (length (split pp) + 1 - 1)%nat with (length (split pp)) by lia.
  rewrite take_app_length, join_split. simpl.
  rewrite bool_decide_eq_true_2 by done. split; [done|lia].
Qed.

Lemma Instance_forall_ind (P : Instance → Prop) :
  (∀ nm cn pn tp kids, Forall P kids → P (mkInstance nm cn pn tp kids)) →
  ∀ i, P i.
Proof.
  intros H. fix IH 1. intros [nm cn pn tp kids]. apply H.
  induction kids as [|k kids IHk]; constructor; [apply IH|exact IHk].
Qed.

Lemma everyName_unfold (P : string → Prop) nm cn pn tp kids :
  everyName P (mkInstance nm cn pn tp kids)
  ↔ P nm ∧ Forall (everyName P) kids.
Proof.
  simpl. apply and_iff_compat_l.
  induction kids as [|k kids IH]; simpl.
  - split; [by constructor|done].
  - by rewrite Forall_cons, IH.
Qed.

Lemma withParents_snoc out d pp :
  withParents out →
  computedParent (Producer.path d) = Some pp →
  pp = "game" ∨ pp ∈ Producer.path <$> out →
  withParents (out ++ [d]).
Proof.
  intros Hout Hd Hpp d'. rewrite elem_of_app, list_elem_of_singleton.
  intros [Hin| ->].
  - destruct (Hout d' Hin) as [?|(pp' & ? & Hor)]; [by left|right].
    exists pp'. split; [done|]. rewrite fmap_app, elem_of_app. tauto.
  - right. exists pp. split; [done|]. rewrite fmap_app, elem_of_app. tauto.
Qed.

Section Environment.
Variable draw : nat → string.
Variable GetService : string → option Instance.
Variable rootProperties : list (string * PropValue).
Variable serviceProperties : string → Instance → list (string * PropValue).

Lemma collectChildren_inv parent :
  Forall (everyName dotfree) (GetChildren parent) →
  ∀ (depth : nat) pp st,
    withParents st.1 → atMostSegments 18 st.1 →
    pp ∈ Producer.path <$> st.1 → pp ≠ EmptyString →
    length (split pp) = (2 + depth)%nat →
    let r := collectChildren draw depth parent pp st in
    withParents r.1 ∧ atMostSegments 18 r.1 ∧ st.1 `prefix_of` r.1.
Proof.
  induction parent as [nm cn pn tp kids IH] using Instance_forall_ind.
  cbn [GetChildren]. intros Hnames depth pp st Hwp Hseg Hpp Hne Hlen.
  cbv zeta. cbn [collectChildren]. case_decide as Hdepth; [done|].
  revert st Hwp Hseg Hpp.
  induction kids as [|child kids IHkids]; intros st Hwp Hseg Hpp; simpl;
    [done|].
  apply Forall_cons in IH as [IHchild IH].
  apply Forall_cons in Hnames as [Hchild Hnames].
  assert (Hnm : dotfree (Name child)).
  { destruct child. by apply everyName_unfold in Hchild as [? _]. }
  assert (Hkids : Forall (everyName dotfree) (GetChildren child)).
  { destruct child. by apply everyName_unfold in Hchild as [_ ?]. }
  set (data := createInstanceData child (Some pp) (draw st.2)).
  destruct (computedParent_child pp (Name child) Hnm Hne) as [Hcp Hcl].
  destruct (IHchild Hkids (S depth) (Producer.path data)
              (st.1 ++ [data], S st.2)) as (H1 & H2 & H3).
  - cbn [fst]. apply (withParents_snoc _ _ pp); [done|done|by right].
  - cbn [fst]. intros d. rewrite elem_of_app, list_elem_of_singleton.
    intros [?| ->]; [by apply Hseg|]. cbn. rewrite Hcl, Hlen. lia.
  - cbn [fst]. rewrite fmap_app, elem_of_app. right. by left.
  - cbn. by destruct pp.
  - cbn. rewrite Hcl, Hlen. lia.
  - cbv zeta in H1, H2, H3.
    destruct (IHkids IH Hnames _ H1 H2) as (H4 & H5 & H6).
    + destruct H3 as [more Hmore]. rewrite Hmore. cbn [fst].
      rewrite !fmap_app, !elem_of_app. by left; left.
    + split; [done|]. split; [done|]. etrans; [|exact H6].
      etrans; [|exact H3]. cbn [fst]. by apply prefix_app_r.
Qed.

Hypothesis services_keep_their_names : ∀ name service,
  name ∈ services → GetService name = Some service →
  Name service = name ∧ everyName dotfree service.

Lemma collectService_inv st name :
  name ∈ services →
  withParents st.1 → atMostSegments 18 st.1 →
  let r := collectService draw GetService serviceProperties st name in
  withParents r.1 ∧ atMostSegments 18 r.1.
Proof.
  intros Hname Hwp Hseg. cbv zeta. unfold collectService.
  destruct (GetService name) as [service|] eqn:Hs; [|done].
  destruct (services_keep_their_names name service Hname Hs) as [Hnm Hall].
  assert (Hd : dotfree name).
  { unfold services in Hname.
    repeat (apply elem_of_cons in Hname as [->|Hname]; [by repeat split|]).
    by apply elem_of_nil in Hname. }
  assert (Hkids : Forall (everyName dotfree) (GetChildren service)).
  { destruct service. by apply everyName_unfold in Hall as [_ ?]. }
  destruct (computedParent_child "game" name Hd) as [Hcp Hcl]; [done|].
  cbv zeta.
  match goal with
  | |- context [collectChildren draw 0 service _ ?s] => set (st1 := s)
  end.
  destruct (collectChildren_inv service Hkids 0 ("game." +:+ name) st1)
    as (H1 & H2 & _); [| | | | |done].
  - unfold st1. cbn [fst]. apply (withParents_snoc _ _ "game"); [done| |by left].
    cbn. rewrite Hnm. exact Hcp.
  - unfold st1. cbn [fst]. intros d. rewrite elem_of_app, list_elem_of_singleton.
    intros [?| ->]; [by apply Hseg|]. cbn. rewrite Hnm.
    rewrite Hcl. simpl. lia.
  - unfold st1. cbn [fst]. rewrite fmap_app, elem_of_app. right. cbn.
    rewrite Hnm. by left.
  - done.
  - exact Hcl.
Qed.

Lemma collected_withParents :
  withParents (collectCurrentGameData draw GetService rootProperties
                 serviceProperties)
  ∧ atMostSegments 18 (collectCurrentGameData draw GetService rootProperties
                         serviceProperties).
Proof.
  unfold collectCurrentGameData.
  assert (Hg : ∀ (l : list string) st, l ⊆ services →
            withParents st.1 → atMostSegments 18 st.1 →
            withParents
              (foldl (collectService draw GetService serviceProperties) st l).1
            ∧ atMostSegments 18
              (foldl (collectService draw GetService serviceProperties) st l).1).
  { induction l as [|name l IH]; intros st Hl Hwp Hseg; simpl; [done|].
    destruct (collectService_inv st name) as [H1 H2]; [set_solver|done|done|].
    apply IH; [set_solver|done|done]. }
  apply Hg; [done| |].
  - intros d ->%list_elem_of_singleton. by left.
  - intros d ->%list_elem_of_singleton. simpl. lia.
Qed.

End Environment.

(** When the services carry the names they were asked for and no name holds
    a dot, the collected snapshot comes with all its parents: every entry
    other than the root has its parent path in the snapshot, no path has
    more than 18 segments (the depth limit), and the TreeView builds its
    tree from it without orphans, with ["game"] as the only top-level
    node. *)
Theorem collected_snapshot_is_complete
    draw GetService rootProperties serviceProperties :
  (∀ name service,
     name ∈ services → GetService name = Some service →
     Name service = name ∧ everyName dotfree service) →
  let instances :=
    toGameInstance
      <$> collectCurrentGameData draw GetService rootProperties
            serviceProperties in
  parentClosed instances
  ∧ (∀ inst, inst ∈ instances →
             (length (split (Schema.path inst)) ≤ 18)%nat)
  ∧ orphanNodes (firstPass instances) = []
  ∧ (reconcile instances).2 = ["game"].
Proof.
  intros Hservices. cbv zeta.
  destruct (collected_withParents draw GetService rootProperties
              serviceProperties Hservices) as [Hwp Hseg].
  set (out := collectCurrentGameData draw GetService rootProperties
                serviceProperties) in *.
  assert (Hpaths : Schema.path <$> (toGameInstance <$> out)
                   = Producer.path <$> out).
  { rewrite <- list_fmap_compose. done. }
  assert (Hclosed : parentClosed (toGameInstance <$> out)).
  { intros inst (d & -> & Hd)%list_elem_of_fmap. rewrite Hpaths.
    apply (Hwp d Hd). }
  split; [done|]. split.
  - intros inst (d & -> & Hd)%list_elem_of_fmap. by apply Hseg.
  - destruct (parentClosed_no_repair _ Hclosed) as (H1 & H2 & _). done.
Qed.

Lemma collected_snapshot_is_complete_witness :
  let instances :=
    toGameInstance
      <$> collectCurrentGameData (λ _, "inst_1000_1") Samples.onlyWorkspace []
            (λ _ _, []) in
  parentClosed instances
  ∧ (∀ inst, inst ∈ instances →
             (length (split (Schema.path inst)) ≤ 18)%nat)
  ∧ orphanNodes (firstPass instances) = []
  ∧ (reconcile instances).2 = ["game"].
Proof.
  apply (collected_snapshot_is_complete (λ _, "inst_1000_1")
           Samples.onlyWorkspace [] (λ _ _, [])).
  intros name service _. unfold Samples.onlyWorkspace.
  case_decide; [|done]. intros [= <-]. subst name.
  split; [done|]. simpl. repeat split; done.
Defined.

End CollectorFacts.

(** ** The window of drawn rows *)

Section VirtualWindow.
Import Rows.

Lemma jsSlice_lookup {A} (l : list A) (start final : Z) (j : nat) :
  0 ≤ start → 0 ≤ final →
  jsSlice l start final !! j
  = if decide (start + Z.of_nat j < final) then l !! (Z.to_nat start + j)%nat
    else None.
Proof.
  intros Hs Hf. unfold jsSlice. cbv zeta.
  rewrite !decide_False by lia.
  set (len := Z.of_nat (length l)).
  destruct (decide (Z.of_nat j < Z.min final len - Z.min start len)) as [Hj|Hj].
  - rewrite lookup_take_lt by lia. rewrite lookup_drop.
    rewrite decide_True by lia. f_equal. lia.
  - rewrite lookup_take_ge by lia. case_decide; [|done].
    symmetry. apply lookup_ge_None. unfold len in *. lia.
Qed.

Lemma startIndex_nonneg scrollTop : 0 ≤ startIndex scrollTop.
Proof. unfold startIndex. lia. Qed.

Lemma endIndex_bounds scrollTop containerHeight (rows : nat) :
  -1 ≤ endIndex scrollTop containerHeight rows ≤ Z.of_nat rows - 1.
Proof.
  unfold endIndex, visibleCount, effectiveHeight.
  pose proof (startIndex_nonneg scrollTop).
  pose proof (ceilDiv_bounds (Z.max containerHeight 400) ITEM_HEIGHT).
  unfold ITEM_HEIGHT, OVERSCAN in *. lia.
Qed.

Lemma inView_window scrollTop containerHeight (i : nat) :
  inView scrollTop containerHeight i →
  startIndex scrollTop ≤ Z.of_nat i
  ≤ startIndex scrollTop + visibleCount containerHeight.
Proof.
  unfold inView, startIndex, visibleCount.
  set (s := effectiveScrollTop scrollTop).
  set (h := effectiveHeight containerHeight).
  intros [Hbelow Habove].
  pose proof (Qfloor_le (s / inject_Z ITEM_HEIGHT)) as Hfl.
  pose proof (Qlt_floor (s / inject_Z ITEM_HEIGHT)) as Hfu.
  set (f := Qfloor (s / inject_Z ITEM_HEIGHT)) in *.
  assert (Hs : (s == (s / inject_Z ITEM_HEIGHT) * 24)%Q).
  { unfold ITEM_HEIGHT. field. }
  set (x := (s / inject_Z ITEM_HEIGHT)%Q) in *.
  pose proof (ceilDiv_bounds h ITEM_HEIGHT) as Hc.
  set (c := Producer.ceilDiv h ITEM_HEIGHT) in *.
  assert (Hh : (inject_Z h <= inject_Z (c * 24))%Q).
  { rewrite <- Zle_Qle. unfold ITEM_HEIGHT in Hc. lia. }
  rewrite inject_Z_mult in Hh. change (inject_Z 24) with 24%Q in Hh.
  rewrite inject_Z_mult in Hbelow, Habove.
  rewrite inject_Z_plus in Habove, Hfu.
  unfold ITEM_HEIGHT in Hbelow, Habove.
  change (inject_Z 24) with 24%Q in Hbelow, Habove.
  change (inject_Z 1) with 1%Q in Habove, Hfu.
  assert (H1 : f < Z.of_nat i + 1).
  { rewrite Zlt_Qlt, inject_Z_plus. change (inject_Z 1) with 1%Q. lra. }
  assert (H2 : Z.of_nat i < f + 1 + c).
  { rewrite Zlt_Qlt, !inject_Z_plus. change (inject_Z 1) with 1%Q. lra. }
  unfold OVERSCAN. lia.
Qed.

(** Every row that is in view is among the rows drawn, and the drawn rows
    are consecutive rows starting at [startIndex], so that shifting them
    down by [offsetY] puts each at its own position.  At most
    [visibleCount + 1] rows are drawn, however long the list. *)
Theorem rows_in_view_are_drawn {A} (flattenedNodes : list A)
    (scrollTop : Q) (containerHeight : Z) :
  let drawn := visibleNodes flattenedNodes scrollTop containerHeight in
  (∀ i : nat, (i < length flattenedNodes)%nat →
     inView scrollTop containerHeight i →
     ∃ j : nat, Z.of_nat i = startIndex scrollTop + Z.of_nat j
                ∧ drawn !! j = flattenedNodes !! i)
  ∧ (∀ (j : nat) row, drawn !! j = Some row →
       flattenedNodes !! (Z.to_nat (startIndex scrollTop) + j)%nat = Some row)
  ∧ Z.of_nat (length drawn) ≤ visibleCount containerHeight + 1.
Proof.
  cbv zeta. unfold visibleNodes.
  pose proof (startIndex_nonneg scrollTop) as Hs.
  pose proof (endIndex_bounds scrollTop containerHeight (length flattenedNodes))
    as He.
  split; [|split].
  - intros i Hi Hview. apply inView_window in Hview.
    exists (Z.to_nat (Z.of_nat i - startIndex scrollTop)).
    split; [lia|]. rewrite jsSlice_lookup by lia.
    rewrite decide_True; [f_equal; lia|].
    unfold endIndex in *. lia.
  - intros j row. rewrite jsSlice_lookup by lia. by case_decide.
  - assert (Hv : 0 ≤ visibleCount containerHeight).
    { unfold visibleCount, effectiveHeight.
      pose proof (ceilDiv_bounds (Z.max containerHeight 400) ITEM_HEIGHT).
      unfold ITEM_HEIGHT, OVERSCAN in *. lia. }
    unfold jsSlice. cbv zeta. rewrite !decide_False by lia.
    rewrite length_take, length_drop. unfold endIndex in *. lia.
Qed.

Lemma rows_in_view_are_drawn_witness :
  ∃ j : nat, 30 = startIndex 720 + Z.of_nat j
             ∧ visibleNodes (seq 0 100) 720 0 !! j = seq 0 100 !! 30%nat.
Proof.
  destruct (rows_in_view_are_drawn (seq 0 100) 720 0) as [H _].
  apply (H 30%nat).
  - vm_compute. lia.
  - split; vm_compute; reflexivity.
Defined.

End VirtualWindow.

(** ** String escaping *)

Section JsonFacts.
Import Json.

Lemma gsubChar_app c repl (a b : string) :
  gsubChar c repl (a +:+ b) = gsubChar c repl a +:+ gsubChar c repl b.
Proof.
  induction a as [|d a IH]; [done|].
  change (String d a +:+ b) with (String d (a +:+ b)). cbn [gsubChar].
  rewrite IH. case_decide; [|done]. by rewrite string_app_assoc.
Qed.

Lemma gsubChar_eachChar c repl (f : ascii → string) s :
  gsubChar c repl (eachChar f s) = eachChar (λ d, gsubChar c repl (f d)) s.
Proof.
  induction s as [|d s IH]; [done|]. cbn [eachChar].
  by rewrite gsubChar_app, IH.
Qed.

Lemma gsubChar_single c repl s :
  gsubChar c repl s
  = eachChar (λ d, if decide (d = c) then repl else String d "") s.
Proof.
  induction s as [|d s IH]; [done|]. cbn [gsubChar eachChar].
  rewrite IH. by case_decide.
Qed.

Lemma eachChar_ext (f g : ascii → string) s :
  (∀ c, f c = g c) → eachChar f s = eachChar g s.
Proof. intros H. induction s as [|d s IH]; [done|]. cbn. by rewrite H, IH. Qed.

Lemma escapeString_eachChar s : escapeString s = eachChar escapeChar s.
Proof.
  unfold escapeString. cbv zeta.
  rewrite (gsubChar_single backslash), !gsubChar_eachChar.
  apply eachChar_ext. intros c. unfold escapeChar.
  destruct (decide (c = backslash)) as [->|H1]; [done|].
  destruct (decide (c = quote)) as [->|H2]; [done|].
  destruct (decide (c = newline)) as [->|H3]; [done|].
  destruct (decide (c = carriageReturn)) as [->|H4]; [done|].
  destruct (decide (c = tab)) as [->|H5]; [done|].
  by repeat (cbn [gsubChar]; rewrite decide_False by done).
Qed.

Lemma unescape_eachChar s : unescape (eachChar escapeChar s) = s.
Proof.
  assert (Hesc : ∀ e rest, unescape (String backslash (String e rest))
                           = String (unescapeChar e) (unescape rest)) by done.
  induction s as [|c s IH]; [done|]. cbn [eachChar].
  set (rest := eachChar escapeChar s) in *.
  destruct (decide (c = backslash)) as [->|H1].
  { change (escapeChar backslash +:+ rest)
      with (String backslash (String backslash rest)).
    by rewrite Hesc, IH. }
  destruct (decide (c = quote)) as [->|H2].
  { change (escapeChar quote +:+ rest)
      with (String backslash (String quote rest)).
    by rewrite Hesc, IH. }
  destruct (decide (c = newline)) as [->|H3].
  { change (escapeChar newline +:+ rest)
      with (String backslash (String "n" rest)).
    by rewrite Hesc, IH. }
  destruct (decide (c = carriageReturn)) as [->|H4].
  { change (escapeChar carriageReturn +:+ rest)
      with (String backslash (String "r" rest)).
    by rewrite Hesc, IH. }
  destruct (decide (c = tab)) as [->|H5].
  { change (escapeChar tab +:+ rest)
      with (String backslash (String "t" rest)).
    by rewrite Hesc, IH. }
  assert (Hc : escapeChar c = String c "").
  { unfold escapeChar. by rewrite !decide_False by done. }
  rewrite Hc. change (String c "" +:+ rest) with (String c rest).
  cbn [unescape]. rewrite decide_False by done. by rewrite IH.
Qed.

Lemma chars_app (a b : string) :
  list_ascii_of_string (a +:+ b)
  = list_ascii_of_string a ++ list_ascii_of_string b.
Proof.
  induction a as [|c a IH]; [done|].
  change (String c a +:+ b) with (String c (a +:+ b)). simpl. by rewrite IH.
Qed.

(** Because the backslash pass runs first, the five passes act as one
    substitution per character; reading the escapes back returns the
    string, so two different strings are never encoded alike, and the
    encoding holds no raw line feed, carriage return or tab. *)
Theorem escapeString_is_faithful :
  (∀ s, escapeString s = eachChar escapeChar s)
  ∧ (∀ s, unescape (escapeString s) = s)
  ∧ (∀ s1 s2, escapeString s1 = escapeString s2 → s1 = s2)
  ∧ (∀ s c, c ∈ list_ascii_of_string (escapeString s) →
            c ≠ newline ∧ c ≠ carriageReturn ∧ c ≠ tab).
Proof.
  assert (Hrt : ∀ s, unescape (escapeString s) = s).
  { intros s. by rewrite escapeString_eachChar, unescape_eachChar. }
  split; [apply escapeString_eachChar|]. split; [done|]. split.
  - intros s1 s2 Heq. by rewrite <- (Hrt s1), <- (Hrt s2), Heq.
  - intros s c. rewrite escapeString_eachChar. revert c.
    induction s as [|d s IH]; intros c; cbn [eachChar];
      [by intros ?%elem_of_nil|].
    rewrite chars_app, elem_of_app. intros [Hc|Hc]; [|by apply IH].
    revert Hc. unfold escapeChar.
    repeat (case_decide;
            [simpl; rewrite !elem_of_cons, elem_of_nil;
             intros [->|[->|[]]]; done|]).
    simpl. rewrite elem_of_cons, elem_of_nil. by intros [->|[]].
Qed.

End JsonFacts.

(** ** Every node is in the tree once *)

Section EachNodeOnce.
Import TreeView.

Implicit Types (m : NodeMap) (x p : string) (n : TreeNode).
Implicit Types (instances : list GameInstance).

Lemma allChildren_push m pk ck :
  is_Some (JsMap.get m pk) →
  allChildren (pushChild m pk ck) ≡ₚ ck :: allChildren m.
Proof.
  unfold pushChild, allChildren.
  induction m as [|[k0 v0] m IH]; simpl; [by intros [? ?]|].
  case_decide as Hk; simpl.
  - intros _. rewrite <- app_assoc. simpl. by rewrite <- Permutation_middle.
  - intros Hs. rewrite IH by done. by rewrite <- Permutation_middle.
Qed.

Lemma JsMap_set_fresh {V} (m : list (string * V)) k v :
  JsMap.get m k = None → JsMap.set m k v = m ++ [(k, v)].
Proof.
  induction m as [|[k0 v0] m IH]; simpl; [done|].
  case_decide; [done|]. intros Hn. by rewrite IH.
Qed.

Lemma onePlaceEach_push m pk ck (others : list string) :
  is_Some (JsMap.get m pk) →
  onePlaceEach m (ck :: others) → onePlaceEach (pushChild m pk ck) others.
Proof.
  unfold onePlaceEach. intros Hs H.
  rewrite allChildren_push by done. unfold pushChild.
  rewrite JsMap_keys_update, <- H. simpl. by rewrite <- Permutation_middle.
Qed.

Lemma onePlaceEach_placeholder m segs (j : nat) pk (others : list string) :
  JsMap.get m (join (take (S j) segs)) = None →
  is_Some (JsMap.get m pk) →
  onePlaceEach m others → onePlaceEach (addPlaceholder m segs j pk) others.
Proof.
  intros Hq Hpk H. unfold addPlaceholder. apply onePlaceEach_push.
  - rewrite JsMap_get_set. case_decide; [by eexists|done].
  - unfold onePlaceEach in *. rewrite JsMap_set_fresh by done.
    unfold allChildren, JsMap.keys. rewrite !fmap_app, concat_app. simpl.
    rewrite app_nil_r. rewrite <- Permutation_middle.
    rewrite <- Permutation_cons_append. by f_equiv.
Qed.

Lemma rootsAreTops_push m pk ck (roots : list string) :
  rootsAreTops m roots → rootsAreTops (pushChild m pk ck) roots.
Proof.
  intros H r c Hr Hc. rewrite pushChild_get, (H r c Hr Hc). by case_decide.
Qed.

Lemma rootsAreTops_placeholder m p (j : nat) (roots : list string) :
  rootsAreTops m roots →
  (1 ≤ j)%nat → (S j < length (split p))%nat →
  is_Some (JsMap.get m (join (take j (split p)))) →
  rootsAreTops (addPlaceholder m (split p) j (join (take j (split p)))) roots.
Proof.
  intros H Hj Hlen Hparent r c Hr Hc. unfold addPlaceholder.
  rewrite pushChild_get, JsMap_get_set, (H r c Hr Hc).
  destruct (decide (join (take (S j) (split p)) = join (take c (split r))))
    as [Heq|Hne]; [|by case_decide].
  exfalso.
  assert (Hsegs : take (S j) (split p) = take c (split r)).
  { rewrite <- (split_take_join p (S j)), <- (split_take_join r c) by lia.
    by rewrite Heq. }
  assert (Hc' : c = S j).
  { apply (f_equal length) in Hsegs. rewrite !length_take in Hsegs. lia. }
  subst c.
  assert (Hj' : take j (split p) = take j (split r)).
  { pose proof (take_take (split p) j (S j)) as Ep.
    pose proof (take_take (split r) j (S j)) as Er.
    rewrite Nat.min_l in Ep, Er by lia. by rewrite <- Ep, <- Er, Hsegs. }
  rewrite Hj' in Hparent. rewrite (H r j Hr) in Hparent by lia.
  by destruct Hparent.
Qed.

(** *** The first pass *)

Lemma firstPass_onePlace p2p (l : list string) :
  parentsAreOneUp p2p → ∀ st : Placement,
  onePlaceEach (nodeMap st) (orphanNodes st ++ rootNodes st ++ l) →
  (∀ r, r ∈ rootNodes st → r = "game") →
  let res := foldl (placeFirst p2p) st l in
  onePlaceEach (nodeMap res) (orphanNodes res ++ rootNodes res)
  ∧ (∀ r, r ∈ rootNodes res → r = "game").
Proof.
  intros Hp. induction l as [|key l IH]; intros st Hone Hroots; cbv zeta.
  - simpl. by rewrite app_nil_r in Hone.
  - cbn [foldl]. apply IH.
    + unfold placeFirst.
      assert (Horph : onePlaceEach (nodeMap st)
                        ((orphanNodes st ++ [key]) ++ rootNodes st ++ l)).
      { unfold onePlaceEach in *. rewrite <- Hone, <- !app_assoc. simpl.
        do 2 f_equiv. by rewrite <- !Permutation_middle. }
      destruct (truthy _).
      * destruct (JsMap.get (nodeMap st) _) eqn:Hg; cbn; [|done].
        apply onePlaceEach_push; [by rewrite Hg|].
        unfold onePlaceEach in *. rewrite <- Hone.
        f_equiv. by rewrite <- !Permutation_middle.
      * case_decide; cbn; [|done].
        unfold onePlaceEach in *. by rewrite <- Hone, <- !app_assoc.
    + unfold placeFirst. destruct (truthy _).
      * by destruct (JsMap.get (nodeMap st) _).
      * case_decide; cbn; [|done].
        intros r [?|Hr%list_elem_of_singleton]%elem_of_app;
          [by apply Hroots|by subst].
Qed.

(** *** The second pass *)

Lemma placeOrphan_onePlace (st : NodeMap * list string) o (l : list string) :
  onePlaceEach st.1 (o :: l ++ st.2) → rootsAreTops st.1 st.2 →
  onePlaceEach (placeOrphan st o).1 (l ++ (placeOrphan st o).2)
  ∧ rootsAreTops (placeOrphan st o).1 (placeOrphan st o).2.
Proof.
  intros Hone Htops. unfold placeOrphan.
  destruct (findAncestor _ _ _) as [i|] eqn:Hf; cbn [fst snd].
  - apply findAncestor_Some in Hf as [Hi Hs].
    destruct (intermediates_closed
                (λ m, onePlaceEach m (o :: l ++ st.2) ∧ rootsAreTops m st.2)
                (λ m p j '(conj H1 H2) Hj Hl Hq Hpk,
                   conj (onePlaceEach_placeholder m (split p) j _ _ Hq Hpk H1)
                        (rootsAreTops_placeholder m p j _ H2 Hj Hl Hpk))
                o (length (split o) - 1 - S i) st.1 i)
      as ([H1 H2] & _ & _ & H4); [done|done|lia|].
    split; [by apply onePlaceEach_push|by apply rootsAreTops_push].
  - split.
    + unfold onePlaceEach in *. rewrite <- Hone. f_equiv.
      rewrite app_assoc. by rewrite <- Permutation_cons_append.
    + intros r c [Hr|Hr%list_elem_of_singleton]%elem_of_app Hc;
        [by apply Htops|]. subst r.
      rewrite findAncestor_None in Hf. apply Hf. lia.
Qed.

Lemma placeOrphans_onePlace (l : list string) :
  ∀ st : NodeMap * list string,
  onePlaceEach st.1 (l ++ st.2) → rootsAreTops st.1 st.2 →
  onePlaceEach (foldl placeOrphan st l).1 (foldl placeOrphan st l).2
  ∧ rootsAreTops (foldl placeOrphan st l).1 (foldl placeOrphan st l).2.
Proof.
  induction l as [|o l IH]; intros st Hone Htops; simpl; [done|].
  destruct (placeOrphan_onePlace st o l Hone Htops) as [H1 H2].
  by apply IH.
Qed.

(** *** The map and the top-level array after both passes *)

Lemma prepare_keys_NoDup instances : NoDup (JsMap.keys (prepare instances).1).
Proof.
  unfold prepare.
  assert (H0 : NoDup (JsMap.keys
                        (ensureGame (foldl addInstanceNode ([], ∅) instances)).1)).
  { assert (NoDup (JsMap.keys (foldl addInstanceNode ([], ∅) instances).1))
      by (apply built_NoDup; apply NoDup_nil_2).
    unfold ensureGame. destruct (JsMap.has _ _); cbn [fst]; [done|].
    by apply JsMap_NoDup_keys_set. }
  revert H0. generalize (ensureGame (foldl addInstanceNode ([], ∅) instances)).
  induction essentialServices as [|sv l IH]; intros acc Ha; simpl; [done|].
  apply IH. destruct (ensureService_map instances acc sv) as [->| ->]; [done|].
  by apply JsMap_NoDup_keys_set.
Qed.

Lemma childless_allChildren m :
  (∀ k n, JsMap.get m k = Some n → children n = []) →
  NoDup (JsMap.keys m) → allChildren m = [].
Proof.
  unfold allChildren, JsMap.keys.
  induction m as [|[k0 v0] m IH]; intros Hc Hnd; simpl; [done|].
  apply NoDup_cons in Hnd as [Hk0 Hnd].
  rewrite (Hc k0 v0) by (simpl; by rewrite decide_True).
  simpl. apply IH; [|done]. intros k n Hk. apply (Hc k). simpl.
  case_decide as Heq; [|done]. subst k0. destruct Hk0.
  change (k ∈ JsMap.keys m). apply JsMap_get_keys. by rewrite Hk.
Qed.

Lemma reconcile_keys_NoDup instances :
  NoDup (JsMap.keys (reconcile instances).1).
Proof.
  unfold reconcile. cbv zeta.
  apply (placeOrphans_closed (λ m, NoDup (JsMap.keys m))).
  - intros m pk ck H. cbv beta in *. unfold pushChild.
    by rewrite JsMap_keys_update.
  - intros m p j H _ _ _ _. cbv beta in *. unfold addPlaceholder, pushChild.
    rewrite JsMap_keys_update. by apply JsMap_NoDup_keys_set.
  - cbn [fst]. unfold firstPass. cbv zeta.
    generalize (JsMap.keys (prepare instances).1).
    assert (Hg : ∀ (l : list string) (st : Placement),
              NoDup (JsMap.keys (nodeMap st)) →
              NoDup (JsMap.keys
                       (nodeMap (foldl (placeFirst (prepare instances).2) st l)))).
    { induction l as [|key l IH]; intros st Hs; simpl; [done|].
      apply IH. unfold placeFirst. destruct (truthy _).
      - destruct (JsMap.get _ _); cbn [nodeMap]; [|done].
        unfold pushChild. by rewrite JsMap_keys_update.
      - by case_decide. }
    intros l. apply Hg. cbn. apply prepare_keys_NoDup.
Qed.

Lemma reconcile_onePlace instances :
  onePlaceEach (reconcile instances).1 (reconcile instances).2
  ∧ rootsAreTops (reconcile instances).1 (reconcile instances).2.
Proof.
  unfold reconcile. cbv zeta.
  destruct (firstPass_onePlace (prepare instances).2
              (JsMap.keys (prepare instances).1) (prepare_oneUp instances)
              (mkPlacement (prepare instances).1 [] [])) as [H1 H2].
  - unfold onePlaceEach. cbn [nodeMap orphanNodes rootNodes].
    rewrite childless_allChildren; [done| |apply prepare_keys_NoDup].
    apply prepare_childless.
  - cbn. by intros r ?%elem_of_nil.
  - cbv zeta in H1, H2. fold (firstPass instances) in H1, H2.
    apply placeOrphans_onePlace; cbn [fst snd]; [done|].
    intros r c Hr Hc. apply H2 in Hr. subst r. simpl in Hc. lia.
Qed.

(** *** From the map to the tree *)

Lemma above_refl x : above x x.
Proof. by unfold above. Qed.

Lemma above_trans a b x : above a b → above b x → above a x.
Proof. unfold above. by etrans. Qed.

Lemma above_length a x : above a x → (length (split a) ≤ length (split x))%nat.
Proof. apply prefix_length. Qed.

Lemma above_same_length a b x :
  above a x → above b x → length (split a) = length (split b) → a = b.
Proof.
  unfold above. intros [ra Ha] [rb Hb] Hlen.
  rewrite <- (join_split a), <- (join_split b). f_equal.
  rewrite Ha in Hb. by apply app_inj_1 in Hb as [? _].
Qed.

Lemma above_parentKey ck :
  (2 ≤ length (split ck))%nat → above (parentKey ck) ck.
Proof.
  intros Hlen. unfold above, parentKey. rewrite split_take_join by lia.
  apply prefix_take.
Qed.

Lemma above_ancestor a x :
  above a x → a = join (take (length (split a)) (split x)).
Proof.
  unfold above. intros [r Hr]. rewrite Hr, take_app_length.
  by rewrite join_split.
Qed.

Section Forest.
Variable m : NodeMap.
Variable roots : list string.
Hypothesis m_keys : keyIsPath m.
Hypothesis m_down : childrenAreOneDown m.
Hypothesis m_nodup : NoDup (JsMap.keys m).
Hypothesis m_once : onePlaceEach m roots.
Hypothesis m_tops : rootsAreTops m roots.

Lemma shows_above : ∀ (fuel : nat) k x, shows fuel m k x → above k x.
Proof using m_keys m_down.
  induction fuel as [|fuel IH]; intros k x Hs.
  - by destruct Hs as (t & ? & _).
  - apply shows_unfold in Hs as (n & Hn & [->|(ck & Hck & Hs)]).
    + rewrite (m_keys _ _ Hn). apply above_refl.
    + destruct (m_down _ _ _ Hn Hck) as [-> Hlen].
      eapply above_trans; [by apply above_parentKey|by eapply IH].
Qed.

Lemma once_NoDup : NoDup (allChildren m ++ roots).
Proof using m_nodup m_once. unfold onePlaceEach in m_once. by rewrite m_once. Qed.

Lemma JsMap_get_elem {V} (mm : list (string * V)) k v :
  JsMap.get mm k = Some v → (k, v) ∈ mm.
Proof.
  induction mm as [|[k0 v0] mm IH]; simpl; [done|].
  case_decide; [intros [= <-]; subst; by left|]. intros H'. right. by apply IH.
Qed.

Lemma NoDup_concat_each {A} (ls : list (list A)) (l : list A) :
  NoDup (concat ls) → l ∈ ls → NoDup l.
Proof.
  induction ls as [|l0 ls IH]; simpl; [by intros _ ?%elem_of_nil|].
  intros [H1 [_ H2]]%NoDup_app [->|Hin]%elem_of_cons; [done|by apply IH].
Qed.

Lemma children_NoDup k n : JsMap.get m k = Some n → NoDup (children n).
Proof using m_nodup m_once.
  intros Hn. pose proof once_NoDup as [Hc _]%NoDup_app.
  apply (NoDup_concat_each _ _ Hc). unfold allChildren.
  apply list_elem_of_fmap. exists (k, n). split; [done|].
  by apply JsMap_get_elem.
Qed.

Lemma subtree_NoDup : ∀ (fuel : nat) k t,
  materialize fuel m k = Some t → NoDup (treePaths t).
Proof using m_keys m_down m_nodup m_once.
  induction fuel as [|fuel IH]; intros k t; simpl; [done|].
  destruct (JsMap.get m k) as [n|] eqn:Hn; [|done]. intros [= <-].
  cbn [treePaths]. fold (forestPaths (omap (materialize fuel m) (children n))).
  assert (Hlenk : ∀ ck, ck ∈ children n →
            length (split ck) = S (length (split k))).
  { intros ck Hck. destruct (m_down _ _ _ Hn Hck) as [-> Hlen].
    rewrite parentKey_length by done. lia. }
  assert (Hsub : ∀ (cs : list string) x,
            x ∈ forestPaths (omap (materialize fuel m) cs) →
            ∃ ck, ck ∈ cs ∧ shows fuel m ck x).
  { intros cs x (t & (ck & Hck & Ht)%list_elem_of_omap & Hx)%forestPaths_elem.
    exists ck. split; [done|]. by exists t. }
  apply NoDup_cons. split.
  - intros (ck & Hck & Hs)%Hsub. apply shows_above, above_length in Hs.
    rewrite (m_keys _ _ Hn), (Hlenk ck Hck) in Hs. lia.
  - assert (Hcs : ∀ cs : list string,
              NoDup cs → (∀ ck, ck ∈ cs → ck ∈ children n) →
              NoDup (forestPaths (omap (materialize fuel m) cs)));
      [|apply Hcs; [by eapply children_NoDup|done]].
    induction cs as [|c cs IHcs]; intros Hnd Hall; simpl; [constructor|].
    apply NoDup_cons in Hnd as [Hc Hnd].
    destruct (materialize fuel m c) as [tc|] eqn:Htc;
      [|apply IHcs; [done|intros; apply Hall; by right]].
    simpl. unfold forestPaths. simpl. apply NoDup_app. split; [by eapply IH|].
    split; [|apply IHcs; [done|intros; apply Hall; by right]].
    intros x Hx (c' & Hc' & Hs')%Hsub.
    assert (Hs : shows fuel m c x) by by exists tc.
    apply shows_above in Hs. apply shows_above in Hs'.
    assert (c = c').
    { apply (above_same_length c c' x); [done|done|].
      rewrite (Hlenk c) by (apply Hall; by left).
      rewrite (Hlenk c') by (apply Hall; by right). done. }
    by subst c'.
Qed.

Lemma forest_NoDup (fuel : nat) :
  NoDup (forestPaths (omap (materialize fuel m) roots)).
Proof using m_keys m_down m_nodup m_once m_tops.
  pose proof once_NoDup as [_ [_ Hroots]]%NoDup_app.
  assert (Hrs : ∀ rs : list string,
            NoDup rs → (∀ r, r ∈ rs → r ∈ roots) →
            NoDup (forestPaths (omap (materialize fuel m) rs)));
    [|by apply Hrs].
  clear Hroots.
  induction rs as [|r rs IH]; intros Hnd Hall; simpl; [constructor|].
  apply NoDup_cons in Hnd as [Hr Hnd].
  destruct (materialize fuel m r) as [tr|] eqn:Htr;
    [|apply IH; [done|intros; apply Hall; by right]].
  simpl. unfold forestPaths. simpl. apply NoDup_app.
  split; [by eapply subtree_NoDup|].
  split; [|apply IH; [done|intros; apply Hall; by right]].
  intros x Hx (t' & (r' & Hr' & Ht')%list_elem_of_omap & Hx')%forestPaths_elem.
  assert (Hs : shows fuel m r x) by by exists tr.
  assert (Hs' : shows fuel m r' x) by by exists t'.
  apply shows_above in Hs. apply shows_above in Hs'.
  assert (Hne : r ≠ r') by by intros ->.
  assert (Hkr : is_Some (JsMap.get m r)).
  { apply materialize_root in Htr. by rewrite Htr. }
  assert (Hkr' : is_Some (JsMap.get m r')).
  { apply materialize_root in Ht'. by rewrite Ht'. }
  pose proof (split_length r). pose proof (split_length r').
  destruct (prefix_weak_total _ _ _ Hs Hs') as [Hp|Hp].
  - assert (Hlt : (length (split r) < length (split r'))%nat).
    { pose proof (prefix_length _ _ Hp).
      destruct (decide (length (split r) = length (split r'))) as [He|]; [|lia].
      destruct Hne. by apply (above_same_length r r' x). }
    rewrite (above_ancestor r r' Hp) in Hkr.
    rewrite (m_tops r' (length (split r))) in Hkr; [by destruct Hkr| |lia].
    apply Hall. by right.
  - assert (Hlt : (length (split r') < length (split r))%nat).
    { pose proof (prefix_length _ _ Hp).
      destruct (decide (length (split r) = length (split r'))) as [He|]; [|lia].
      destruct Hne. by apply (above_same_length r r' x). }
    rewrite (above_ancestor r' r Hp) in Hkr'.
    rewrite (m_tops r (length (split r'))) in Hkr'; [by destruct Hkr'| |lia].
    apply Hall. by left.
Qed.

End Forest.

Lemma forestPaths_perm (l l' : list Tree) :
  l ≡ₚ l' → forestPaths l ≡ₚ forestPaths l'.
Proof.
  unfold forestPaths. induction 1 as [|t l l' _ IH|a b l|l1 l2 l3 _ IH1 _ IH2];
    simpl.
  - done.
  - by rewrite IH.
  - rewrite !app_assoc. f_equiv. apply Permutation_app_comm.
  - by etrans.
Qed.

Lemma sortNode_treePaths localeCompare t :
  treePaths (sortNode localeCompare t) ≡ₚ treePaths t.
Proof.
  induction t as [n kids IH] using Tree_forall_ind.
  cbn [sortNode treePaths]. f_equiv.
  fold (forestPaths (jsSort localeCompare (map (sortNode localeCompare) kids))).
  rewrite (forestPaths_perm _ _ (jsSort_perm localeCompare _)).
  unfold forestPaths. induction IH as [|k kids Hk _ IHkids]; simpl; [done|].
  by rewrite Hk, IHkids.
Qed.

Lemma sortTree_forestPaths localeCompare (nodes : list Tree) :
  forestPaths (sortTree localeCompare nodes) ≡ₚ forestPaths nodes.
Proof.
  unfold sortTree.
  rewrite (forestPaths_perm _ _ (jsSort_perm localeCompare _)).
  unfold forestPaths. induction nodes as [|k nodes IH]; simpl; [done|].
  by rewrite sortNode_treePaths, IH.
Qed.

(** For a non-empty collection the tree handed to the view lists every
    node of the reconciled map exactly once, whatever the comparator: no
    path occurs twice (the rows can be keyed by path), none is missing, and
    so every instance is in the tree. *)
Theorem every_node_is_in_the_tree_once localeCompare instances :
  instances ≠ [] →
  NoDup (forestPaths (treeData localeCompare instances))
  ∧ forestPaths (treeData localeCompare instances)
    ≡ₚ JsMap.keys (reconcile instances).1
  ∧ ∀ inst, inst ∈ instances →
            Schema.path inst ∈ forestPaths (treeData localeCompare instances).
Proof.
  intros Hne.
  assert (Hnd : NoDup (forestPaths (treeData localeCompare instances))).
  { unfold treeData. rewrite decide_False by by destruct instances.
    cbv zeta. rewrite sortTree_forestPaths.
    destruct (reconcile_onePlace instances) as [Hone Htops].
    apply forest_NoDup;
      [apply keyIsPath_reconcile|apply reconcile_oneDown
      |apply reconcile_keys_NoDup|done|done]. }
  split; [done|]. split.
  - apply NoDup_Permutation; [done|apply reconcile_keys_NoDup|].
    intros x. rewrite treeData_paths by done. apply JsMap_get_keys.
  - intros inst Hin. apply treeData_paths; [done|]. apply reconcile_hasKey.
    by apply list_elem_of_fmap_2.
Qed.

Lemma every_node_is_in_the_tree_once_witness :
  NoDup (forestPaths (treeData asciiCompare Samples.folderSnapshot))
  ∧ forestPaths (treeData asciiCompare Samples.folderSnapshot)
    ≡ₚ JsMap.keys (reconcile Samples.folderSnapshot).1
  ∧ ∀ inst, inst ∈ Samples.folderSnapshot →
            Schema.path inst
            ∈ forestPaths (treeData asciiCompare Samples.folderSnapshot).
Proof.
  apply (every_node_is_in_the_tree_once asciiCompare Samples.folderSnapshot).
  done.
Defined.

End EachNodeOnce.
